(** * Complex-number calculator (complex_calc.js): tokenizer, shunting-yard
    parser, Lisp printer, evaluator, randomized equality check, and the
    reading of the values of the variables at the prompt.

    Shallow embedding of the JavaScript source.  Conventions:

    - a JavaScript string is a [string]; each character stands for one code
      unit in the range 0..255, so the white space class [\s] is
      tab, line feed, vertical tab, form feed, carriage return, space and
      the no-break space (code 160);
    - a JavaScript number is a binary64 [float]; the operations [+ - * /]
      and the comparisons are the primitive IEEE operations;
    - a thrown [Error] is a value of [error]: one constructor per [throw]
      site of the source, plus [TypeError] for a property read on
      [undefined] and for the call of a method that a value does not have;
    - a loop that JavaScript does not bound runs on fuel; [None] means that
      the fuel ran out before it finished;
    - the lines typed at the prompts are a list of strings, consumed in
      order; what the program prints is left out. *)

From Stdlib Require Import ZArith Ascii String List.
From Stdlib Require Import Floats.PrimFloat Floats.SpecFloat Floats.FloatOps Floats.FloatAxioms.
From stdpp Require Import gmap strings list.

Set Warnings "-register-all".

Local Open Scope string_scope.
Local Open Scope list_scope.

(** ** Errors and results *)

Inductive error : Type :=
| DivisionByZero                       (* 'Divisão por zero (complexo)' *)
| InvalidRootDegree                    (* 'root: n deve ser inteiro não-zero' *)
| LexicalError                         (* 'Tokenização falhou: ...' *)
| UnexpectedComma                      (* 'Separador de argumentos fora de função' *)
| UnbalancedParentheses                (* 'Parênteses desbalanceados...' *)
| UnknownOperator (t : string)         (* 'Operador desconhecido: ' *)
| InvalidToken (t : string)            (* 'Token inválido: ' *)
| InsufficientArguments (f : string)   (* 'Argumentos insuficientes para ...' *)
| InternalRPN                          (* 'Erro interno no RPN -> AST' *)
| MalformedExpression                  (* 'Expressão inválida ou ambígua' *)
| InvalidLiteral (t : string)          (* 'Literal ... inválido: ' *)
| UnboundVariable (x : string)         (* 'Variável sem valor: ' *)
| NonIntegerRootDegree                 (* 'root: segundo argumento deve ser inteiro real' *)
| UnknownFunction (f : string)         (* 'Função desconhecida: ' *)
| UnimplementedOperator (o : string)   (* 'Operador não implementado: ' *)
| InvalidNode                          (* 'Nó AST inválido' *)
| TypeError.                           (* property of undefined, missing method *)

Inductive result (A : Type) : Type :=
| Ok (a : A)
| Throw (e : error).
Arguments Ok {A} a.
Arguments Throw {A} e.

Definition rbind {A B} (r : result A) (k : A -> result B) : result B :=
  match r with
  | Ok a => k a
  | Throw e => Throw e
  end.

Notation "'let!' x ':=' r 'in' k" := (rbind r (fun x => k))
  (at level 10, x pattern, r at level 100, k at level 200).

Definition rmap {A B} (f : A -> B) (r : result A) : result B :=
  match r with
  | Ok a => Ok (f a)
  | Throw e => Throw e
  end.

(** ** Character classes of the regular expressions *)

Definition code (c : ascii) : nat := nat_of_ascii c.

Definition between (lo hi : nat) (c : ascii) : bool :=
  Nat.leb lo (code c) && Nat.leb (code c) hi.

(** [\d] and [[0-9]] *)
Definition is_digit (c : ascii) : bool := between 48 57 c.
(** [[A-Za-z]] *)
Definition is_alpha (c : ascii) : bool := between 65 90 c || between 97 122 c.
(** [[A-Za-z_]] *)
Definition is_ident_start (c : ascii) : bool := is_alpha c || Ascii.eqb c "_".
(** [\w] *)
Definition is_word (c : ascii) : bool := is_ident_start c || is_digit c.
(** [\s], restricted to code units below 256 *)
Definition is_space (c : ascii) : bool :=
  between 9 13 c || Nat.eqb (code c) 32 || Nat.eqb (code c) 160.
(** [[+-]] *)
Definition is_sign (c : ascii) : bool := Ascii.eqb c "+" || Ascii.eqb c "-".
(** [[()+\-*/,]] *)
Definition is_punct (c : ascii) : bool :=
  Ascii.eqb c "(" || Ascii.eqb c ")" || Ascii.eqb c "+" || Ascii.eqb c "-"
  || Ascii.eqb c "*" || Ascii.eqb c "/" || Ascii.eqb c ",".

(** ** Backtracking regular expressions

    The fragment of JavaScript regular expressions the source uses:
    character classes, concatenation, ordered alternation, the greedy
    optional [r?], and the greedy [*] and [+] applied to a character
    class. *)

Inductive regex : Type :=
| RClass (p : ascii -> bool)
| RSeq (r1 r2 : regex)
| RAlt (r1 r2 : regex)
| ROpt (r : regex)
| RStar (p : ascii -> bool)
| RPlus (p : ascii -> bool).

Definition RChar (c : ascii) : regex := RClass (Ascii.eqb c).

(** All the ways [[p]*] matches a prefix of [s], longest first: each is
    the matched text and the rest of the input. *)
Fixpoint star_matches (p : ascii -> bool) (s : string) : list (string * string) :=
  match s with
  | String c s' =>
      if p c
      then map (fun mr => (String c (fst mr), snd mr)) (star_matches p s') ++ [("", s)]
      else [("", s)]
  | EmptyString => [("", s)]
  end.

(** All the ways [r] matches a prefix of [s], in the order in which a
    backtracking matcher tries them; the head is the match JavaScript
    reports when nothing after [r] fails. *)
Fixpoint matches (r : regex) (s : string) : list (string * string) :=
  match r with
  | RClass p =>
      match s with
      | String c s' => if p c then [(String c "", s')] else []
      | EmptyString => []
      end
  | RSeq r1 r2 =>
      flat_map (fun m1 =>
                  map (fun m2 => (fst m1 +:+ fst m2, snd m2)) (matches r2 (snd m1)))
               (matches r1 s)
  | RAlt r1 r2 => matches r1 s ++ matches r2 s
  | ROpt r1 => matches r1 s ++ [("", s)]
  | RStar p => star_matches p s
  | RPlus p =>
      match s with
      | String c s' =>
          if p c
          then map (fun mr => (String c (fst mr), snd mr)) (star_matches p s')
          else []
      | EmptyString => []
      end
  end.

(** [/^r$/.test(s)]: some way of matching [r] uses all of [s]. *)
Definition test_anchored (r : regex) (s : string) : bool :=
  existsb (fun mr => String.eqb (snd mr) "") (matches r s).

(** [[0-9]*\.?[0-9]+(?:e[+-]?\d+)?i?] *)
Definition NUMBER_RE : regex :=
  RSeq (RStar is_digit)
    (RSeq (ROpt (RChar "."))
      (RSeq (RPlus is_digit)
        (RSeq (ROpt (RSeq (RChar "e") (RSeq (ROpt (RClass is_sign)) (RPlus is_digit))))
              (ROpt (RChar "i"))))).

(** [[A-Za-z_]\w*] *)
Definition IDENT_RE : regex := RSeq (RClass is_ident_start) (RStar is_word).

(** The capture group of [TOKEN_REGEX]:
    [number|identifier|\*\*|\^|[()+\-*/,]] *)
Definition TOKEN_GROUP : regex :=
  RAlt NUMBER_RE
    (RAlt IDENT_RE
      (RAlt (RSeq (RChar "*") (RChar "*"))
        (RAlt (RChar "^") (RClass is_punct)))).

(** [TOKEN_REGEX.exec] at the current position ([s] is the input from
    [lastIndex] on; the regex is sticky): [\s*(group)\s*].  The result is
    the text of capture group 1 and the input after the whole match. *)
Definition token_matches (s : string) : list (string * string) :=
  flat_map (fun m1 =>
    flat_map (fun m2 =>
      map (fun m3 => (fst m2, snd m3)) (matches (RStar is_space) (snd m2)))
      (matches TOKEN_GROUP (snd m1)))
    (matches (RStar is_space) s).

Definition token_exec (s : string) : option (string * string) :=
  head (token_matches s).

(** ** Tokenizer *)

(** The [while ((m = TOKEN_REGEX.exec(input)) !== null)] loop. *)
Fixpoint tokenize_loop (fuel : nat) (s : string) (tokens : list string)
  : option (list string) :=
  match fuel with
  | O => None
  | S fuel' =>
      match token_exec s with
      | Some (tok, rest) => tokenize_loop fuel' rest (tokens ++ [tok])
      | None => Some tokens
      end
  end.

(** [tokens.join('')] *)
Definition join (sep : string) (l : list string) : string := String.concat sep l.

(** [input.replace(/\s+/g, '')] *)
Fixpoint strip_spaces (s : string) : string :=
  match s with
  | EmptyString => EmptyString
  | String c s' => if is_space c then strip_spaces s' else String c (strip_spaces s')
  end.

(** Every match consumes a character, so [S (length input)] rounds are
    enough ([tokenize_loop_fuel] below); the [None] branch is not reached. *)
Definition tokenize (input : string) : result (list string) :=
  match tokenize_loop (S (String.length input)) input [] with
  | Some tokens =>
      if String.eqb (join "" tokens) (strip_spaces input)
      then Ok tokens
      else Throw LexicalError
  | None => Throw LexicalError
  end.

(** ** JavaScript numbers *)

Definition fzero : float := 0%float.
Definition fone : float := 1%float.

(** [x || 0] on a number: [0], [-0] and [NaN] are falsy. *)
Definition or_zero (x : float) : float :=
  if (PrimFloat.eqb x fzero || PrimFloat.is_nan x)%bool then fzero else x.

(** The integer a double stands for, when it stands for one. *)
Definition float_integer (x : float) : option Z :=
  match Prim2SF x with
  | S754_zero _ => Some 0%Z
  | S754_finite s m e =>
      let sg (z : Z) := if s then (- z)%Z else z in
      if (0 <=? e)%Z then Some (sg (Z.pos m * 2 ^ e)%Z)
      else if (Z.pos m mod 2 ^ (- e) =? 0)%Z then Some (sg (Z.pos m / 2 ^ (- e))%Z)
      else None
  | _ => None
  end.

(** [Number.isInteger] *)
Definition Number_isInteger (x : float) : bool :=
  match float_integer x with Some _ => true | None => false end.

Definition float_Z (x : float) : Z :=
  match float_integer x with Some z => z | None => 0%Z end.

(** The double nearest to [num / den] (ties to even), with sign [neg]. *)
Definition round_ratio (neg : bool) (num den : positive) : float :=
  SF2Prim (SFdiv prec emax (S754_finite neg num 0) (S754_finite false den 0)).

(** The double nearest to [m * 10 ^ e], with sign [neg]. *)
Definition decimal_to_float (neg : bool) (m : N) (e : Z) : float :=
  match m with
  | N0 => if neg then (- fzero)%float else fzero
  | Npos p =>
      if (0 <=? e)%Z then round_ratio neg (p * Z.to_pos (10 ^ e)) 1
      else round_ratio neg p (Z.to_pos (10 ^ (- e)))
  end.

(** [Math.round]: the integer nearest to [x], halves going up; the sign
    of a zero result is the sign of [x]. *)
Definition Math_round (x : float) : float :=
  match Prim2SF x with
  | S754_finite s m e =>
      if (0 <=? e)%Z then x
      else
        let k := (- e)%Z in
        let v := if s then (- Z.pos m)%Z else Z.pos m in
        let r := ((2 * v + 2 ^ k) / 2 ^ (k + 1))%Z in
        match r with
        | Z0 => if s then (- fzero)%float else fzero
        | Zpos p => round_ratio false p 1
        | Zneg p => round_ratio true p 1
        end
  | _ => x
  end.

(** [Math.max] of two numbers. *)
Definition Math_max (x y : float) : float :=
  if (PrimFloat.is_nan x || PrimFloat.is_nan y)%bool then nan
  else if PrimFloat.ltb x y then y else x.

(** *** [Number(string)]: the StringToNumber conversion *)

Fixpoint span (p : ascii -> bool) (s : string) : string * string :=
  match s with
  | String c s' =>
      if p c then let r := span p s' in (String c (fst r), snd r) else ("", s)
  | EmptyString => ("", "")
  end.

Fixpoint drop_spaces (s : string) : string :=
  match s with
  | String c s' => if is_space c then drop_spaces s' else s
  | EmptyString => ""
  end.

Definition string_rev (s : string) : string :=
  string_of_list_ascii (rev (list_ascii_of_string s)).

(** [String.prototype.trim] *)
Definition trim (s : string) : string :=
  string_rev (drop_spaces (string_rev (drop_spaces s))).

Definition digit_value (c : ascii) : N := N.of_nat (code c - 48).

Definition hex_value (c : ascii) : option N :=
  if is_digit c then Some (digit_value c)
  else if between 97 102 c then Some (N.of_nat (code c - 87))
  else if between 65 70 c then Some (N.of_nat (code c - 55))
  else None.

(** The value of [s] read in base [b]; [None] if a character is not a
    digit of that base. *)
Fixpoint radix_value (b : N) (acc : N) (s : string) : option N :=
  match s with
  | EmptyString => Some acc
  | String c s' =>
      match hex_value c with
      | Some d => if (d <? b)%N then radix_value b (acc * b + d)%N s' else None
      | None => None
      end
  end.

Definition nonempty (s : string) : bool := negb (String.eqb s "").

(** [ExponentPart] opt, up to the end of the literal. *)
Definition exponent_part (s : string) : option Z :=
  match s with
  | EmptyString => Some 0%Z
  | String c s1 =>
      if (Ascii.eqb c "e" || Ascii.eqb c "E")%bool then
        let '(neg, s2) :=
          match s1 with
          | String "-" r => (true, r)
          | String "+" r => (false, r)
          | _ => (false, s1)
          end in
        if nonempty s2 then
          match radix_value 10 0 s2 with
          | Some v => Some (if neg then (- Z.of_N v)%Z else Z.of_N v)
          | None => None
          end
        else None
      else None
  end.

(** [StrUnsignedDecimalLiteral] other than [Infinity]: the digits as an
    integer and the power of ten it is scaled by. *)
Definition unsigned_decimal (s : string) : option (N * Z) :=
  let '(ip, r1) := span is_digit s in
  let '(fp, r2) :=
    match r1 with
    | String "." r => span is_digit r
    | _ => ("", r1)
    end in
  if (nonempty ip || nonempty fp)%bool then
    match radix_value 10 0 (ip +:+ fp), exponent_part r2 with
    | Some m, Some e => Some (m, (e - Z.of_nat (String.length fp))%Z)
    | _, _ => None
    end
  else None.

Definition str_decimal (neg : bool) (s : string) : float :=
  if String.eqb s "Infinity" then (if neg then neg_infinity else infinity)
  else match unsigned_decimal s with
       | Some (m, e) => decimal_to_float neg m e
       | None => nan
       end.

Definition non_decimal (b : N) (s : string) : float :=
  if nonempty s then
    match radix_value b 0 s with
    | Some v => decimal_to_float false v 0
    | None => nan
    end
  else nan.

(** [Number(s)] for a string [s]. *)
Definition Number (s : string) : float :=
  match trim s with
  | EmptyString => fzero
  | String "-" r => str_decimal true r
  | String "+" r => str_decimal false r
  | String "0" (String c r) =>
      if (Ascii.eqb c "x" || Ascii.eqb c "X")%bool then non_decimal 16 r
      else if (Ascii.eqb c "o" || Ascii.eqb c "O")%bool then non_decimal 8 r
      else if (Ascii.eqb c "b" || Ascii.eqb c "B")%bool then non_decimal 2 r
      else str_decimal false (trim s)
  | t => str_decimal false t
  end.

(** The numeric literals of the source, as the doubles they denote. *)
Definition lit_1e_14 : float := Eval vm_compute in Number "1e-14".
Definition lit_1e_300 : float := Eval vm_compute in Number "1e-300".
Definition lit_1e_12 : float := Eval vm_compute in Number "1e-12".
Definition lit_1e_8 : float := Eval vm_compute in Number "1e-8".
Definition lit_1e_7 : float := Eval vm_compute in Number "1e-7".
Definition lit_10 : float := 10%float.
Definition lit_5 : float := 5%float.
Definition lit_2 : float := 2%float.

(** The functions of [Math] whose results the language leaves to the
    implementation; the model is parametric in them. *)
Record MathLib : Type := {
  Math_hypot : float -> float -> float;
  Math_atan2 : float -> float -> float;
  Math_pow : float -> float -> float;
  Math_exp : float -> float;
  Math_log : float -> float;
  Math_cos : float -> float;
  Math_sin : float -> float;
  Math_sqrt : float -> float
}.

(** An instance for closed examples: [hypot] and [sqrt] by the IEEE
    operations; the transcendental functions, which no example below
    reaches, are constant. *)
Definition reference_math : MathLib := {|
  Math_hypot := fun x y => PrimFloat.sqrt (x * x + y * y);
  Math_atan2 := fun _ _ => fzero;
  Math_pow := fun _ _ => fone;
  Math_exp := fun _ => fone;
  Math_log := fun _ => fzero;
  Math_cos := fun _ => fone;
  Math_sin := fun _ => fzero;
  Math_sqrt := PrimFloat.sqrt
|}.

(** ** Complex numbers *)

Record Complex : Type := mkComplex { re : float; im : float }.

(** [new Complex(re, im)]: [this.re = +re || 0; this.im = +im || 0]. *)
Definition new_Complex (r i : float) : Complex :=
  mkComplex (or_zero r) (or_zero i).

Definition add (a b : Complex) : Complex :=
  new_Complex (re a + re b) (im a + im b).

Definition sub (a b : Complex) : Complex :=
  new_Complex (re a - re b) (im a - im b).

Definition mul (a b : Complex) : Complex :=
  new_Complex (re a * re b - im a * im b) (re a * im b + im a * re b).

(** [const denom = b.re*b.re + b.im*b.im] *)
Definition denom (b : Complex) : float := (re b * re b + im b * im b)%float.

Definition div (a b : Complex) : result Complex :=
  if PrimFloat.eqb (denom b) fzero then Throw DivisionByZero
  else Ok (new_Complex ((re a * re b + im a * im b) / denom b)
                       ((im a * re b - re a * im b) / denom b)).

Definition conj (a : Complex) : Complex := new_Complex (re a) (- im a).

Definition neg (a : Complex) : Complex := new_Complex (- re a) (- im a).

(** [eq(b, tol)] *)
Definition eq_tol (a b : Complex) (tol : float) : bool :=
  PrimFloat.ltb (abs (re a - re b)) tol && PrimFloat.ltb (abs (im a - im b)) tol.

(** The counter [i] of [for (let i = 0; i < n; i++)] is a double that holds
    an integer, modelled by that integer.  Below [2^53] the increment is
    exact; at [2^53] the sum [i + 1] is not a double and rounds back to
    [2^53], so the counter stays there. *)
Definition two53 : Z := (2 ^ 53)%Z.

Definition incr (i : Z) : Z := if (i <? two53)%Z then (i + 1)%Z else i.

(** [for (let i = 0; i < n; i++) res = res.mul(base);] from counter [i]
    on; [n] is the integer the double [n] holds. *)
Fixpoint pow_loop (fuel : nat) (i n : Z) (res base : Complex) : option Complex :=
  if (i <? n)%Z then
    match fuel with
    | O => None
    | S fuel' => pow_loop fuel' (incr i) n (mul res base) base
    end
  else Some res.

Section WithMath.

Variable M : MathLib.

(** [abs()] *)
Definition cabs (a : Complex) : float := Math_hypot M (re a) (im a).

(** The branch of [pow] for a real integer exponent. *)
Definition pow_int (fuel : nat) (a b : Complex) : option (result Complex) :=
  let n := re b in
  if PrimFloat.eqb n fzero then Some (Ok (new_Complex fone fzero))
  else
    let res := new_Complex fone fzero in
    let base := new_Complex (re a) (im a) in
    let positive := PrimFloat.ltb fzero n in
    let n := abs n in
    match pow_loop fuel 0 (float_Z n) res base with
    | None => None
    | Some res =>
        if negb positive then Some (div (new_Complex fone fzero) res)
        else Some (Ok res)
    end.

(** The polar branch of [pow]. *)
Definition pow_polar (a b : Complex) : Complex :=
  let r := cabs a in
  let theta := Math_atan2 M (im a) (re a) in
  let x := re b in
  let c := im b in
  let mag := (Math_pow M r x * Math_exp M (- c * theta))%float in
  let ang := (x * theta + c * Math_log M (Math_max r lit_1e_300))%float in
  new_Complex (mag * Math_cos M ang) (mag * Math_sin M ang).

(** The guard of the integer branch:
    [Math.abs(b.im) < 1e-14 && Number.isInteger(b.re)]. *)
Definition pow_guard (b : Complex) : bool :=
  PrimFloat.ltb (abs (im b)) lit_1e_14 && Number_isInteger (re b).

Definition pow (fuel : nat) (a b : Complex) : option (result Complex) :=
  if pow_guard b then pow_int fuel a b else Some (Ok (pow_polar a b)).

Definition csqrt (a : Complex) : Complex :=
  let r := cabs a in
  let x := Math_sqrt M ((r + re a) / lit_2) in
  let y := if PrimFloat.leb fzero (im a)
           then Math_sqrt M ((r - re a) / lit_2)
           else (- Math_sqrt M ((r - re a) / lit_2))%float in
  new_Complex x y.

Definition root (a : Complex) (n : float) : result Complex :=
  if (negb (Number_isInteger n) || PrimFloat.eqb n fzero)%bool
  then Throw InvalidRootDegree
  else
    let r := cabs a in
    let theta := Math_atan2 M (im a) (re a) in
    let mag := Math_pow M r (fone / n) in
    let ang := (theta / n)%float in
    Ok (new_Complex (mag * Math_cos M ang) (mag * Math_sin M ang)).

End WithMath.

(** ** Parser: shunting-yard to postfix, then postfix to AST *)

Inductive assoc : Type := L | R.

Record opinfo : Type := { prec : nat; op_assoc : assoc; op_args : nat }.

(** The table [OPERATORS]. *)
Definition OPERATORS : list (string * opinfo) :=
  [ ("+",  {| prec := 2; op_assoc := L; op_args := 2 |});
    ("-",  {| prec := 2; op_assoc := L; op_args := 2 |});
    ("*",  {| prec := 3; op_assoc := L; op_args := 2 |});
    ("/",  {| prec := 3; op_assoc := L; op_args := 2 |});
    ("**", {| prec := 5; op_assoc := R; op_args := 2 |});
    ("^",  {| prec := 5; op_assoc := R; op_args := 2 |});
    ("u-", {| prec := 6; op_assoc := R; op_args := 1 |}) ].

(** [OPERATORS[k]] *)
Fixpoint lookup_op (tbl : list (string * opinfo)) (k : string) : option opinfo :=
  match tbl with
  | [] => None
  | (k', v) :: tbl' => if String.eqb k k' then Some v else lookup_op tbl' k
  end.

(** [k in OPERATORS], for the keys the parser asks about: operator tokens,
    ["u-"] and the values of [prev].  None of them is a name that the table
    inherits from [Object.prototype]; those names are identifiers, which the
    parser handles before it consults the table. *)
Definition in_OPERATORS (k : string) : bool :=
  match lookup_op OPERATORS k with Some _ => true | None => false end.

Definition isNumberToken (t : string) : bool := test_anchored NUMBER_RE t.
Definition isIdentifier (t : string) : bool := test_anchored IDENT_RE t.

(** The values that travel through the operator stack and the output
    queue: [{type:'number', value}], [{type:'var', name}],
    [{type:'func', name}] and plain strings (operators and ['(']). *)
Inductive item : Type :=
| INumber (value : string)
| IVar (name : string)
| IFunc (name : string)
| IStr (s : string).

(** The state of the first loop of [parseToAST].  [ops] has its top at the
    head; [output] grows at the end; [prev] is [None] for [null]. *)
Record pstate : Type := {
  output : list item;
  ops : list item;
  prev : option string
}.

Definition is_lparen (x : item) : bool :=
  match x with IStr s => String.eqb s "(" | _ => false end.

(** [while (ops.length && ops[ops.length-1] !== '(') output.push(ops.pop());] *)
Fixpoint pop_to_lparen (ops : list item) (output : list item)
  : list item * list item :=
  match ops with
  | [] => (output, [])
  | top :: rest =>
      if is_lparen top then (output, ops)
      else pop_to_lparen rest (output ++ [top])
  end.

(** The [while (ops.length)] loop of the operator branch. *)
Fixpoint pop_operators (o1 : opinfo) (ops : list item) (output : list item)
  : list item * list item :=
  match ops with
  | [] => (output, [])
  | top :: rest =>
      match top with
      | IStr s =>
          if String.eqb s "(" then (output, ops)
          else
            match lookup_op OPERATORS s with
            | None => (output, ops)
            | Some o2 =>
                if match op_assoc o1 with
                   | L => Nat.leb (prec o1) (prec o2)
                   | R => Nat.ltb (prec o1) (prec o2)
                   end
                then pop_operators o1 rest (output ++ [top])
                else (output, ops)
            end
      | _ => (output, ops)
      end
  end.

(** The test that turns a ['-'] into the unary ['u-']:
    [prev === null || prev === '(' || prev === ',' || (prev in OPERATORS)]. *)
Definition unary_context (prev : option string) : bool :=
  match prev with
  | None => true
  | Some p => String.eqb p "(" || String.eqb p "," || in_OPERATORS p
  end.

(** The operator the token [t] stands for after the unary-minus test. *)
Definition resolve_op (prev : option string) (t : string) : string :=
  if String.eqb t "-" && unary_context prev then "u-" else t.

(** [next === s], where [next] is [None] past the end of the array. *)
Definition is_token (next : option string) (s : string) : bool :=
  match next with
  | Some n => String.eqb n s
  | None => false
  end.

(** One round of the [for] loop over the tokens: [t] is [tokens[i]] and
    [next] is [tokens[i+1]]. *)
Definition parse_step (st : pstate) (t : string) (next : option string)
  : result pstate :=
  if isNumberToken t then
    Ok {| output := output st ++ [INumber t]; ops := ops st; prev := Some "number" |}
  else if isIdentifier t then
    if is_token next "(" then
      Ok {| output := output st; ops := IFunc t :: ops st; prev := Some "id" |}
    else
      Ok {| output := output st ++ [IVar t]; ops := ops st; prev := Some "id" |}
  else if String.eqb t "," then
    let '(out, ops') := pop_to_lparen (ops st) (output st) in
    match ops' with
    | [] => Throw UnexpectedComma
    | _ => Ok {| output := out; ops := ops'; prev := Some "," |}
    end
  else if String.eqb t "(" then
    Ok {| output := output st; ops := IStr "(" :: ops st; prev := Some "(" |}
  else if String.eqb t ")" then
    let '(out, ops') := pop_to_lparen (ops st) (output st) in
    match ops' with
    | [] => Throw UnbalancedParentheses
    | _ :: ops'' =>
        match ops'' with
        | IFunc f :: ops3 =>
            Ok {| output := out ++ [IFunc f]; ops := ops3; prev := Some ")" |}
        | _ => Ok {| output := out; ops := ops''; prev := Some ")" |}
        end
    end
  else if in_OPERATORS t || String.eqb t "^" || String.eqb t "**" then
    let op := resolve_op (prev st) t in
    match (match lookup_op OPERATORS op with
           | Some o => Some o
           | None => lookup_op OPERATORS t
           end) with
    | None => Throw (UnknownOperator t)
    | Some o1 =>
        let '(out, ops') := pop_operators o1 (ops st) (output st) in
        Ok {| output := out; ops := IStr op :: ops'; prev := Some op |}
    end
  else Throw (InvalidToken t).

Fixpoint parse_tokens (tokens : list string) (st : pstate) : result pstate :=
  match tokens with
  | [] => Ok st
  | t :: rest =>
      let! st' := parse_step st t (head rest) in
      parse_tokens rest st'
  end.

(** The final [while (ops.length)] loop. *)
Fixpoint drain_ops (ops : list item) (output : list item) : result (list item) :=
  match ops with
  | [] => Ok output
  | top :: rest =>
      match top with
      | IStr s =>
          if String.eqb s "(" || String.eqb s ")" then Throw UnbalancedParentheses
          else drain_ops rest (output ++ [top])
      | _ => drain_ops rest (output ++ [top])
      end
  end.

(** The postfix queue of an input. *)
Definition to_rpn (input : string) : result (list item) :=
  let! tokens := tokenize input in
  let! st := parse_tokens tokens {| output := []; ops := []; prev := None |} in
  drain_ops (ops st) (output st).

(** *** The tree *)

Inductive ast : Type :=
| Literal (value : string)
| Var (name : string)
| Call (name : string) (args : list ast)
| Op (op : string) (args : list ast).

(** [for (i < arity) { if (!stack.length) throw ...; args.unshift(stack.pop()); }]
    The stack has its top at the head. *)
Fixpoint pop_args (e : error) (arity : nat) (stack args : list ast)
  : result (list ast * list ast) :=
  match arity with
  | O => Ok (args, stack)
  | S k =>
      match stack with
      | [] => Throw e
      | x :: stack' => pop_args e k stack' (x :: args)
      end
  end.

(** One round of [for (const tok of output)]. *)
Definition build_step (stack : list ast) (tok : item) : result (list ast) :=
  match tok with
  | INumber v => Ok (Literal v :: stack)
  | IVar x => Ok (Var x :: stack)
  | IFunc fn =>
      let arity := if String.eqb fn "root" then 2 else 1 in
      let! r := pop_args (InsufficientArguments fn) arity stack [] in
      Ok (Call fn (fst r) :: snd r)
  | IStr op =>
      match lookup_op OPERATORS op with
      | None => Throw TypeError
      | Some info =>
          let! r := pop_args (InsufficientArguments op) (op_args info) stack [] in
          Ok (Op op (fst r) :: snd r)
      end
  end.

Fixpoint build_ast (rpn : list item) (stack : list ast) : result (list ast) :=
  match rpn with
  | [] => Ok stack
  | tok :: rest =>
      let! stack' := build_step stack tok in
      build_ast rest stack'
  end.

Definition parseToAST (input : string) : result ast :=
  let! rpn := to_rpn input in
  let! stack := build_ast rpn [] in
  match stack with
  | [node] => Ok node
  | _ => Throw MalformedExpression
  end.

(** ** Printer *)

Fixpoint astToLisp (node : ast) : string :=
  match node with
  | Literal value => value
  | Var name => name
  | Call name args =>
      "(" +:+ name +:+ " " +:+ join " " (map astToLisp args) +:+ ")"
  | Op name args =>
      match args with
      | [a] => "(" +:+ name +:+ " " +:+ astToLisp a +:+ ")"
      | _ => "(" +:+ name +:+ " " +:+ join " " (map astToLisp args) +:+ ")"
      end
  end.

(** A [Set] of names, in insertion order. *)
Definition set_add (x : string) (set : list string) : list string :=
  if existsb (String.eqb x) set then set else set ++ [x].

Fixpoint collectVars (node : ast) (set : list string) : list string :=
  match node with
  | Literal _ => set
  | Var name => set_add name set
  | Call _ args => fold_left (fun s a => collectVars a s) args set
  | Op _ args => fold_left (fun s a => collectVars a s) args set
  end.

(** ** Evaluation *)

(** [/i$/.test(token)] *)
Fixpoint ends_with_i (s : string) : bool :=
  match s with
  | EmptyString => false
  | String c EmptyString => Ascii.eqb c "i"
  | String _ s' => ends_with_i s'
  end.

(** [token.slice(0, -1)] *)
Fixpoint drop_last (s : string) : string :=
  match s with
  | EmptyString => EmptyString
  | String _ EmptyString => EmptyString
  | String c s' => String c (drop_last s')
  end.

Definition parseComplexLiteral (token : string) : result Complex :=
  if ends_with_i token then
    let num := drop_last token in
    let v := if String.eqb num "" || String.eqb num "+" then fone
             else if String.eqb num "-" then (- fone)%float
             else Number num in
    if PrimFloat.is_nan v then Throw (InvalidLiteral token)
    else Ok (new_Complex fzero v)
  else
    let n := Number token in
    if PrimFloat.is_nan n then Throw (InvalidLiteral token)
    else Ok (new_Complex n fzero).

(** Computations that may run out of fuel and may throw. *)
Definition obind {A B} (c : option (result A)) (k : A -> option (result B))
  : option (result B) :=
  match c with
  | None => None
  | Some (Throw e) => Some (Throw e)
  | Some (Ok a) => k a
  end.

Notation "'do!' x ':=' c 'in' k" := (obind c (fun x => k))
  (at level 10, x pattern, c at level 100, k at level 200).

(** The results of [args.map(...)], left to right, up to the first
    argument that throws or does not finish. *)
Fixpoint sequence {A} (l : list (option (result A))) : option (result (list A)) :=
  match l with
  | [] => Some (Ok [])
  | c :: l' =>
      do! a := c in
      do! r := sequence l' in
      Some (Ok (a :: r))
  end.

(** A variable environment: the own properties of the object [env], whose
    prototype is [Object.prototype] and whose properties hold complex
    numbers.  Through its prototype the object inherits the properties of
    [Object.prototype]: [name in env] holds for their names too, and
    [env[name]] is then a function, or [Object.prototype] itself for
    [__proto__].

    Where the program fills an environment, the assignment [env[v] = c]
    for a variable [v] named [__proto__] makes [c] the prototype of [env]
    instead of an own property.  [env.__proto__] reads [c] afterwards all
    the same, and every other variable the program then reads has been
    assigned, so is an own property: the map that binds [__proto__] to [c]
    gives the same reads. *)
Abbreviation environment := (gmap string Complex).

Definition Object_prototype_names : list string :=
  ["constructor"; "__defineGetter__"; "__defineSetter__"; "hasOwnProperty";
   "__lookupGetter__"; "__lookupSetter__"; "isPrototypeOf";
   "propertyIsEnumerable"; "toString"; "valueOf"; "__proto__"; "toLocaleString"].

Definition inherited (name : string) : bool :=
  existsb (String.eqb name) Object_prototype_names.

(** What an evaluation returns: a [Complex], or the value of an inherited
    property, which has no property [re] or [im] and no method of
    [Complex]. *)
Inductive jsvalue : Type :=
| VComplex (c : Complex)
| VInherited (name : string).

(** A value as the argument [b] of an operation of [Complex]: the
    operation reads [b.re] and [b.im], which are [undefined] on an inherited
    value, and every use the source makes of them (arithmetic, [Math.abs],
    [Math.round], [Math.pow]) turns [undefined] into [NaN]. *)
Definition operand (v : jsvalue) : Complex :=
  match v with
  | VComplex c => c
  | VInherited _ => mkComplex nan nan
  end.

(** A value as the receiver of a method call [v.add(b)], [v.neg()], ...:
    an inherited value has no such method, and the call raises a
    [TypeError]. *)
Definition receiver (v : jsvalue) : result Complex :=
  match v with
  | VComplex c => Ok c
  | VInherited _ => Throw TypeError
  end.

Section Evaluator.

Variable M : MathLib.

Fixpoint evaluateAST (fuel : nat) (node : ast) (env : environment)
  : option (result jsvalue) :=
  match node with
  | Literal value => Some (rmap VComplex (parseComplexLiteral value))
  | Var name =>
      match env !! name with
      | Some v => Some (Ok (VComplex v))
      | None =>
          if inherited name then Some (Ok (VInherited name))
          else Some (Throw (UnboundVariable name))
      end
  | Call name args =>
      do! vals := sequence (map (fun a => evaluateAST fuel a env) args) in
      if String.eqb name "conj" then
        match vals with
        | a0 :: _ => Some (let! c := receiver a0 in Ok (VComplex (conj c)))
        | [] => Some (Throw TypeError)
        end
      else if String.eqb name "sqrt" then
        match vals with
        | a0 :: _ => Some (let! c := receiver a0 in Ok (VComplex (csqrt M c)))
        | [] => Some (Throw TypeError)
        end
      else if String.eqb name "root" then
        match args, vals with
        | _ :: a1 :: _, a0 :: _ =>
            do! nVal := evaluateAST fuel a1 env in
            if PrimFloat.ltb lit_1e_12 (abs (im (operand nVal)))
            then Some (Throw NonIntegerRootDegree)
            else Some (let! c := receiver a0 in
                       rmap VComplex (root M c (Math_round (re (operand nVal)))))
        | _, _ => Some (Throw TypeError)
        end
      else Some (Throw (UnknownFunction name))
  | Op op args =>
      if String.eqb op "u-" then
        match args with
        | a0 :: _ =>
            do! v := evaluateAST fuel a0 env in
            Some (let! c := receiver v in Ok (VComplex (neg c)))
        | [] => Some (Throw TypeError)
        end
      else
        match args with
        | a0 :: rest =>
            do! a := evaluateAST fuel a0 env in
            match rest with
            | a1 :: _ =>
                do! b := evaluateAST fuel a1 env in
                if String.eqb op "+" then
                  Some (let! c := receiver a in Ok (VComplex (add c (operand b))))
                else if String.eqb op "-" then
                  Some (let! c := receiver a in Ok (VComplex (sub c (operand b))))
                else if String.eqb op "*" then
                  Some (let! c := receiver a in Ok (VComplex (mul c (operand b))))
                else if String.eqb op "/" then
                  Some (let! c := receiver a in rmap VComplex (div c (operand b)))
                else if String.eqb op "**" then
                  match receiver a with
                  | Ok c => option_map (rmap VComplex) (pow M fuel c (operand b))
                  | Throw e => Some (Throw e)
                  end
                else if String.eqb op "^" then
                  match receiver a with
                  | Ok c => option_map (rmap VComplex) (pow M fuel c (operand b))
                  | Throw e => Some (Throw e)
                  end
                else Some (Throw (UnimplementedOperator op))
            | [] => Some (Throw TypeError)
            end
        | [] => Some (Throw TypeError)
        end
  end.

(** ** Randomized equality check *)

(** The successive results of [Math.random()] are [rand 0], [rand 1], ...;
    [k] counts the draws made so far. *)
Variable rand : nat -> float.

(** [for (const v of vars) { ... env[v] = new Complex(re, im); }] *)
Fixpoint random_env (vars : list string) (k : nat) (env : environment)
  : environment * nat :=
  match vars with
  | [] => (env, k)
  | v :: vars' =>
      let x := (rand k * lit_10 - lit_5)%float in
      let y := (rand (S k) * lit_10 - lit_5)%float in
      random_env vars' (S (S k)) (<[v := new_Complex x y]> env)
  end.

(** [new Set([...collectVars(ast1), ...collectVars(ast2)])] *)
Definition all_vars (ast1 ast2 : ast) : list string :=
  fold_left (fun s x => set_add x s) (collectVars ast1 [] ++ collectVars ast2 []) [].

(** What one round does with the loop counter [t]. *)
Inductive round_outcome : Type :=
| Mismatch                 (* [return false] *)
| Agree                    (* fall through to [t++] *)
| Caught (e : error).      (* the [catch] block *)

Definition run_round (fuel : nat) (ast1 ast2 : ast) (tol : float) (env : environment)
  : option round_outcome :=
  match evaluateAST fuel ast1 env with
  | None => None
  | Some (Throw e) => Some (Caught e)
  | Some (Ok r1) =>
      match evaluateAST fuel ast2 env with
      | None => None
      | Some (Throw e) => Some (Caught e)
      | Some (Ok r2) =>
          (* [r1.eq(r2, tol)], inside the [try] *)
          match receiver r1 with
          | Throw e => Some (Caught e)
          | Ok c1 =>
              Some (if negb (eq_tol c1 (operand r2) tol) then Mismatch else Agree)
          end
      end
  end.

(** The loop [for (let t = 0; t < tries; t++)] from counter [t] on, after
    [k] random draws.  [fuel] bounds the number of rounds and, inside each
    evaluation, the length of a power loop. *)
Fixpoint trials (fuel rounds : nat) (ast1 ast2 : ast) (vars : list string)
    (tries : Z) (tol : float) (t : Z) (k : nat) : option (result bool) :=
  if (t <? tries)%Z then
    match rounds with
    | O => None
    | S rounds' =>
        let '(env, k') := random_env vars k ∅ in
        match run_round fuel ast1 ast2 tol env with
        | None => None
        | Some Mismatch => Some (Ok false)
        | Some Agree =>
            trials fuel rounds' ast1 ast2 vars tries tol (t + 1)%Z k'
        | Some (Caught e) =>
            (* [t--; if (t<0) throw e; continue;] and then [t++] *)
            let t' := (t - 1)%Z in
            if (t' <? 0)%Z then Some (Throw e)
            else trials fuel rounds' ast1 ast2 vars tries tol (t' + 1)%Z k'
        end
    end
  else Some (Ok true).

Definition expressionsEqual (fuel : nat) (ast1 ast2 : ast) (tries : Z) (tol : float)
  : option (result bool) :=
  trials fuel fuel ast1 ast2 (all_vars ast1 ast2) tries tol 0 0.

End Evaluator.

(** ** Command line: reading the value of a variable *)

(** [/i$/.test(t) && !/[A-Za-z]/.test(t)] *)
Fixpoint has_letter (s : string) : bool :=
  match s with
  | EmptyString => false
  | String c s' => is_alpha c || has_letter s'
  end.

Definition isImagToken (t : string) : bool := ends_with_i t && negb (has_letter t).

(** The errors of [parseComplexInput]. *)
Inductive input_error : Type :=
| InvalidComplexFormat      (* 'Formato de complexo inválido' *)
| UninterpretableComplex.   (* 'Não pude interpretar o complexo. ...' *)

Inductive outcome (A : Type) : Type :=
| Returns (a : A)
| Raises (e : input_error).
Arguments Returns {A} a.
Arguments Raises {A} e.

(** [e] and [i] in a regular expression with the flag [i]. *)
Definition is_e (c : ascii) : bool := Ascii.eqb c "e" || Ascii.eqb c "E".
Definition is_i (c : ascii) : bool := Ascii.eqb c "i" || Ascii.eqb c "I".

(** [\d*\.?\d+(?:e[+-]?\d+)?] with the flag [i] *)
Definition DECIMAL_RE : regex :=
  RSeq (RStar is_digit)
    (RSeq (ROpt (RChar "."))
      (RSeq (RPlus is_digit)
        (ROpt (RSeq (RClass is_e) (RSeq (ROpt (RClass is_sign)) (RPlus is_digit)))))).

(** [[+-]?\d*\.?\d+(?:e[+-]?\d+)?] and [[+-]\d*\.?\d+(?:e[+-]?\d+)?] *)
Definition SIGNED_RE : regex := RSeq (ROpt (RClass is_sign)) DECIMAL_RE.
Definition IMAGINARY_RE : regex := RSeq (RClass is_sign) DECIMAL_RE.

(** The first regular expression of [parseComplexInput], between [^] and
    [$]: [(signed)?(signed)?i?]. *)
Definition COMPLEX_RE : regex :=
  RSeq (ROpt SIGNED_RE) (RSeq (ROpt SIGNED_RE) (ROpt (RClass is_i))).

(** The second one, [^(signed)([+-]...)i$]: the texts of its two groups in
    the first way of matching the whole string. *)
Definition alt_match (str : string) : option (string * string) :=
  head
    (flat_map (fun m1 =>
       flat_map (fun m2 =>
         flat_map (fun m3 =>
           if String.eqb (snd m3) "" then [(fst m1, fst m2)] else [])
           (matches (RClass is_i) (snd m2)))
         (matches IMAGINARY_RE (snd m1)))
       (matches SIGNED_RE str)).

(** [str.includes(c)] for a character [c] *)
Fixpoint includes (c : ascii) (s : string) : bool :=
  match s with
  | EmptyString => false
  | String a s' => Ascii.eqb a c || includes c s'
  end.

(** [str.lastIndexOf(c, from)]: the last index, at most [from], at which
    [c] stands, and [-1] if there is none; a negative [from] counts as 0.
    [index_from] scans [s], whose first character has index [i]. *)
Fixpoint index_from (c : ascii) (s : string) (i from found : Z) : Z :=
  match s with
  | EmptyString => found
  | String a s' =>
      index_from c s' (i + 1) from
        (if ((i <=? from)%Z && Ascii.eqb a c)%bool then i else found)
  end.

Definition lastIndexOf (c : ascii) (s : string) (from : Z) : Z :=
  index_from c s 0 (Z.max from 0) (-1).

(** [str.slice(from, to)]: a negative index counts from the end, and the
    indices are clamped to the string. *)
Definition slice_index (len i : Z) : Z :=
  if (i <? 0)%Z then Z.max (len + i) 0 else Z.min i len.

Definition slice (s : string) (from to : Z) : string :=
  let len := Z.of_nat (String.length s) in
  let a := slice_index len from in
  let b := slice_index len to in
  String.substring (Z.to_nat a) (Z.to_nat (b - a)) s.

Definition parseComplexInput (input : string) : outcome Complex :=
  let str := strip_spaces input in
  if String.eqb str "i" then Returns (new_Complex fzero fone)
  else if String.eqb str "-i" then Returns (new_Complex fzero (- fone))
  else if test_anchored COMPLEX_RE str then
    if includes "i" str then
      let len := Z.of_nat (String.length str) in
      let idx := Z.max (lastIndexOf "+" str (len - 2)) (lastIndexOf "-" str (len - 2)) in
      if (0 <? idx)%Z then
        let real := Number (slice str 0 idx) in
        let imagPart := slice str idx (len - 1) in
        let imag := if String.eqb imagPart "+" then fone
                    else if String.eqb imagPart "-" then (- fone)%float
                    else Number imagPart in
        Returns (new_Complex real imag)
      else
        let imag := Number (slice str 0 (len - 1)) in
        Returns (new_Complex fzero imag)
    else
      let re := Number str in
      if PrimFloat.is_nan re then Raises InvalidComplexFormat
      else Returns (new_Complex re fzero)
  else
    match alt_match str with
    | Some (g1, g2) => Returns (new_Complex (Number g1) (Number g2))
    | None => Raises UninterpretableComplex
    end.

(** [promptForEnv]: [answers] are the lines typed at the prompts.  The
    loop of a variable takes lines until one is read as a complex number;
    [None] when the lines run out before. *)
Fixpoint ask (answers : list string) : option (Complex * list string) :=
  match answers with
  | [] => None
  | ans :: rest =>
      match parseComplexInput (trim ans) with
      | Returns c => Some (c, rest)
      | Raises _ => ask rest
      end
  end.

Fixpoint prompt_vars (vars : list string) (answers : list string) (env : environment)
  : option (environment * list string) :=
  match vars with
  | [] => Some (env, answers)
  | v :: vars' =>
      match ask answers with
      | Some (c, rest) => prompt_vars vars' rest (<[v := c]> env)
      | None => None
      end
  end.

Definition promptForEnv (node : ast) (answers : list string)
  : option (environment * list string) :=
  prompt_vars (collectVars node []) answers ∅.

(** * Definitions for the statements

    Predicates and functions that the properties below are stated with;
    none of them is part of the program. *)

(** ** Evaluation of an input *)

(** The input parses and the evaluation of its tree under [env] finishes
    with [r]. *)
Definition evaluates (M : MathLib) (input : string) (env : environment)
    (r : result Complex) : Prop :=
  exists node fuel,
    parseToAST input = Ok node
    /\ evaluateAST M fuel node env = Some (rmap VComplex r).

(** ** Components of a complex number *)

(** Neither component is [NaN]. *)
Definition nan_free (c : Complex) : Prop :=
  PrimFloat.is_nan (re c) = false /\ PrimFloat.is_nan (im c) = false.

(** Neither component is [NaN], [Infinity] or [-Infinity]. *)
Definition finite_components (c : Complex) : Prop :=
  nan_free c
  /\ PrimFloat.is_infinity (re c) = false /\ PrimFloat.is_infinity (im c) = false.

(** ** Integer powers *)

(** [k] successive [res = res.mul(base)], from [res]. *)
Definition mul_times (k : nat) (base res : Complex) : Complex :=
  Nat.iter k (fun r => mul r base) res.

(** [base] multiplied [k] times into 1. *)
Definition repeated_mul (k : nat) (base : Complex) : Complex :=
  mul_times k base (new_Complex fone fzero).

(** The integer power as the specification describes it: 1 for [n = 0], the
    [|n|]-fold product for [n > 0], and its inverse through [div] for
    [n < 0]. *)
Definition integer_power (base : Complex) (n : Z) : result Complex :=
  match n with
  | Z0 => Ok (new_Complex fone fzero)
  | Zpos p => Ok (repeated_mul (Pos.to_nat p) base)
  | Zneg p => div (new_Complex fone fzero) (repeated_mul (Pos.to_nat p) base)
  end.

(** ** Random values

    A sequence of results of [Math.random()]: the first two give
    [a = 4+4i], all the later ones give [a = 0]. *)
Definition zero_after_first_round (k : nat) : float :=
  if Nat.ltb k 2 then 0x1.ccccccccccccdp-1%float else 0x1p-1%float.

(** ** Strings and regular expressions *)

(** Every character of [s] satisfies [p]. *)
Fixpoint string_forall (p : ascii -> bool) (s : string) : bool :=
  match s with
  | EmptyString => true
  | String c s' => p c && string_forall p s'
  end.

(** The characters that can occur in a match of [r]. *)
Fixpoint alphabet (r : regex) (c : ascii) : bool :=
  match r with
  | RClass p => p c
  | RSeq r1 r2 => alphabet r1 c || alphabet r2 c
  | RAlt r1 r2 => alphabet r1 c || alphabet r2 c
  | ROpt r1 => alphabet r1 c
  | RStar p => p c
  | RPlus p => p c
  end.

(** [r] can match the empty string. *)
Fixpoint nullable (r : regex) : bool :=
  match r with
  | RClass _ => false
  | RSeq r1 r2 => nullable r1 && nullable r2
  | RAlt r1 r2 => nullable r1 || nullable r2
  | ROpt _ => true
  | RStar _ => true
  | RPlus _ => false
  end.

(** ['.'] *)
Definition is_dot (c : ascii) : bool := Ascii.eqb "." c.

(** The characters a tokenizable input is made of: digits, letters, the
    underscore, ['.'], ['^'], the characters of [()+-*/,] and white
    space. *)
Definition allowed (c : ascii) : bool :=
  is_digit c || is_alpha c || Ascii.eqb c "_" || is_dot c
  || Ascii.eqb c "^" || is_punct c || is_space c.

(** The characters the specification lists: the same without the
    underscore. *)
Definition listed (c : ascii) : bool :=
  is_digit c || is_alpha c || is_dot c || Ascii.eqb c "^" || is_punct c
  || is_space c.

(** [s] is not empty and its first character satisfies [p]. *)
Definition starts_with (p : ascii -> bool) (s : string) : bool :=
  match s with
  | String c _ => p c
  | EmptyString => false
  end.

(** Every ['.'] of [s] is immediately followed by a digit. *)
Fixpoint dots_ok (s : string) : bool :=
  match s with
  | EmptyString => true
  | String c s' => (if is_dot c then starts_with is_digit s' else true) && dots_ok s'
  end.

(** What a token is: not empty, made of token characters, every ['.']
    followed by a digit. *)
Definition good_token (tok : string) : Prop :=
  tok <> "" /\ string_forall (alphabet TOKEN_GROUP) tok = true /\ dots_ok tok = true.

(** Some character of [s] satisfies [p]. *)
Fixpoint string_exists (p : ascii -> bool) (s : string) : bool :=
  match s with
  | EmptyString => false
  | String c s' => p c || string_exists p s'
  end.



(** The parts of the number regex: [e[+-]?\d+], [(?:e[+-]?\d+)?i?]. *)
Definition EXPONENT_RE : regex :=
  RSeq (RChar "e") (RSeq (ROpt (RClass is_sign)) (RPlus is_digit)).

Definition NUMBER_TAIL_RE : regex := RSeq (ROpt EXPONENT_RE) (ROpt (RChar "i")).

(** [\.?[0-9]+(?:e[+-]?\d+)?i?]: the number regex after its leading
    [[0-9]*]. *)
Definition NUMBER_REST_RE : regex :=
  RSeq (ROpt (RChar ".")) (RSeq (RPlus is_digit) NUMBER_TAIL_RE).

(** The text of an exponent: ["e"], an optional sign, digits. *)
Definition exponent_text (e : string) : Prop :=
  exists sg d3, e = "e" +:+ sg +:+ d3
    /\ (sg = "" \/ sg = "+" \/ sg = "-")
    /\ starts_with is_digit d3 = true /\ string_forall is_digit d3 = true.

(** The text of what follows the digits of a number: an optional exponent
    and an optional ["i"]. *)
Definition tail_text (t : string) : Prop :=
  exists e i, t = e +:+ i /\ (e = "" \/ exponent_text e) /\ (i = "" \/ i = "i").

(** ** Printed trees *)







(** [lex s toks r]: from [s] the token loop reads [toks] and stops at [r]. *)
Inductive lex : string -> list string -> string -> Prop :=
| lex_stop s : token_exec s = None -> lex s [] s
| lex_step s tok rest toks r :
    token_exec s = Some (tok, rest) -> lex rest toks r -> lex s (tok :: toks) r.




(** ** Kinds of tokens *)

(** The operator and punctuation tokens. *)
Definition symbol_tokens : list string :=
  ["**"; "^"; "("; ")"; "+"; "-"; "*"; "/"; ","].

(** A token is a number, an identifier or a symbol. *)
Definition token_kind (tok : string) : Prop :=
  isNumberToken tok = true \/ isIdentifier tok = true \/ In tok symbol_tokens.

(** ** Invariants of the parser *)

(** An item of the output queue: a number token, an identifier, or an
    operator of the table. *)
Definition item_ok (it : item) : Prop :=
  match it with
  | INumber value => isNumberToken value = true
  | IVar name => isIdentifier name = true
  | IFunc name => isIdentifier name = true
  | IStr s => in_OPERATORS s = true
  end.

(** An item of the operator stack: ['('] or an item of the output. *)
Definition stack_item_ok (it : item) : Prop := is_lparen it = true \/ item_ok it.

(** The number of arguments of a call: [(fn === 'root') ? 2 : 1]. *)
Definition call_arity (fn : string) : nat := if String.eqb fn "root" then 2 else 1.

(** A tree as the parser builds them: leaves are number tokens and
    identifiers, an operator node has an operator of the table with as many
    arguments as the table says, a call node has an identifier as its name
    and as many arguments as [call_arity] says. *)
Fixpoint well_formed (node : ast) : bool :=
  match node with
  | Literal value => isNumberToken value
  | Var name => isIdentifier name
  | Call name args =>
      isIdentifier name && Nat.eqb (length args) (call_arity name)
      && forallb well_formed args
  | Op op args =>
      match lookup_op OPERATORS op with
      | Some info => Nat.eqb (length args) (op_args info)
      | None => false
      end && forallb well_formed args
  end.

(** The errors of the parser. *)
Definition parse_error (e : error) : Prop :=
  e = LexicalError \/ e = UnexpectedComma \/ e = UnbalancedParentheses
  \/ e = MalformedExpression \/ exists f, e = InsufficientArguments f.

(** ** Variables and errors of an evaluation *)

(** The variable [x] occurs in the tree. *)
Fixpoint occurs (x : string) (node : ast) : bool :=
  match node with
  | Literal _ => false
  | Var name => String.eqb x name
  | Call _ args => existsb (occurs x) args
  | Op _ args => existsb (occurs x) args
  end.

(** The tree has no node of [**] or [^]. *)
Fixpoint power_free (node : ast) : bool :=
  match node with
  | Literal _ => true
  | Var _ => true
  | Call _ args => forallb power_free args
  | Op op args =>
      negb (String.eqb op "**") && negb (String.eqb op "^") && forallb power_free args
  end.

(** The errors of the evaluation of a tree of the parser. *)
Definition evaluation_error (e : error) : Prop :=
  e = DivisionByZero \/ e = InvalidRootDegree \/ e = NonIntegerRootDegree
  \/ (exists t, e = InvalidLiteral t) \/ (exists x, e = UnboundVariable x)
  \/ (exists f, e = UnknownFunction f /\ ~ In f ["conj"; "sqrt"; "root"]).

(** A variable of the tree has no binding in the environment and a name
    that every object inherits. *)
Definition reads_inherited (env : environment) (node : ast) : Prop :=
  exists x, occurs x node = true /\ inherited x = true /\ env !! x = None.

(** ** Errors of the equality check *)

(** The errors an equality check of two trees of the parser lets through:
    those of an evaluation, without UnboundVariable. *)
Definition check_error (e : error) : Prop :=
  e = DivisionByZero \/ e = InvalidRootDegree \/ e = NonIntegerRootDegree
  \/ (exists t, e = InvalidLiteral t)
  \/ (exists f, e = UnknownFunction f /\ ~ In f ["conj"; "sqrt"; "root"]).

(** ** Rounds of the equality check *)

(** The rounds that [for (let t = 0; t < tries; t++)] goes through, each
    with its counter [t] and the number [k] of random draws before it: the
    first round; the round after one that agreed, with the counter one
    higher; and the round after one that caught an error past the first
    counter, with the same counter.  Every round draws its environment
    anew. *)
Inductive round_reached (M : MathLib) (rand : nat -> float) (fuel : nat)
    (ast1 ast2 : ast) (vars : list string) (tries : Z) (tol : float)
  : Z -> nat -> Prop :=
| reached_first : round_reached M rand fuel ast1 ast2 vars tries tol 0 0
| reached_agree t k :
    round_reached M rand fuel ast1 ast2 vars tries tol t k ->
    (t < tries)%Z ->
    run_round M fuel ast1 ast2 tol (fst (random_env rand vars k ∅)) = Some Agree ->
    round_reached M rand fuel ast1 ast2 vars tries tol (t + 1)
      (snd (random_env rand vars k ∅))
| reached_caught t k e :
    round_reached M rand fuel ast1 ast2 vars tries tol t k ->
    (t < tries)%Z ->
    run_round M fuel ast1 ast2 tol (fst (random_env rand vars k ∅)) = Some (Caught e) ->
    (0 <= t - 1)%Z ->
    round_reached M rand fuel ast1 ast2 vars tries tol t
      (snd (random_env rand vars k ∅)).

(** What the loop keeps true of its counter [t]: it lies between 0 and
    [tries], and past the first counter the round with the counter before
    agreed. *)
Definition loop_invariant (M : MathLib) (rand : nat -> float) (fuel : nat)
    (ast1 ast2 : ast) (vars : list string) (tries : Z) (tol : float) (t : Z) : Prop :=
  (0 <= t <= tries)%Z
  /\ (t = 0%Z
      \/ exists k0, round_reached M rand fuel ast1 ast2 vars tries tol (t - 1) k0
           /\ run_round M fuel ast1 ast2 tol (fst (random_env rand vars k0 ∅))
              = Some Agree).

(** A sequence of results of [Math.random()] that is constant. *)
Definition always_half (k : nat) : float := 0x1p-1%float.

(** ** Operands and operators *)

(** The binary operators. *)
Definition binary_ops : list string := ["+"; "-"; "*"; "/"; "**"; "^"].

(** A token that is an operand: a number token or an identifier. *)
Definition is_leaf (t : string) : bool := isNumberToken t || isIdentifier t.

(** What the first loop of the parser makes of an operand, what it
    records as the previous token, and the node the second loop builds. *)
Definition leaf_item (t : string) : item := if isNumberToken t then INumber t else IVar t.
Definition leaf_prev (t : string) : string := if isNumberToken t then "number" else "id".
Definition leaf_node (t : string) : ast := if isNumberToken t then Literal t else Var t.

(** The usual rule for [x op1 y op2 z]: [op1] is applied first when its
    precedence is higher than that of [op2], or the same and the operators
    associate to the left. *)
Definition applied_first (op1 op2 : string) : bool :=
  match lookup_op OPERATORS op1, lookup_op OPERATORS op2 with
  | Some o1, Some o2 =>
      Nat.ltb (prec o2) (prec o1)
      || (Nat.eqb (prec o1) (prec o2)
          && match op_assoc o1 with L => true | R => false end)
  | _, _ => false
  end.

(** The state in which the first loop of the parser starts. *)
Definition initial_state : pstate := {| output := []; ops := []; prev := None |}.

(** ** Complex numbers typed by the user *)

(** No character of [s] is a sign. *)
Definition sign_free (s : string) : bool := string_forall (fun c => negb (is_sign c)) s.

(** ** Token lists that lex back *)

(** What can follow an operand without running into it: nothing, or a
    character that is neither a word character nor a dot. *)
Definition open_end (k : string) : bool :=
  negb (starts_with is_word k) && negb (starts_with is_dot k).

(** The token [t2] can follow the token [t1] with no space between. *)
Definition separate (t1 t2 : string) : bool :=
  if is_leaf t1 then open_end t2
  else if String.eqb t1 "*" then negb (starts_with (Ascii.eqb "*") t2)
  else true.

Fixpoint separable (tokens : list string) : bool :=
  match tokens with
  | [] => true
  | t1 :: rest =>
      match rest with
      | [] => true
      | t2 :: _ => separate t1 t2
      end && separable rest
  end.

(** ** The token before a minus sign *)

(** A token after which an operand is due: an opening parenthesis, a
    comma or an operator. *)
Definition opens_operand (t : string) : bool :=
  String.eqb t "(" || String.eqb t "," || existsb (String.eqb t) binary_ops.

(** The tokens before a ['-'] make it the unary operator: there is none,
    or the last of them is an opening parenthesis, a comma or an
    operator. *)
Definition minus_is_unary_after (before : list string) : bool :=
  match last before with
  | None => true
  | Some p => opens_operand p
  end.

(** ** Results of a rounding *)



(** * Properties *)

(** ** The model on examples *)

Example tokenize_ex1 : tokenize "2 + 3*4" = Ok ["2"; "+"; "3"; "*"; "4"].
Proof. reflexivity. Qed.
Example tokenize_ex2 : tokenize "2**3^x1_y" = Ok ["2"; "**"; "3"; "^"; "x1_y"].
Proof. reflexivity. Qed.
Example tokenize_ex3 : tokenize "1.5e-3i+.5" = Ok ["1.5e-3i"; "+"; ".5"].
Proof. reflexivity. Qed.
Example tokenize_ex4 : tokenize "1." = Throw LexicalError.
Proof. reflexivity. Qed.
Example tokenize_ex5 : tokenize "12e" = Ok ["12"; "e"].
Proof. reflexivity. Qed.

Example Number_ex1 : Number "14" = 14%float. Proof. vm_compute. reflexivity. Qed.
Example Number_ex2 : Number " 0x1F " = 31%float. Proof. vm_compute. reflexivity. Qed.
Example Number_ex3 : Number "1e-14" = 0x1.6849b86a12b9bp-47%float.
Proof. vm_compute. reflexivity. Qed.
Example Number_ex4 : Number ".5e1" = 5%float. Proof. vm_compute. reflexivity. Qed.
Example Number_ex5 : Number "1e400" = infinity. Proof. vm_compute. reflexivity. Qed.
Example Number_ex6 : Number "1e" = nan. Proof. vm_compute. reflexivity. Qed.
Example Number_ex7 : Number "" = 0%float. Proof. vm_compute. reflexivity. Qed.
Example Number_ex8 : Number "5e-324" = 0x1p-1074%float. Proof. vm_compute. reflexivity. Qed.
Example Number_ex9 : Number "2.4e-324" = 0%float. Proof. vm_compute. reflexivity. Qed.
Example Math_round_ex :
  (Math_round 2.5 = 3 /\ Math_round (-2.5) = -2 /\ Math_round 0.25 = 0
   /\ Math_round (-0.25) = -0 /\ Math_round 7 = 7)%float.
Proof. vm_compute. repeat split. Qed.

Example incr_exact : (9007199254740991 + 1 = 9007199254740992)%float.
Proof. reflexivity. Qed.
Example incr_stuck : (9007199254740992 + 1 = 9007199254740992)%float.
Proof. reflexivity. Qed.

Example parse_ex1 :
  parseToAST "2+3*4" = Ok (Op "+" [Literal "2"; Op "*" [Literal "3"; Literal "4"]]).
Proof. reflexivity. Qed.
Example parse_ex2 :
  parseToAST "root(a, 2) - -b" =
  Ok (Op "-" [Call "root" [Var "a"; Literal "2"]; Op "u-" [Var "b"]]).
Proof. reflexivity. Qed.
Example parse_ex3 : parseToAST "(a+b" = Throw UnbalancedParentheses.
Proof. reflexivity. Qed.
Example parse_ex4 : parseToAST "a,b" = Throw UnexpectedComma.
Proof. reflexivity. Qed.
Example parse_ex5 : parseToAST "a b" = Throw MalformedExpression.
Proof. reflexivity. Qed.

Example render_ex : astToLisp (Op "u-" [Var "a"]) = "(u- a)".
Proof. reflexivity. Qed.

(** ** Induction on trees *)

Lemma ast_nested_ind (P : ast -> Prop) :
  (forall value, P (Literal value)) ->
  (forall name, P (Var name)) ->
  (forall name args, Forall P args -> P (Call name args)) ->
  (forall op args, Forall P args -> P (Op op args)) ->
  forall node, P node.
Proof.
  intros HLiteral HVar HCall HOp. fix rec 1.
  intros [value|name|name args|op args].
  - apply HLiteral.
  - apply HVar.
  - apply HCall. revert args. fix all 1.
    intros [|x l]; constructor; [apply rec|apply all].
  - apply HOp. revert args. fix all 1.
    intros [|x l]; constructor; [apply rec|apply all].
Qed.

(** ** More fuel does not change a result *)

Lemma pow_loop_mono base n fuel : forall fuel' i res r,
  fuel <= fuel' ->
  pow_loop fuel i n res base = Some r ->
  pow_loop fuel' i n res base = Some r.
Proof.
  induction fuel as [|fuel IH]; intros fuel' i res r Hle H.
  - destruct fuel'; simpl in *; destruct (i <? n)%Z; congruence.
  - destruct fuel' as [|fuel']; [lia|].
    simpl in *. destruct (i <? n)%Z; [|assumption].
    apply IH; [lia|assumption].
Qed.

Section EvaluatorFacts.

Variable M : MathLib.

Lemma pow_mono fuel fuel' a b r :
  fuel <= fuel' -> pow M fuel a b = Some r -> pow M fuel' a b = Some r.
Proof.
  intros Hle. unfold pow, pow_int.
  destruct (pow_guard b); [|auto].
  destruct (PrimFloat.eqb (re b) fzero); [auto|].
  destruct (pow_loop fuel _ _ _ _) as [res|] eqn:E; [|discriminate].
  rewrite (pow_loop_mono _ _ _ _ _ _ _ Hle E). auto.
Qed.

Lemma sequence_mono {A} (f g : ast -> option (result A)) (args : list ast) :
  Forall (fun a => forall r, f a = Some r -> g a = Some r) args ->
  forall r, sequence (map f args) = Some r -> sequence (map g args) = Some r.
Proof.
  induction 1 as [|a args Ha _ IH]; intros r; simpl; [auto|].
  destruct (f a) as [[v|e]|] eqn:E; simpl; [| |discriminate].
  - rewrite (Ha _ eq_refl). simpl.
    destruct (sequence (map f args)) as [[vs|e]|] eqn:E'; simpl; [| |discriminate].
    + rewrite (IH _ eq_refl). auto.
    + rewrite (IH _ eq_refl). auto.
  - rewrite (Ha _ eq_refl). auto.
Qed.

Lemma evaluateAST_mono fuel fuel' env : fuel <= fuel' ->
  forall node r,
  evaluateAST M fuel node env = Some r -> evaluateAST M fuel' node env = Some r.
Proof.
  intros Hle node.
  induction node as [value|name|name args IH|op args IH] using ast_nested_ind;
    intros r; simpl; auto.
  - destruct (sequence (map _ args)) as [[vals|e]|] eqn:E; simpl; [| |discriminate].
    + rewrite (sequence_mono _ (fun a => evaluateAST M fuel' a env) _ IH _ E). simpl.
      destruct (String.eqb name "conj"); [auto|].
      destruct (String.eqb name "sqrt"); [auto|].
      destruct (String.eqb name "root"); [|auto].
      destruct args as [|a0 [|a1 args]]; auto.
      destruct vals as [|v0 vals]; auto.
      inversion IH as [|? ? _ IH1]; subst. inversion IH1 as [|? ? Ha1 _]; subst.
      destruct (evaluateAST M fuel a1 env) as [[nVal|e]|] eqn:E1; simpl; [| |discriminate].
      * rewrite (Ha1 _ eq_refl). auto.
      * rewrite (Ha1 _ eq_refl). auto.
    + rewrite (sequence_mono _ (fun a => evaluateAST M fuel' a env) _ IH _ E). auto.
  - destruct (String.eqb op "u-").
    + destruct args as [|a0 args]; auto.
      inversion IH as [|? ? Ha0 _]; subst.
      destruct (evaluateAST M fuel a0 env) as [[v|e]|] eqn:E0; simpl; [| |discriminate];
        rewrite (Ha0 _ eq_refl); auto.
    + destruct args as [|a0 rest]; auto.
      inversion IH as [|? ? Ha0 IH1]; subst.
      destruct (evaluateAST M fuel a0 env) as [[a|e]|] eqn:E0; simpl; [| |discriminate];
        rewrite (Ha0 _ eq_refl); simpl; auto.
      destruct rest as [|a1 rest]; auto.
      inversion IH1 as [|? ? Ha1 _]; subst.
      destruct (evaluateAST M fuel a1 env) as [[b|e]|] eqn:E1; simpl; [| |discriminate];
        rewrite (Ha1 _ eq_refl); simpl; auto.
      repeat (match goal with |- context [if ?c then _ else _] => destruct c end; auto);
        (destruct (receiver a) as [c|e]; [|auto]);
        (destruct (pow M fuel c (operand b)) as [p|] eqn:P; [|discriminate]);
        rewrite (pow_mono _ _ _ _ _ Hle P); auto.
Qed.

Lemma evaluates_deterministic input env r1 r2 :
  evaluates M input env r1 -> evaluates M input env r2 -> r1 = r2.
Proof.
  intros (n1 & f1 & P1 & E1) (n2 & f2 & P2 & E2).
  rewrite P1 in P2. injection P2 as <-.
  apply (evaluateAST_mono f1 (Nat.max f1 f2) env) in E1; [|lia].
  apply (evaluateAST_mono f2 (Nat.max f1 f2) env) in E2; [|lia].
  rewrite E1 in E2. injection E2 as E.
  destruct r1, r2; simpl in E; congruence.
Qed.

End EvaluatorFacts.

(** ** Concrete expressions *)

Ltac evaluates_by_computation :=
  eexists; exists 16; split; [vm_compute; reflexivity | vm_compute; reflexivity].

(** C6. Operator precedence and associativity: with an empty environment
    "2+3*4" evaluates to 14, "(2+3)*4" to 20, and "2**3**2" to 512 (the
    power operator associates to the right), not to 64. *)
Theorem precedence_and_associativity (M : MathLib) :
  evaluates M "2+3*4" ∅ (Ok (mkComplex 14 0))
  /\ evaluates M "(2+3)*4" ∅ (Ok (mkComplex 20 0))
  /\ evaluates M "2**3**2" ∅ (Ok (mkComplex 512 0))
  /\ ~ evaluates M "2**3**2" ∅ (Ok (mkComplex 64 0)).
Proof.
  assert (H : evaluates M "2**3**2" ∅ (Ok (mkComplex 512 0)))
    by evaluates_by_computation.
  repeat split; try evaluates_by_computation; try exact H.
  intros H'. pose proof (evaluates_deterministic M _ _ _ _ H H') as E.
  discriminate E.
Qed.

(** The operator stack and [prev] after a ['-'] token. *)
Lemma parse_step_minus st next :
  exists out ops',
    parse_step st "-" next =
    Ok {| output := out;
          ops := IStr (resolve_op (prev st) "-") :: ops';
          prev := Some (resolve_op (prev st) "-") |}.
Proof.
  unfold parse_step.
  change (isNumberToken "-") with false. change (isIdentifier "-") with false.
  cbn [String.eqb Ascii.eqb Bool.eqb andb orb].
  change (in_OPERATORS "-") with true. cbn [orb].
  assert (Hop : exists o1,
    match lookup_op OPERATORS (resolve_op (prev st) "-") with
    | Some o => Some o
    | None => lookup_op OPERATORS "-"
    end = Some o1).
  { unfold resolve_op. destruct (String.eqb "-" "-" && unary_context (prev st));
      vm_compute; eauto. }
  destruct Hop as [o1 ->].
  destruct (pop_operators o1 (ops st) (output st)) as [out ops'].
  eauto.
Qed.

(** C9. The printer is a total function of the tree: a call or operator
    node is printed as "(name arg1 arg2 ...)", the name and the arguments
    separated by single spaces; the tree of "(a+b)*conj(c)" is printed as
    "(* (+ a b) (conj c))". *)
Theorem printer_format :
  (forall node, exists s, astToLisp node = s)
  /\ (forall value, astToLisp (Literal value) = value)
  /\ (forall name, astToLisp (Var name) = name)
  /\ (forall name args,
        astToLisp (Call name args)
        = "(" +:+ name +:+ " " +:+ join " " (map astToLisp args) +:+ ")")
  /\ (forall op args,
        astToLisp (Op op args)
        = "(" +:+ op +:+ " " +:+ join " " (map astToLisp args) +:+ ")")
  /\ (forall x y l, join " " (x :: y :: l) = x +:+ " " +:+ join " " (y :: l))
  /\ (forall x, join " " [x] = x)
  /\ (exists node, parseToAST "(a+b)*conj(c)" = Ok node
                   /\ astToLisp node = "(* (+ a b) (conj c))").
Proof.
  repeat split; try reflexivity.
  - intros node. eexists. reflexivity.
  - intros op args. destruct args as [|a [|b args]]; reflexivity.
  - eexists. split; vm_compute; reflexivity.
Qed.

(** ** The components of a complex number *)

Lemma or_zero_not_nan x : PrimFloat.is_nan (or_zero x) = false.
Proof.
  unfold or_zero.
  destruct (PrimFloat.is_nan x) eqn:E; destruct (PrimFloat.eqb x fzero); simpl;
    try assumption; reflexivity.
Qed.

Lemma new_Complex_nan_free r i : nan_free (new_Complex r i).
Proof. split; apply or_zero_not_nan. Qed.

Lemma div_nan_free a b c : div a b = Ok c -> nan_free c.
Proof.
  unfold div. destruct (PrimFloat.eqb _ _); [discriminate|].
  intros [= <-]. apply new_Complex_nan_free.
Qed.

Lemma pow_loop_nan_free base n fuel : forall i res r,
  nan_free res -> pow_loop fuel i n res base = Some r -> nan_free r.
Proof.
  induction fuel as [|fuel IH]; intros i res r Hres; simpl;
    destruct (i <? n)%Z; try discriminate; try (intros [= <-]; assumption).
  apply IH. apply new_Complex_nan_free.
Qed.

Lemma parseComplexLiteral_nan_free token c :
  parseComplexLiteral token = Ok c -> nan_free c.
Proof.
  unfold parseComplexLiteral.
  repeat match goal with
         | |- context [if ?b then _ else _] => destruct b
         end; try discriminate; intros [= <-]; apply new_Complex_nan_free.
Qed.

Section Invariant.

Variable M : MathLib.

Lemma pow_nan_free fuel a b c : pow M fuel a b = Some (Ok c) -> nan_free c.
Proof.
  unfold pow, pow_int, pow_polar.
  destruct (pow_guard b); [|intros [= <-]; apply new_Complex_nan_free].
  destruct (PrimFloat.eqb (re b) fzero); [intros [= <-]; apply new_Complex_nan_free|].
  destruct (pow_loop _ _ _ _ _) as [res|] eqn:E; [|discriminate].
  apply pow_loop_nan_free in E; [|apply new_Complex_nan_free].
  destruct (negb _).
  - intros [= H]. eapply div_nan_free, H.
  - intros [= <-]. assumption.
Qed.

Lemma root_nan_free a n c : root M a n = Ok c -> nan_free c.
Proof.
  unfold root. destruct (_ || _)%bool; [discriminate|].
  intros [= <-]. apply new_Complex_nan_free.
Qed.

Lemma evaluateAST_nan_free fuel node (env : environment) c :
  map_Forall (fun _ v => nan_free v) env ->
  evaluateAST M fuel node env = Some (Ok (VComplex c)) -> nan_free c.
Proof.
  intros Henv. destruct node as [value|name|name args|op args]; simpl.
  - destruct (parseComplexLiteral value) as [c'|e] eqn:E; simpl; [|discriminate].
    intros [= <-]. eapply parseComplexLiteral_nan_free, E.
  - destruct (env !! name) as [v|] eqn:E.
    + intros [= <-]. exact (Henv _ _ E).
    + destruct (inherited name); discriminate.
  - destruct (sequence _) as [[vals|e]|]; simpl; try discriminate.
    destruct (String.eqb name "conj").
    { destruct vals as [|v0 vals]; [discriminate|].
      destruct (receiver v0); simpl; [|discriminate].
      intros [= <-]. apply new_Complex_nan_free. }
    destruct (String.eqb name "sqrt").
    { destruct vals as [|v0 vals]; [discriminate|].
      destruct (receiver v0); simpl; [|discriminate].
      intros [= <-]. apply new_Complex_nan_free. }
    destruct (String.eqb name "root"); [|discriminate].
    destruct args as [|a0 [|a1 args]]; try discriminate.
    destruct vals as [|v0 vals]; try discriminate.
    destruct (evaluateAST M fuel a1 env) as [[nVal|e]|]; simpl; try discriminate.
    destruct (PrimFloat.ltb _ _); [discriminate|].
    destruct (receiver v0) as [c0|e]; simpl; [|discriminate].
    destruct (root M c0 _) as [c'|e] eqn:R; simpl; [|discriminate].
    intros [= <-]. eapply root_nan_free, R.
  - destruct (String.eqb op "u-").
    { destruct args as [|a0 args]; [discriminate|].
      destruct (evaluateAST M fuel a0 env) as [[v|e]|]; simpl; try discriminate.
      destruct (receiver v); simpl; [|discriminate].
      intros [= <-]. apply new_Complex_nan_free. }
    destruct args as [|a0 [|a1 args]]; try discriminate.
    { destruct (evaluateAST M fuel a0 env) as [[v|e]|]; simpl; discriminate. }
    destruct (evaluateAST M fuel a0 env) as [[a|e]|]; simpl; try discriminate.
    destruct (evaluateAST M fuel a1 env) as [[b|e]|]; simpl; try discriminate.
    destruct (receiver a) as [ca|e]; simpl.
    2:{ repeat match goal with
               | |- context [if String.eqb op ?k then _ else _] =>
                   destruct (String.eqb op k); [discriminate|]
               end. discriminate. }
    repeat match goal with
           | |- context [if String.eqb op ?k then _ else _] =>
               destruct (String.eqb op k);
               [try (intros [= <-]; apply new_Complex_nan_free)|]
           end; try discriminate.
    + destruct (div ca (operand b)) as [c'|e] eqn:D; simpl; [|discriminate].
      intros [= <-]. eapply div_nan_free, D.
    + destruct (pow M fuel ca (operand b)) as [[c'|e]|] eqn:P; simpl; try discriminate.
      intros [= <-]. eapply pow_nan_free, P.
    + destruct (pow M fuel ca (operand b)) as [[c'|e]|] eqn:P; simpl; try discriminate.
      intros [= <-]. eapply pow_nan_free, P.
Qed.

End Invariant.

(** C4, as stated, fails: the product of two finite complex numbers can
    have an infinite component. *)
Lemma mul_overflows_to_infinity :
  finite_components (new_Complex 0x1p1000 0)
  /\ re (mul (new_Complex 0x1p1000 0) (new_Complex 0x1p1000 0)) = infinity
  /\ ~ finite_components (mul (new_Complex 0x1p1000 0) (new_Complex 0x1p1000 0)).
Proof.
  split; [|split].
  - vm_compute. auto.
  - vm_compute. reflexivity.
  - intros (_ & H & _). vm_compute in H. discriminate H.
Qed.

(** The same through the evaluator: "1e200*1e200" evaluates to a number
    whose real part is [Infinity]. *)
Example evaluation_overflows (M : MathLib) :
  evaluates M "1e200*1e200" ∅ (Ok (mkComplex infinity 0)).
Proof. evaluates_by_computation. Qed.

(** C4 (amended). No component of a complex number produced by an
    operation is [NaN]: the constructor replaces [NaN] by 0.  This holds for
    the arithmetic operations, power, square root, root, and for the
    evaluation of a tree in an environment whose values have no [NaN]
    component.  (A component can be infinite.) *)
Theorem results_are_never_nan (M : MathLib) :
  (forall r i, nan_free (new_Complex r i))
  /\ (forall a b, nan_free (add a b) /\ nan_free (sub a b) /\ nan_free (mul a b))
  /\ (forall a, nan_free (conj a) /\ nan_free (neg a) /\ nan_free (csqrt M a))
  /\ (forall a b c, div a b = Ok c -> nan_free c)
  /\ (forall fuel a b c, pow M fuel a b = Some (Ok c) -> nan_free c)
  /\ (forall a n c, root M a n = Ok c -> nan_free c)
  /\ (forall fuel node (env : environment) c,
        map_Forall (fun _ v => nan_free v) env ->
        evaluateAST M fuel node env = Some (Ok (VComplex c)) -> nan_free c).
Proof.
  split; [apply new_Complex_nan_free|].
  split; [intros a b; repeat split; apply or_zero_not_nan|].
  split; [intros a; repeat split; apply or_zero_not_nan|].
  split; [apply div_nan_free|].
  split; [apply pow_nan_free|].
  split; [apply root_nan_free|].
  apply evaluateAST_nan_free.
Qed.

(** ** The integer branch of [pow] *)

(** The integer a double holds and the tests [pow] makes on the double. *)
Lemma float_integer_tests x z :
  float_integer x = Some z ->
  PrimFloat.eqb x fzero = (z =? 0)%Z
  /\ PrimFloat.ltb fzero x = (0 <? z)%Z
  /\ float_integer (abs x) = Some (Z.abs z).
Proof.
  unfold float_integer, fzero.
  rewrite FloatAxioms.eqb_spec, FloatAxioms.ltb_spec, FloatAxioms.abs_spec.
  change (Prim2SF 0) with (S754_zero false).
  destruct (Prim2SF x) as [s|s| |s m e]; try discriminate.
  - intros [= <-]. repeat split.
  - simpl SFabs. cbv beta iota.
    assert (Hpos : forall v, (if (0 <=? e)%Z then Some (Z.pos m * 2 ^ e)%Z
                   else if (Z.pos m mod 2 ^ (- e) =? 0)%Z
                        then Some (Z.pos m / 2 ^ (- e))%Z else None) = Some v ->
                   (0 < v)%Z).
    { intros v. destruct (0 <=? e)%Z eqn:He.
      - intros [= <-]. apply Z.leb_le in He.
        apply Z.mul_pos_pos; [lia|]. apply Z.pow_pos_nonneg; lia.
      - apply Z.leb_gt in He.
        destruct (_ =? 0)%Z eqn:Hm; [|discriminate]. intros [= <-].
        apply Z.eqb_eq in Hm.
        assert (0 < 2 ^ (- e))%Z by (apply Z.pow_pos_nonneg; lia).
        pose proof (Z.div_mod (Z.pos m) (2 ^ (- e))) as D.
        rewrite Hm in D.
        assert (0 <= Z.pos m / 2 ^ (- e))%Z by (apply Z.div_pos; lia).
        nia. }
    destruct (0 <=? e)%Z.
    + intros [= <-]. specialize (Hpos _ eq_refl).
      destruct s; unfold SFeqb, SFltb; simpl; repeat split;
        try (symmetry; apply Z.eqb_neq; lia);
        try (symmetry; apply Z.ltb_ge; lia);
        try (symmetry; apply Z.ltb_lt; lia);
        f_equal; lia.
    + destruct (_ =? 0)%Z; [|discriminate].
      intros [= <-]. specialize (Hpos _ eq_refl).
      destruct s; unfold SFeqb, SFltb; simpl; repeat split;
        try (symmetry; apply Z.eqb_neq; lia);
        try (symmetry; apply Z.ltb_ge; lia);
        try (symmetry; apply Z.ltb_lt; lia);
        f_equal; lia.
Qed.

Lemma float_Z_tests x :
  Number_isInteger x = true ->
  PrimFloat.eqb x fzero = (float_Z x =? 0)%Z
  /\ PrimFloat.ltb fzero x = (0 <? float_Z x)%Z
  /\ float_Z (abs x) = Z.abs (float_Z x).
Proof.
  unfold Number_isInteger, float_Z.
  destruct (float_integer x) as [z|] eqn:E; [|discriminate]. intros _.
  destruct (float_integer_tests x z E) as (H1 & H2 & H3).
  rewrite H3. auto.
Qed.

Lemma pow_loop_counts base n k : forall i res,
  (0 <= i)%Z -> (n = i + Z.of_nat k)%Z -> (n <= two53)%Z ->
  pow_loop k i n res base = Some (mul_times k base res).
Proof.
  induction k as [|k IH]; intros i res Hi Hn Hb.
  - simpl. replace (i <? n)%Z with false by (symmetry; apply Z.ltb_ge; lia).
    reflexivity.
  - cbn [pow_loop].
    replace (i <? n)%Z with true by (symmetry; apply Z.ltb_lt; lia).
    unfold incr. replace (i <? two53)%Z with true by (symmetry; apply Z.ltb_lt; lia).
    rewrite IH by lia.
    unfold mul_times. rewrite Nat.iter_succ_r. reflexivity.
Qed.

Lemma pow_loop_stuck base n fuel : forall i res,
  (i <= two53)%Z -> (two53 < n)%Z -> pow_loop fuel i n res base = None.
Proof.
  induction fuel as [|fuel IH]; intros i res Hi Hn; simpl;
    replace (i <? n)%Z with true by (symmetry; apply Z.ltb_lt; lia).
  - reflexivity.
  - apply IH; [|assumption]. unfold incr.
    destruct (i <? two53)%Z eqn:E; [apply Z.ltb_lt in E|]; lia.
Qed.

Lemma repeated_mul_zero k base :
  base = new_Complex fzero fzero -> 0 < k ->
  repeated_mul k base = new_Complex fzero fzero.
Proof.
  intros -> Hk. destruct k as [|k]; [lia|]. clear Hk.
  unfold repeated_mul, mul_times.
  induction k as [|k IH].
  - vm_compute. reflexivity.
  - rewrite Nat.iter_succ. rewrite IH. vm_compute. reflexivity.
Qed.

Section IntegerPower.

Variable M : MathLib.

Lemma pow_integer_branch a b :
  pow_guard b = true ->
  (Z.abs (float_Z (re b)) <= two53)%Z ->
  pow M (Z.to_nat (Z.abs (float_Z (re b)))) a b
  = Some (integer_power (new_Complex (re a) (im a)) (float_Z (re b))).
Proof.
  intros Hg Hb. unfold pow. rewrite Hg. unfold pow_int.
  apply andb_true_iff in Hg as [_ Hint].
  destruct (float_Z_tests _ Hint) as (H0 & Hpos & Habs).
  rewrite H0, Hpos, Habs.
  rewrite (pow_loop_counts _ (Z.abs (float_Z (re b))) _ 0) by lia.
  destruct (float_Z (re b)) as [|p|p] eqn:E; simpl Z.eqb; cbv iota.
  - reflexivity.
  - simpl. reflexivity.
  - simpl. reflexivity.
Qed.

End IntegerPower.

(** C5, as stated, fails for an exponent above [2^53]: on [a ** 1e16]
    the guard of the integer branch holds and the multiplication loop never
    ends, its counter being stuck at [2^53]. *)
Lemma pow_huge_exponent_never_returns :
  pow_guard (mkComplex 1e16 0) = true
  /\ float_integer 1e16 = Some (10 ^ 16)%Z
  /\ (forall M fuel a, pow M fuel a (mkComplex 1e16 0) = None).
Proof.
  split; [vm_compute; reflexivity|].
  split; [vm_compute; reflexivity|].
  intros M fuel a. unfold pow.
  change (pow_guard (mkComplex 1e16 0)) with true. cbv iota.
  unfold pow_int.
  change (PrimFloat.eqb (re (mkComplex 1e16 0)) fzero) with false. cbv iota.
  change (float_Z (abs (re (mkComplex 1e16 0)))) with (10 ^ 16)%Z.
  rewrite pow_loop_stuck; [reflexivity| |]; vm_compute; congruence.
Qed.

(** C5 (amended). For every base and every exponent [b] with
    [|b.im| < 1e-14] whose real part holds an integer [n] with
    [|n| <= 2^53], [pow] returns the [|n|]-fold product of the base (1 for
    [n = 0]) when [n >= 0], and for [n < 0] what [div] makes of 1 and that
    product; so it raises DivisionByZero when the base is zero and [n] is
    negative. *)
Theorem pow_integer_exponent (M : MathLib) (a b : Complex) :
  pow_guard b = true ->
  (Z.abs (float_Z (re b)) <= 2 ^ 53)%Z ->
  (exists fuel,
      pow M fuel a b
      = Some (integer_power (new_Complex (re a) (im a)) (float_Z (re b))))
  /\ ((float_Z (re b) < 0)%Z ->
      PrimFloat.eqb (re a) 0 = true -> PrimFloat.eqb (im a) 0 = true ->
      integer_power (new_Complex (re a) (im a)) (float_Z (re b))
      = Throw DivisionByZero).
Proof.
  intros Hg Hb. split.
  - eexists. apply pow_integer_branch; assumption.
  - intros Hn Hre Him.
    destruct (float_Z (re b)) as [|p|p]; try lia.
    unfold integer_power.
    rewrite repeated_mul_zero; [vm_compute; reflexivity| |lia].
    unfold new_Complex, or_zero, fzero. rewrite Hre, Him. reflexivity.
Qed.

Lemma pow_integer_exponent_witness :
  pow_guard (mkComplex (-2) 0) = true
  /\ (Z.abs (float_Z (re (mkComplex (-2) 0))) <= 2 ^ 53)%Z
  /\ (exists fuel,
        pow reference_math fuel (mkComplex 2 0) (mkComplex (-2) 0)
        = Some (integer_power (new_Complex 2 0) (float_Z (-2)))).
Proof.
  assert (Hg : pow_guard (mkComplex (-2) 0) = true) by (vm_compute; reflexivity).
  assert (Hb : (Z.abs (float_Z (re (mkComplex (-2) 0))) <= 2 ^ 53)%Z)
    by (vm_compute; congruence).
  split; [exact Hg|]. split; [exact Hb|].
  exact (proj1 (pow_integer_exponent reference_math (mkComplex 2 0)
                  (mkComplex (-2) 0) Hg Hb)).
Defined.

Example pow_minus_two (M : MathLib) :
  pow M 2 (mkComplex 2 0) (mkComplex (-2) 0) = Some (Ok (mkComplex 0.25 0)).
Proof. vm_compute. reflexivity. Qed.

(** ** Errors in the equality check *)

Section CheckerFacts.

Variable M : MathLib.
Variable rand : nat -> float.

(** A round that runs while [t < tries]. *)
Lemma trials_round fuel rounds ast1 ast2 vars tries tol t k :
  (t < tries)%Z ->
  trials M rand fuel (S rounds) ast1 ast2 vars tries tol t k
  = match run_round M fuel ast1 ast2 tol (fst (random_env rand vars k ∅)) with
    | None => None
    | Some Mismatch => Some (Ok false)
    | Some Agree =>
        trials M rand fuel rounds ast1 ast2 vars tries tol (t + 1)
               (snd (random_env rand vars k ∅))
    | Some (Caught e) =>
        if (t <=? 0)%Z then Some (Throw e)
        else trials M rand fuel rounds ast1 ast2 vars tries tol t
                    (snd (random_env rand vars k ∅))
    end.
Proof.
  intros Ht. cbn [trials].
  replace (t <? tries)%Z with true by (symmetry; apply Z.ltb_lt; lia).
  destruct (random_env rand vars k ∅) as [env k']. cbn [fst snd].
  destruct (run_round M fuel ast1 ast2 tol env) as [[| |e]|]; try reflexivity.
  destruct (t <=? 0)%Z eqn:E.
  - apply Z.leb_le in E.
    replace (t - 1 <? 0)%Z with true by (symmetry; apply Z.ltb_lt; lia).
    reflexivity.
  - apply Z.leb_gt in E.
    replace (t - 1 <? 0)%Z with false by (symmetry; apply Z.ltb_ge; lia).
    replace (t - 1 + 1)%Z with t by lia. reflexivity.
Qed.

Lemma trials_done fuel rounds ast1 ast2 vars tries tol t k :
  (tries <= t)%Z ->
  trials M rand fuel rounds ast1 ast2 vars tries tol t k = Some (Ok true).
Proof.
  intros Ht. destruct rounds; simpl;
    replace (t <? tries)%Z with false by (symmetry; apply Z.ltb_ge; lia);
    reflexivity.
Qed.

Lemma random_env_draws vars : forall k env,
  snd (random_env rand vars k env) = k + 2 * length vars.
Proof.
  induction vars as [|v vars IH]; intros k env; simpl; [lia|].
  rewrite IH. lia.
Qed.

End CheckerFacts.

(** C3, as stated, fails: with the positive budget 6 the error of the
    first round of "1/0" against "1" reaches the caller, whatever the
    random values. *)
Lemma first_round_error_reaches_caller :
  (0 < 6)%Z
  /\ (forall M rand fuel,
        expressionsEqual M rand (S fuel)
          (Op "/" [Literal "1"; Literal "0"]) (Literal "1") 6 lit_1e_7
        = Some (Throw DivisionByZero)).
Proof.
  split; [lia|]. intros M rand fuel.
  unfold expressionsEqual. rewrite trials_round by lia.
  reflexivity.
Qed.

(** C3 (amended). For every pair of trees: with a non-positive budget no
    round runs and the check returns [true]; an error raised by an
    evaluation in a round reaches the caller when no round has agreed yet
    (the counter is 0), and otherwise is dropped and the round runs again,
    with the same counter and the next random values, so without bound on
    the retries; in particular, with a positive budget, an error in the
    first round reaches the caller. *)
Theorem checker_error_recovery (M : MathLib) (rand : nat -> float)
    (ast1 ast2 : ast) (tol : float) :
  (forall fuel tries, (tries <= 0)%Z ->
      expressionsEqual M rand fuel ast1 ast2 tries tol = Some (Ok true))
  /\ (forall fuel rounds vars tries t k e,
        (t < tries)%Z ->
        run_round M fuel ast1 ast2 tol (fst (random_env rand vars k ∅))
        = Some (Caught e) ->
        (t <= 0)%Z ->
        trials M rand fuel (S rounds) ast1 ast2 vars tries tol t k
        = Some (Throw e))
  /\ (forall fuel rounds vars tries t k e,
        (t < tries)%Z ->
        run_round M fuel ast1 ast2 tol (fst (random_env rand vars k ∅))
        = Some (Caught e) ->
        (0 < t)%Z ->
        trials M rand fuel (S rounds) ast1 ast2 vars tries tol t k
        = trials M rand fuel rounds ast1 ast2 vars tries tol t
                 (k + 2 * length vars))
  /\ (forall fuel tries e,
        (0 < tries)%Z ->
        run_round M (S fuel) ast1 ast2 tol
          (fst (random_env rand (all_vars ast1 ast2) 0 ∅)) = Some (Caught e) ->
        expressionsEqual M rand (S fuel) ast1 ast2 tries tol = Some (Throw e)).
Proof.
  split; [|split; [|split]]; cycle 3.
  { intros fuel tries e Ht Hr. unfold expressionsEqual.
    rewrite trials_round, Hr by assumption. reflexivity. }
  - intros fuel tries H. apply trials_done. assumption.
  - intros fuel rounds vars tries t k e Ht Hr H0.
    rewrite trials_round, Hr by assumption.
    replace (t <=? 0)%Z with true by (symmetry; apply Z.leb_le; lia).
    reflexivity.
  - intros fuel rounds vars tries t k e Ht Hr H0.
    rewrite trials_round, Hr by assumption.
    replace (t <=? 0)%Z with false by (symmetry; apply Z.leb_gt; lia).
    rewrite random_env_draws. reflexivity.
Qed.

(** A run that retries for ever: "1/a" against "1/a" agrees in the first
    round and raises DivisionByZero in every later one. *)
Example checker_retries_without_bound (M : MathLib) :
  forall fuel,
    expressionsEqual M zero_after_first_round fuel
      (Op "/" [Literal "1"; Var "a"]) (Op "/" [Literal "1"; Var "a"]) 6 lit_1e_7
    = None.
Proof.
  intros fuel. unfold expressionsEqual.
  change (all_vars _ _) with ["a"].
  destruct fuel as [|rounds]; [reflexivity|].
  generalize (S rounds) at 1. intros fuel.
  rewrite trials_round by lia.
  replace (run_round M fuel _ _ _ _) with (Some Agree) by (vm_compute; reflexivity).
  cbn [random_env snd]. change (0 + 1)%Z with 1%Z.
  assert (H : forall rounds k, 2 <= k ->
    trials M zero_after_first_round fuel rounds
      (Op "/" [Literal "1"; Var "a"]) (Op "/" [Literal "1"; Var "a"])
      ["a"] 6 lit_1e_7 1 k = None).
  { clear rounds. induction rounds as [|rounds IH]; intros k Hk; [reflexivity|].
    rewrite trials_round by lia.
    replace (run_round M fuel _ _ _ _) with (Some (Caught DivisionByZero)).
    - change (1 <=? 0)%Z with false. cbv iota.
      rewrite random_env_draws. apply IH. lia.
    - cbn [random_env fst]. unfold zero_after_first_round.
      replace (Nat.ltb k 2) with false by (symmetry; apply Nat.ltb_ge; lia).
      replace (Nat.ltb (S k) 2) with false by (symmetry; apply Nat.ltb_ge; lia).
      vm_compute. reflexivity. }
  apply H. lia.
Qed.

(** ** What a regular expression can match *)

Lemma append_nil (b : string) : "" +:+ b = b.
Proof. reflexivity. Qed.

Lemma append_cons (c : ascii) (a b : string) :
  String c a +:+ b = String c (a +:+ b).
Proof. reflexivity. Qed.

Lemma append_assoc (a b c : string) : (a +:+ b) +:+ c = a +:+ (b +:+ c).
Proof.
  induction a as [|x a IH]; [reflexivity|].
  rewrite !append_cons, IH. reflexivity.
Qed.

Lemma append_empty_r (a : string) : a +:+ "" = a.
Proof.
  induction a as [|x a IH]; [reflexivity|].
  rewrite append_cons, IH. reflexivity.
Qed.

Lemma append_length (a b : string) :
  String.length (a +:+ b) = String.length a + String.length b.
Proof.
  induction a as [|x a IH]; [reflexivity|].
  rewrite append_cons. simpl. rewrite IH. reflexivity.
Qed.

Lemma append_eq_empty (a b : string) : a +:+ b = "" -> a = "" /\ b = "".
Proof. destruct a; [auto|]. rewrite append_cons. discriminate. Qed.

Lemma append_inv_head (a b c : string) : a +:+ b = a +:+ c -> b = c.
Proof.
  induction a as [|x a IH]; [auto|].
  rewrite !append_cons. intros [= H]. auto.
Qed.

Lemma string_forall_app p (a b : string) :
  string_forall p (a +:+ b) = string_forall p a && string_forall p b.
Proof.
  induction a as [|x a IH]; [reflexivity|].
  rewrite append_cons. simpl. rewrite IH. apply andb_assoc.
Qed.

Lemma string_forall_impl (p q : ascii -> bool) s :
  (forall c, p c = true -> q c = true) ->
  string_forall p s = true -> string_forall q s = true.
Proof.
  intros Hpq. induction s as [|c s IH]; simpl; [auto|].
  intros H. apply andb_true_iff in H as [H1 H2].
  rewrite (Hpq _ H1), (IH H2). reflexivity.
Qed.

Lemma star_matches_spec p s : forall m r,
  In (m, r) (star_matches p s) -> s = m +:+ r /\ string_forall p m = true.
Proof.
  induction s as [|c s IH]; intros m r; simpl.
  - intros [[= <- <-]|[]]. auto.
  - destruct (p c) eqn:Hc.
    + rewrite in_app_iff, in_map_iff.
      intros [([m' r'] & [= <- <-] & Hin)|[[= <- <-]|[]]]; [|auto].
      destruct (IH _ _ Hin) as [-> Hm]. simpl. rewrite Hc, Hm. auto.
    + intros [[= <- <-]|[]]. auto.
Qed.

Lemma star_matches_empty p s : In ("", s) (star_matches p s).
Proof.
  destruct s as [|c s]; simpl; [auto|].
  destruct (p c); [apply in_app_iff; right|]; simpl; auto.
Qed.

Lemma matches_spec re : forall s m r,
  In (m, r) (matches re s) ->
  s = m +:+ r
  /\ string_forall (alphabet re) m = true
  /\ (nullable re = false -> m <> "").
Proof.
  induction re as [p|r1 IH1 r2 IH2|r1 IH1 r2 IH2|r1 IH1|p|p]; intros s m r; simpl.
  - destruct s as [|c s]; [intros []|].
    destruct (p c) eqn:Hc; [|intros []].
    intros [[= <- <-]|[]]. simpl. rewrite Hc. repeat split. discriminate.
  - rewrite in_flat_map. intros ([m1 s1] & H1 & H2).
    apply in_map_iff in H2 as ([m2 s2] & [= <- <-] & H2). simpl in *.
    destruct (IH1 _ _ _ H1) as (-> & A1 & N1).
    destruct (IH2 _ _ _ H2) as (-> & A2 & N2).
    split; [symmetry; apply append_assoc|]. split.
    + rewrite string_forall_app. apply andb_true_iff. split.
      * revert A1. apply string_forall_impl. intros c ->. reflexivity.
      * revert A2. apply string_forall_impl. intros c ->. apply orb_true_r.
    + intros Hn E. apply append_eq_empty in E as [E1 E2].
      apply andb_false_iff in Hn as [Hn|Hn]; [exact (N1 Hn E1)|exact (N2 Hn E2)].
  - rewrite in_app_iff. intros [H|H].
    + destruct (IH1 _ _ _ H) as (-> & A1 & N1). repeat split.
      * revert A1. apply string_forall_impl. intros c ->. reflexivity.
      * intros Hn. apply N1. apply orb_false_iff in Hn. tauto.
    + destruct (IH2 _ _ _ H) as (-> & A2 & N2). repeat split.
      * revert A2. apply string_forall_impl. intros c ->. apply orb_true_r.
      * intros Hn. apply N2. apply orb_false_iff in Hn. tauto.
  - rewrite in_app_iff. intros [H|[[= <- <-]|[]]].
    + destruct (IH1 _ _ _ H) as (-> & A1 & _). repeat split; [assumption|discriminate].
    + repeat split. discriminate.
  - intros H. destruct (star_matches_spec _ _ _ _ H) as [-> A].
    repeat split; [assumption|discriminate].
  - destruct s as [|c s]; [intros []|].
    destruct (p c) eqn:Hc; [|intros []].
    rewrite in_map_iff. intros ([m' r'] & [= <- <-] & H).
    destruct (star_matches_spec _ _ _ _ H) as [-> A].
    split; [reflexivity|]. split; [|discriminate].
    simpl. rewrite Hc. exact A.
Qed.

Lemma matches_seq_inv r1 r2 s m r :
  In (m, r) (matches (RSeq r1 r2) s) ->
  exists m1 m2 s1,
    m = m1 +:+ m2 /\ In (m1, s1) (matches r1 s) /\ In (m2, r) (matches r2 s1).
Proof.
  simpl. rewrite in_flat_map. intros ([m1 s1] & H1 & H2).
  apply in_map_iff in H2 as ([m2 s2] & [= <- <-] & H2).
  exists m1, m2, s1. auto.
Qed.

Lemma matches_seq_intro r1 r2 s m1 s1 m2 s2 :
  In (m1, s1) (matches r1 s) -> In (m2, s2) (matches r2 s1) ->
  In (m1 +:+ m2, s2) (matches (RSeq r1 r2) s).
Proof.
  intros H1 H2. simpl. apply in_flat_map. exists (m1, s1). split; [assumption|].
  apply in_map_iff. exists (m2, s2). auto.
Qed.

Lemma matches_alt_l r1 r2 s x : In x (matches r1 s) -> In x (matches (RAlt r1 r2) s).
Proof. intros H. cbn [matches]. apply in_app_iff. auto. Qed.

Lemma matches_alt_r r1 r2 s x : In x (matches r2 s) -> In x (matches (RAlt r1 r2) s).
Proof. intros H. cbn [matches]. apply in_app_iff. auto. Qed.

Lemma matches_opt_skip r s : In ("", s) (matches (ROpt r) s).
Proof. simpl. apply in_app_iff. right. simpl. auto. Qed.

Lemma matches_plus_one p c s :
  p c = true -> In (String c "", s) (matches (RPlus p) (String c s)).
Proof.
  intros Hc. simpl. rewrite Hc. apply in_map_iff.
  exists ("", s). split; [reflexivity|apply star_matches_empty].
Qed.

Lemma star_matches_prefix p w : forall rest,
  string_forall p w = true -> In (w, rest) (star_matches p (w +:+ rest)).
Proof.
  induction w as [|c w IH]; intros rest H.
  - apply star_matches_empty.
  - simpl in H. apply andb_true_iff in H as [Hc Hw].
    rewrite append_cons. simpl. rewrite Hc. apply in_app_iff. left.
    apply in_map_iff. exists (w, rest). split; [reflexivity|auto].
Qed.

(** ** Characters of tokens *)

Ltac by_cases_on_char c :=
  destruct c as [[] [] [] [] [] [] [] []]; vm_compute; try reflexivity;
  try discriminate; try tauto; auto.

Lemma token_char_allowed c :
  alphabet TOKEN_GROUP c = true -> allowed c = true /\ is_space c = false.
Proof. by_cases_on_char c. Qed.

Lemma token_char_cases c :
  allowed c = true -> is_space c = false ->
  is_digit c = true \/ is_dot c = true \/ is_ident_start c = true
  \/ c = "*"%char \/ c = "^"%char \/ is_punct c = true.
Proof. by_cases_on_char c. Qed.

Lemma digit_not_dot c : is_digit c = true -> is_dot c = false.
Proof. by_cases_on_char c. Qed.

Lemma space_not_dot c : is_space c = true -> is_dot c = false.
Proof. by_cases_on_char c. Qed.

Lemma space_allowed c : is_space c = true -> allowed c = true.
Proof. by_cases_on_char c. Qed.

Lemma number_tail_not_dot c :
  alphabet (RSeq (ROpt (RSeq (RChar "e") (RSeq (ROpt (RClass is_sign)) (RPlus is_digit))))
                 (ROpt (RChar "i"))) c = true -> is_dot c = false.
Proof. by_cases_on_char c. Qed.

Lemma other_token_not_dot c :
  alphabet (RAlt IDENT_RE
             (RAlt (RSeq (RChar "*") (RChar "*"))
               (RAlt (RChar "^") (RClass is_punct)))) c = true -> is_dot c = false.
Proof. by_cases_on_char c. Qed.

Lemma no_dot_dots_ok s : string_forall (fun c => negb (is_dot c)) s = true -> dots_ok s = true.
Proof.
  induction s as [|c s IH]; simpl; [auto|].
  intros H. apply andb_true_iff in H as [Hc Hs].
  apply negb_true_iff in Hc. rewrite Hc, (IH Hs). reflexivity.
Qed.

Lemma dots_ok_app a b : dots_ok a = true -> dots_ok b = true -> dots_ok (a +:+ b) = true.
Proof.
  intros Ha Hb. induction a as [|c a IH]; [exact Hb|].
  rewrite append_cons. simpl in *.
  apply andb_true_iff in Ha as [Hc Ha]. rewrite (IH Ha), andb_true_r.
  destruct (is_dot c); [|reflexivity].
  destruct a; [discriminate|exact Hc].
Qed.

Lemma dots_ok_suffix a b : dots_ok (a +:+ b) = true -> dots_ok b = true.
Proof.
  induction a as [|c a IH]; [auto|].
  rewrite append_cons. simpl. intros H. apply andb_true_iff in H as [_ H]. auto.
Qed.

Lemma dots_ok_no_dot_prefix a b :
  string_forall (fun c => negb (is_dot c)) a = true ->
  dots_ok b = true -> dots_ok (a +:+ b) = true.
Proof. intros Ha Hb. apply dots_ok_app; [apply no_dot_dots_ok|]; assumption. Qed.

Lemma strip_spaces_app a b :
  strip_spaces (a +:+ b) = strip_spaces a +:+ strip_spaces b.
Proof.
  induction a as [|c a IH]; [reflexivity|].
  rewrite append_cons. simpl. destruct (is_space c); [exact IH|].
  rewrite append_cons, IH. reflexivity.
Qed.

Lemma strip_spaces_spaces w : string_forall is_space w = true -> strip_spaces w = "".
Proof.
  induction w as [|c w IH]; simpl; [auto|].
  intros H. apply andb_true_iff in H as [-> H]. auto.
Qed.

Lemma strip_spaces_none t :
  string_forall (fun c => negb (is_space c)) t = true -> strip_spaces t = t.
Proof.
  induction t as [|c t IH]; simpl; [auto|].
  intros H. apply andb_true_iff in H as [Hc H]. apply negb_true_iff in Hc.
  rewrite Hc, (IH H). reflexivity.
Qed.

Lemma strip_spaces_empty r : strip_spaces r = "" -> string_forall is_space r = true.
Proof.
  induction r as [|c r IH]; simpl; [auto|].
  destruct (is_space c); [auto|discriminate].
Qed.

(** *** One token *)

Lemma matches_opt_char_inv ch s o r :
  In (o, r) (matches (ROpt (RChar ch)) s) -> o = "" \/ o = String ch "".
Proof.
  unfold RChar. cbn [matches]. rewrite in_app_iff. intros [H|H].
  - destruct s as [|c s]; [destruct H|].
    destruct (Ascii.eqb ch c) eqn:E; [|destruct H].
    apply Ascii.eqb_eq in E. subst c.
    destruct H as [H|[]]. inversion H. auto.
  - destruct H as [H|[]]. inversion H. auto.
Qed.

Lemma number_match_shape s m r :
  In (m, r) (matches NUMBER_RE s) ->
  exists d1 o d2 t,
    m = d1 +:+ o +:+ d2 +:+ t
    /\ string_forall is_digit d1 = true
    /\ (o = "" \/ o = ".")
    /\ starts_with is_digit d2 = true /\ string_forall is_digit d2 = true
    /\ string_forall (fun c => negb (is_dot c)) t = true.
Proof.
  unfold NUMBER_RE. intros H.
  apply matches_seq_inv in H as (d1 & m' & s1 & -> & H1 & H).
  apply matches_seq_inv in H as (o & m'' & s2 & -> & H2 & H).
  apply matches_seq_inv in H as (d2 & t & s3 & -> & H3 & H4).
  exists d1, o, d2, t. split; [reflexivity|].
  apply matches_spec in H1 as (_ & A1 & _).
  apply matches_spec in H3 as (_ & A3 & N3).
  apply matches_spec in H4 as (_ & A4 & _).
  split; [exact A1|]. split.
  - apply matches_opt_char_inv in H2. exact H2.
  - split; [|split; [exact A3|]].
    + destruct d2 as [|c d2]; [exfalso; apply N3; reflexivity|].
      simpl in A3. apply andb_true_iff in A3 as [A3 _]. exact A3.
    + revert A4. apply string_forall_impl. intros c Hc.
      apply negb_true_iff. apply number_tail_not_dot. exact Hc.
Qed.

Lemma number_match_dots_ok s m r : In (m, r) (matches NUMBER_RE s) -> dots_ok m = true.
Proof.
  intros H. apply number_match_shape in H
    as (d1 & o & d2 & t & -> & A1 & Ho & S2 & A2 & At).
  apply dots_ok_no_dot_prefix.
  { revert A1. apply string_forall_impl. intros c Hc.
    apply negb_true_iff, digit_not_dot, Hc. }
  assert (Hrest : dots_ok (d2 +:+ t) = true).
  { apply dots_ok_no_dot_prefix; [|apply no_dot_dots_ok; exact At].
    revert A2. apply string_forall_impl. intros c Hc.
    apply negb_true_iff, digit_not_dot, Hc. }
  destruct Ho as [-> | ->]; [exact Hrest|].
  rewrite append_cons, append_nil. simpl. rewrite Hrest, andb_true_r.
  destruct d2 as [|c d2]; [discriminate|]. rewrite append_cons. exact S2.
Qed.

Lemma group_match_good s tok r : In (tok, r) (matches TOKEN_GROUP s) -> good_token tok.
Proof.
  intros H. pose proof (matches_spec _ _ _ _ H) as (_ & A & N).
  split; [apply N; reflexivity|]. split; [exact A|].
  unfold TOKEN_GROUP in H. cbn [matches] in H. apply in_app_iff in H as [H|H].
  - eapply number_match_dots_ok, H.
  - apply no_dot_dots_ok.
    change (In (tok, r)
             (matches (RAlt IDENT_RE
                        (RAlt (RSeq (RChar "*") (RChar "*"))
                          (RAlt (RChar "^") (RClass is_punct)))) s)) in H.
    apply matches_spec in H as (_ & A' & _).
    revert A'. apply string_forall_impl. intros c Hc.
    apply negb_true_iff, other_token_not_dot, Hc.
Qed.

Lemma token_matches_spec s tok rest :
  In (tok, rest) (token_matches s) ->
  exists w1 w2,
    s = w1 +:+ tok +:+ w2 +:+ rest
    /\ string_forall is_space w1 = true /\ string_forall is_space w2 = true
    /\ good_token tok.
Proof.
  unfold token_matches. rewrite in_flat_map. intros ([w1 s1] & H1 & H).
  apply in_flat_map in H as ([tok' s2] & H2 & H).
  apply in_map_iff in H as ([w2 s3] & [= <- <-] & H3). cbn [fst snd] in *.
  change (matches (RStar is_space) s) with (star_matches is_space s) in H1.
  change (matches (RStar is_space) s2) with (star_matches is_space s2) in H3.
  apply star_matches_spec in H1 as [-> A1].
  apply star_matches_spec in H3 as [E3 A3].
  pose proof (matches_spec _ _ _ _ H2) as (-> & _ & _). subst s2.
  exists w1, w2. repeat split; try assumption; eapply group_match_good, H2.
Qed.

Lemma token_exec_spec s tok rest :
  token_exec s = Some (tok, rest) ->
  exists pre,
    s = pre +:+ rest
    /\ strip_spaces pre = tok
    /\ string_forall allowed pre = true /\ dots_ok pre = true
    /\ good_token tok.
Proof.
  unfold token_exec. intros H.
  assert (Hin : In (tok, rest) (token_matches s)).
  { destruct (token_matches s) as [|x l]; [discriminate|].
    injection H as ->. left. reflexivity. }
  apply token_matches_spec in Hin as (w1 & w2 & -> & A1 & A2 & G).
  destruct G as (N & A & D).
  assert (Hns : string_forall (fun c => negb (is_space c)) tok = true).
  { revert A. apply string_forall_impl. intros c Hc.
    apply negb_true_iff. apply token_char_allowed, Hc. }
  assert (Hsd : forall w, string_forall is_space w = true ->
                 string_forall (fun c => negb (is_dot c)) w = true).
  { intros w. apply string_forall_impl. intros c Hc.
    apply negb_true_iff, space_not_dot, Hc. }
  exists (w1 +:+ tok +:+ w2). split; [|split; [|split; [|split]]].
  - rewrite !append_assoc. reflexivity.
  - rewrite !strip_spaces_app, (strip_spaces_spaces _ A1), (strip_spaces_spaces _ A2).
    rewrite append_nil, append_empty_r. apply strip_spaces_none, Hns.
  - rewrite !string_forall_app.
    rewrite (string_forall_impl _ _ _ space_allowed A1).
    rewrite (string_forall_impl _ _ _ space_allowed A2).
    rewrite andb_true_r. simpl.
    revert A. apply string_forall_impl. intros c Hc. apply token_char_allowed, Hc.
  - apply dots_ok_no_dot_prefix; [auto|].
    apply dots_ok_app; [exact D|]. apply no_dot_dots_ok. auto.
  - repeat split; assumption.
Qed.

(** *** The token loop *)

Lemma join_cons (x : string) (l : list string) : join "" (x :: l) = x +:+ join "" l.
Proof.
  unfold join. destruct l as [|y l]; simpl.
  - symmetry. apply append_empty_r.
  - reflexivity.
Qed.

(** With fuel above the length of the input the loop returns the tokens of
    a prefix [pre] of the input and stops where no token matches. *)
Lemma tokenize_loop_spec fuel : forall s acc,
  String.length s < fuel ->
  exists toks pre r,
    tokenize_loop fuel s acc = Some (acc ++ toks)
    /\ s = pre +:+ r
    /\ token_exec r = None
    /\ strip_spaces pre = join "" toks
    /\ string_forall allowed pre = true
    /\ dots_ok pre = true
    /\ Forall good_token toks.
Proof.
  induction fuel as [|fuel IH]; intros s acc Hlen; [lia|].
  cbn [tokenize_loop].
  destruct (token_exec s) as [[tok rest]|] eqn:E.
  - apply token_exec_spec in E as (pre1 & -> & Hstrip & Ha & Hd & G).
    assert (Hpre : pre1 <> "").
    { intros ->. destruct G as [N _]. apply N. symmetry. exact Hstrip. }
    assert (Hlt : String.length rest < fuel).
    { rewrite append_length in Hlen. destruct pre1; [congruence|]. simpl in Hlen. lia. }
    destruct (IH rest (acc ++ [tok]) Hlt)
      as (toks & pre & r & Hloop & -> & Hr & Hs & Ha' & Hd' & Gs).
    exists (tok :: toks), (pre1 +:+ pre), r.
    split; [rewrite Hloop, <- app_assoc; reflexivity|].
    split; [symmetry; apply append_assoc|].
    split; [exact Hr|].
    split; [rewrite strip_spaces_app, join_cons, Hstrip, Hs; reflexivity|].
    split; [rewrite string_forall_app, Ha, Ha'; reflexivity|].
    split; [apply dots_ok_app; assumption|].
    constructor; assumption.
  - exists [], "", s. rewrite app_nil_r.
    split; [reflexivity|]. split; [reflexivity|]. split; [exact E|].
    repeat split. constructor.
Qed.

Lemma tokenize_loop_fuel (s : string) :
  tokenize_loop (S (String.length s)) s [] <> None.
Proof.
  destruct (tokenize_loop_spec (S (String.length s)) s [])
    as (toks & _ & _ & H & _); [lia|].
  rewrite H. discriminate.
Qed.

Lemma split_spaces r :
  strip_spaces r <> "" ->
  exists w c r',
    r = w +:+ String c r' /\ string_forall is_space w = true /\ is_space c = false.
Proof.
  induction r as [|c r IH]; simpl; [congruence|].
  destruct (is_space c) eqn:Hc.
  - intros H. destruct (IH H) as (w & c' & r' & -> & Hw & Hc').
    exists (String c w), c', r'. rewrite append_cons. simpl. rewrite Hc, Hw. auto.
  - intros _. exists "", c, r. auto.
Qed.

Lemma number_tail_skip s :
  In ("" +:+ "", s)
     (matches (RSeq (ROpt (RSeq (RChar "e") (RSeq (ROpt (RClass is_sign)) (RPlus is_digit))))
                    (ROpt (RChar "i"))) s).
Proof. eapply matches_seq_intro; apply matches_opt_skip. Qed.

(** A token matches at every allowed character that is not white space,
    provided a ['.'] there is followed by a digit. *)
Lemma group_matches_some c r' :
  allowed c = true -> is_space c = false -> dots_ok (String c r') = true ->
  exists tok s2, In (tok, s2) (matches TOKEN_GROUP (String c r')).
Proof.
  intros Ha Hs Hd.
  destruct (token_char_cases c Ha Hs) as [H|[H|[H|[H|[H|H]]]]].
  - (* a digit *)
    eexists _, _. apply matches_alt_l. unfold NUMBER_RE.
    eapply matches_seq_intro; [apply (star_matches_empty is_digit)|].
    eapply matches_seq_intro; [apply matches_opt_skip|].
    eapply matches_seq_intro; [apply matches_plus_one, H|].
    apply number_tail_skip.
  - (* a dot, followed by a digit *)
    unfold is_dot in H. apply Ascii.eqb_eq in H. subst c.
    simpl in Hd. apply andb_true_iff in Hd as [Hd _].
    destruct r' as [|d r']; [discriminate|]. simpl in Hd.
    eexists _, _. apply matches_alt_l. unfold NUMBER_RE.
    eapply matches_seq_intro; [apply (star_matches_empty is_digit)|].
    eapply matches_seq_intro.
    { unfold RChar. cbn [matches]. apply in_app_iff. left.
      change (Ascii.eqb "." ".") with true. cbv iota. left. reflexivity. }
    eapply matches_seq_intro; [apply matches_plus_one, Hd|].
    apply number_tail_skip.
  - (* the start of an identifier *)
    eexists _, _. apply matches_alt_r, matches_alt_l. unfold IDENT_RE.
    eapply matches_seq_intro.
    + cbn [matches]. rewrite H. left. reflexivity.
    + apply (star_matches_empty is_word).
  - subst c. eexists _, _. do 4 apply matches_alt_r.
    cbn [matches]. change (is_punct "*") with true. left. reflexivity.
  - subst c. eexists _, _. do 3 apply matches_alt_r. apply matches_alt_l.
    unfold RChar. cbn [matches]. change (Ascii.eqb "^" "^") with true.
    left. reflexivity.
  - eexists _, _. do 4 apply matches_alt_r.
    cbn [matches]. rewrite H. left. reflexivity.
Qed.

Lemma token_exec_some r :
  string_forall allowed r = true -> dots_ok r = true -> strip_spaces r <> "" ->
  token_exec r <> None.
Proof.
  intros Ha Hd Hs.
  destruct (split_spaces r Hs) as (w & c & r' & -> & Hw & Hc).
  rewrite string_forall_app in Ha. apply andb_true_iff in Ha as [_ Ha].
  simpl in Ha. apply andb_true_iff in Ha as [Ha _].
  apply dots_ok_suffix in Hd.
  destruct (group_matches_some c r' Ha Hc Hd) as (tok & s2 & Hin).
  assert (H : In (tok, s2) (token_matches (w +:+ String c r'))).
  { unfold token_matches. apply in_flat_map. exists (w, String c r').
    split; [apply (star_matches_prefix is_space), Hw|].
    apply in_flat_map. exists (tok, s2). split; [exact Hin|].
    apply in_map_iff. exists ("", s2). split; [reflexivity|].
    apply (star_matches_empty is_space). }
  unfold token_exec. destruct (token_matches _); [destruct H|discriminate].
Qed.

(** The tokens of an input that tokenizes. *)
Lemma tokenize_ok_iff input :
  (exists tokens, tokenize input = Ok tokens)
  <-> string_forall allowed input = true /\ dots_ok input = true.
Proof.
  unfold tokenize.
  destruct (tokenize_loop_spec (S (String.length input)) input [])
    as (toks & pre & r & Hloop & Hs & Hr & Hstrip & Ha & Hd & _); [lia|].
  rewrite Hloop. cbn [app].
  assert (Hclean : strip_spaces input = join "" toks +:+ strip_spaces r).
  { rewrite Hs at 1. rewrite strip_spaces_app, Hstrip. reflexivity. }
  rewrite Hclean.
  destruct (String.eqb_spec (join "" toks) (join "" toks +:+ strip_spaces r)) as [E|E].
  - assert (Hr0 : strip_spaces r = "").
    { apply (append_inv_head (join "" toks)). rewrite append_empty_r. symmetry. exact E. }
    apply strip_spaces_empty in Hr0.
    split; [intros _|eauto]. rewrite Hs. split.
    + rewrite string_forall_app, Ha. simpl.
      revert Hr0. apply string_forall_impl, space_allowed.
    + apply dots_ok_app; [exact Hd|]. apply no_dot_dots_ok.
      revert Hr0. apply string_forall_impl. intros c Hc.
      apply negb_true_iff, space_not_dot, Hc.
  - split; [intros [tokens H]; discriminate H|].
    intros [Ha' Hd']. exfalso.
    rewrite Hs in Ha', Hd'.
    rewrite string_forall_app in Ha'. apply andb_true_iff in Ha' as [_ Ha'].
    apply dots_ok_suffix in Hd'.
    apply (token_exec_some r Ha' Hd'); [|exact Hr].
    intros E0. apply E. rewrite E0, append_empty_r. reflexivity.
Qed.

Lemma tokenize_error input e : tokenize input = Throw e -> e = LexicalError.
Proof.
  unfold tokenize. destruct (tokenize_loop _ _ _); [|congruence].
  destruct (String.eqb _ _); congruence.
Qed.

(** C2, as stated, fails in both directions: ["_"] holds a character
    outside the listed ones and tokenizes, and ["."] and ["1."] are made of
    listed characters and raise LexicalError. *)
Lemma listed_characters_do_not_decide :
  (string_forall listed "_" = false /\ tokenize "_" = Ok ["_"])
  /\ (string_forall listed "." = true /\ tokenize "." = Throw LexicalError)
  /\ (string_forall listed "1." = true /\ tokenize "1." = Throw LexicalError).
Proof. repeat split. Qed.

(** C2 (amended). For every input string, [tokenize] raises LexicalError
    if and only if the input contains a character other than a digit, a
    letter, ['_'], ['.'], ['+'], ['-'], ['*'], ['/'], ['('], [')'], [','],
    ['^'] and white space, or contains a ['.'] that is not immediately
    followed by a digit; it raises no other error. *)
Theorem tokenize_raises_iff (input : string) :
  (tokenize input = Throw LexicalError
   <-> string_forall allowed input = false \/ dots_ok input = false)
  /\ (forall e, tokenize input = Throw e -> e = LexicalError).
Proof.
  split; [|apply tokenize_error].
  pose proof (tokenize_ok_iff input) as Hok.
  destruct (tokenize input) as [tokens|e] eqn:E.
  - split; [discriminate|].
    destruct Hok as [Hok _]. destruct Hok as [-> ->]; [eauto|].
    intros [H|H]; discriminate H.
  - rewrite (tokenize_error _ _ E). split; [intros _|reflexivity].
    destruct (string_forall allowed input); [|auto].
    destruct (dots_ok input); [|auto].
    destruct Hok as [_ [tokens H]]; [auto|discriminate H].
Qed.

(** ** The bare [i] *)

Lemma string_exists_app p a b :
  string_exists p (a +:+ b) = string_exists p a || string_exists p b.
Proof.
  induction a as [|c a IH]; [reflexivity|].
  rewrite append_cons. simpl. rewrite IH. apply orb_assoc.
Qed.

Lemma test_anchored_inv r t :
  test_anchored r t = true -> In (t, "") (matches r t).
Proof.
  unfold test_anchored. rewrite existsb_exists. intros ([m rest] & Hin & E).
  simpl in E. apply String.eqb_eq in E. subst rest.
  pose proof (matches_spec _ _ _ _ Hin) as (Ht & _).
  rewrite append_empty_r in Ht. subst m. exact Hin.
Qed.

Lemma number_token_has_digit t :
  isNumberToken t = true -> string_exists is_digit t = true.
Proof.
  intros H. apply test_anchored_inv in H.
  apply number_match_shape in H as (d1 & o & d2 & t' & E & _ & _ & S2 & _).
  rewrite E, !string_exists_app.
  destruct d2 as [|c d2]; [discriminate|]. simpl in S2. simpl. rewrite S2.
  rewrite !orb_true_r. reflexivity.
Qed.

(** C10. The bare token "i" is an identifier, not a number literal: "i"
    parses to a variable node, whose evaluation with an empty environment
    raises UnboundVariable; a number literal, so an imaginary one, always
    has a digit, as in "1i" and "2i", which evaluate to [i] and [2i]. *)
Theorem bare_i_is_a_variable (M : MathLib) :
  tokenize "i" = Ok ["i"]
  /\ isNumberToken "i" = false /\ isIdentifier "i" = true
  /\ parseToAST "i" = Ok (Var "i")
  /\ (forall fuel, evaluateAST M fuel (Var "i") ∅ = Some (Throw (UnboundVariable "i")))
  /\ evaluates M "i" ∅ (Throw (UnboundVariable "i"))
  /\ (forall t, isNumberToken t = true -> string_exists is_digit t = true)
  /\ evaluates M "1i" ∅ (Ok (mkComplex 0 1))
  /\ evaluates M "2i" ∅ (Ok (mkComplex 0 2)).
Proof.
  repeat split; try evaluates_by_computation.
  apply number_token_has_digit.
Qed.

(** ** The first match

    [head (matches r s)] is the match a backtracking matcher finds first. *)

Lemma head_app_l {A} (l1 l2 : list A) x : head l1 = Some x -> head (l1 ++ l2) = Some x.
Proof. destruct l1; [discriminate|auto]. Qed.

Lemma head_flat_map {A B} (f : A -> list B) l y x :
  head l = Some y -> head (f y) = Some x -> head (flat_map f l) = Some x.
Proof.
  destruct l as [|y' l]; [discriminate|]. intros [= ->] H. simpl.
  apply head_app_l, H.
Qed.

Lemma head_map {A B} (g : A -> B) l y : head l = Some y -> head (map g l) = Some (g y).
Proof. destruct l; [discriminate|]. intros [= ->]. reflexivity. Qed.

Lemma head_seq r1 r2 s m1 s1 m2 s2 :
  head (matches r1 s) = Some (m1, s1) ->
  head (matches r2 s1) = Some (m2, s2) ->
  head (matches (RSeq r1 r2) s) = Some (m1 +:+ m2, s2).
Proof.
  intros H1 H2. cbn [matches]. eapply head_flat_map; [exact H1|].
  cbn [fst snd]. apply (head_map (fun m => (m1 +:+ fst m, snd m)) _ _ H2).
Qed.

Lemma head_alt_l r1 r2 s x :
  head (matches r1 s) = Some x -> head (matches (RAlt r1 r2) s) = Some x.
Proof. intros H. cbn [matches]. apply head_app_l, H. Qed.

Lemma head_alt_r r1 r2 s :
  matches r1 s = [] -> head (matches (RAlt r1 r2) s) = head (matches r2 s).
Proof. intros H. cbn [matches]. rewrite H. reflexivity. Qed.

Lemma head_opt_take r s x :
  head (matches r s) = Some x -> head (matches (ROpt r) s) = Some x.
Proof. intros H. cbn [matches]. apply head_app_l, H. Qed.

Lemma head_opt_skip r s :
  matches r s = [] -> head (matches (ROpt r) s) = Some ("", s).
Proof. intros H. cbn [matches]. rewrite H. reflexivity. Qed.

Lemma head_class p c s :
  p c = true -> head (matches (RClass p) (String c s)) = Some (String c "", s).
Proof. intros H. cbn [matches]. rewrite H. reflexivity. Qed.

Lemma matches_class_fails p s :
  starts_with p s = false -> matches (RClass p) s = [].
Proof. destruct s as [|c s]; [reflexivity|]. simpl. intros ->. reflexivity. Qed.

Lemma star_matches_stop p s :
  starts_with p s = false -> star_matches p s = [("", s)].
Proof. destruct s as [|c s]; [reflexivity|]. simpl. intros ->. reflexivity. Qed.

Lemma head_star p w : forall k,
  string_forall p w = true -> starts_with p k = false ->
  head (star_matches p (w +:+ k)) = Some (w, k).
Proof.
  induction w as [|c w IH]; intros k Hw Hk.
  - rewrite append_nil, star_matches_stop by exact Hk. reflexivity.
  - simpl in Hw. apply andb_true_iff in Hw as [Hc Hw].
    rewrite append_cons. cbn [star_matches]. rewrite Hc.
    apply head_app_l.
    apply (head_map (fun mr => (String c (fst mr), snd mr)) _ _ (IH k Hw Hk)).
Qed.

Lemma head_plus p w k :
  starts_with p w = true -> string_forall p w = true -> starts_with p k = false ->
  head (matches (RPlus p) (w +:+ k)) = Some (w, k).
Proof.
  destruct w as [|c w]; [discriminate|]. intros Hc Hw Hk.
  simpl in Hc, Hw. rewrite Hc in Hw. simpl in Hw.
  rewrite append_cons. cbn [matches]. rewrite Hc.
  apply (head_map (fun mr => (String c (fst mr), snd mr)) _ _ (head_star p w k Hw Hk)).
Qed.

(** Backtracking by one character: when what follows the star fails after
    the longest run [w ++ c] and succeeds after [w], the first match gives
    the last character back. *)
Lemma star_backtrack {B} p (c : ascii) k x : forall w (f : string * string -> list B),
  string_forall p w = true -> p c = true -> starts_with p k = false ->
  f (w +:+ String c "", k) = [] ->
  head (f (w, String c k)) = Some x ->
  head (flat_map f (star_matches p (w +:+ String c k))) = Some x.
Proof.
  induction w as [|a w IH]; intros f Hw Hc Hk Hfail Hnext.
  - rewrite append_nil in *. cbn [star_matches]. rewrite Hc.
    rewrite (star_matches_stop p k Hk). cbn [map fst snd app flat_map].
    rewrite Hfail. cbn [app]. apply head_app_l, Hnext.
  - simpl in Hw. apply andb_true_iff in Hw as [Ha Hw].
    rewrite append_cons. cbn [star_matches]. rewrite Ha.
    rewrite flat_map_app. apply head_app_l.
    rewrite flat_map_concat_map, map_map, <- flat_map_concat_map.
    apply (IH (fun mr => f (String a (fst mr), snd mr))); assumption.
Qed.

(** ** Tokens in front of a delimiter *)


Lemma matches_opt_inv r s m rest :
  In (m, rest) (matches (ROpt r) s) -> In (m, rest) (matches r s) \/ (m = "" /\ rest = s).
Proof.
  cbn [matches]. rewrite in_app_iff. intros [H|[H|[]]]; [auto|].
  inversion H. auto.
Qed.

Lemma matches_class_inv p s m rest :
  In (m, rest) (matches (RClass p) s) -> exists c, m = String c "" /\ p c = true.
Proof.
  cbn [matches]. destruct s as [|c s]; [intros []|].
  destruct (p c) eqn:Hc; [|intros []]. intros [H|[]]. inversion H. eauto.
Qed.

Lemma matches_plus_inv p s m rest :
  In (m, rest) (matches (RPlus p) s) ->
  starts_with p m = true /\ string_forall p m = true.
Proof.
  intros H. apply matches_spec in H as (_ & A & N).
  destruct m as [|c m]; [exfalso; apply N; reflexivity|].
  split; [|exact A]. simpl in A. apply andb_true_iff in A as [A _]. exact A.
Qed.

Lemma exponent_match_text s m rest :
  In (m, rest) (matches EXPONENT_RE s) -> exponent_text m.
Proof.
  unfold EXPONENT_RE. intros H.
  apply matches_seq_inv in H as (m1 & m' & s1 & -> & H1 & H).
  apply matches_seq_inv in H as (sg & d3 & s2 & -> & H2 & H3).
  apply matches_class_inv in H1 as (c & -> & Hc). apply Ascii.eqb_eq in Hc. subst c.
  apply matches_plus_inv in H3 as [S3 A3].
  exists sg, d3. split; [reflexivity|]. split; [|auto].
  apply matches_opt_inv in H2 as [H2|[-> _]]; [|auto].
  apply matches_class_inv in H2 as (c & -> & Hc).
  right. revert Hc. clear. by_cases_on_char c.
Qed.

Lemma tail_match_text s m rest :
  In (m, rest) (matches NUMBER_TAIL_RE s) -> tail_text m.
Proof.
  unfold NUMBER_TAIL_RE. intros H.
  apply matches_seq_inv in H as (e & i & s1 & -> & H1 & H2).
  exists e, i. split; [reflexivity|]. split.
  - apply matches_opt_inv in H1 as [H1|[-> _]]; [|auto].
    right. eapply exponent_match_text, H1.
  - apply matches_opt_inv in H2 as [H2|[-> _]]; [|auto].
    apply matches_class_inv in H2 as (c & -> & Hc).
    apply Ascii.eqb_eq in Hc. subst c. auto.
Qed.

(** The two shapes of a number token: digits around a ['.'], or digits
    alone, then the tail. *)
Lemma number_token_shape t :
  isNumberToken t = true ->
  exists d1 d2 tl,
    (t = d1 +:+ "." +:+ d2 +:+ tl \/ (d1 = "" /\ t = d2 +:+ tl))
    /\ string_forall is_digit d1 = true
    /\ starts_with is_digit d2 = true /\ string_forall is_digit d2 = true
    /\ tail_text tl.
Proof.
  intros H. apply test_anchored_inv in H. unfold NUMBER_RE in H.
  apply matches_seq_inv in H as (d1 & m' & s1 & E1 & H1 & H).
  apply matches_seq_inv in H as (o & m'' & s2 & -> & H2 & H).
  apply matches_seq_inv in H as (d2 & tl & s3 & -> & H3 & H4).
  apply (star_matches_spec is_digit) in H1 as (_ & A1).
  apply matches_plus_inv in H3 as [S3 A3].
  apply (tail_match_text s3 tl "") in H4.
  apply matches_opt_char_inv in H2 as [-> | ->].
  - (* no dot: the two runs of digits are one *)
    exists "", (d1 +:+ d2), tl. rewrite append_nil in E1.
    split; [right; split; [reflexivity|]; rewrite E1; symmetry; apply append_assoc|].
    split; [reflexivity|]. split; [|split; [|exact H4]].
    + destruct d1 as [|c d1]; [exact S3|].
      simpl in A1. apply andb_true_iff in A1 as [A1 _]. exact A1.
    + rewrite string_forall_app, A1, A3. reflexivity.
  - exists d1, d2, tl. split; [left; exact E1|]. auto.
Qed.

Lemma starts_with_app p (w k : string) :
  w <> "" -> starts_with p (w +:+ k) = starts_with p w.
Proof. destruct w; [congruence|reflexivity]. Qed.

Lemma digit_not_sign c : is_digit c = true -> is_sign c = false.
Proof. by_cases_on_char c. Qed.

Lemma matches_seq_nil r1 r2 s : matches r1 s = [] -> matches (RSeq r1 r2) s = [].
Proof. intros H. cbn [matches]. rewrite H. reflexivity. Qed.

Lemma matches_seq_opt_nil r r2 s :
  matches r s = [] -> matches r2 s = [] -> matches (RSeq (ROpt r) r2) s = [].
Proof. intros H1 H2. cbn [matches]. rewrite H1. cbn. rewrite H2. reflexivity. Qed.

Lemma matches_plus_fails p s : starts_with p s = false -> matches (RPlus p) s = [].
Proof. destruct s as [|c s]; [reflexivity|]. simpl. intros ->. reflexivity. Qed.

Lemma exponent_fails s :
  starts_with (Ascii.eqb "e") s = false -> matches EXPONENT_RE s = [].
Proof.
  intros H. unfold EXPONENT_RE, RChar.
  apply matches_seq_nil, matches_class_fails, H.
Qed.


Lemma head_exponent e k :
  exponent_text e -> starts_with is_digit k = false ->
  head (matches EXPONENT_RE (e +:+ k)) = Some (e, k).
Proof.
  intros (sg & d3 & -> & Hsg & S3 & A3) Hk.
  rewrite !append_assoc. unfold EXPONENT_RE.
  apply head_seq with (s1 := sg +:+ d3 +:+ k).
  { apply (head_class (Ascii.eqb "e")). reflexivity. }
  apply head_seq with (s1 := d3 +:+ k); [|apply head_plus; assumption].
  destruct Hsg as [-> | [-> | ->]].
  - rewrite append_nil. apply head_opt_skip, matches_class_fails.
    destruct d3 as [|c d3]; [discriminate|]. apply digit_not_sign, S3.
  - apply head_opt_take, (head_class is_sign). reflexivity.
  - apply head_opt_take, (head_class is_sign). reflexivity.
Qed.


Lemma number_rest_fails s :
  starts_with is_digit s = false -> starts_with is_dot s = false ->
  matches NUMBER_REST_RE s = [].
Proof.
  intros Hd Hdot. unfold NUMBER_REST_RE, RChar.
  apply matches_seq_opt_nil.
  - apply matches_class_fails, Hdot.
  - apply matches_seq_nil, matches_plus_fails, Hd.
Qed.



Lemma string_last_split (d : string) :
  d <> "" -> exists w c, d = w +:+ String c "".
Proof.
  induction d as [|a d IH]; [congruence|]. intros _.
  destruct d as [|b d].
  - exists "", a. reflexivity.
  - destruct IH as (w & c & E); [discriminate|].
    exists (String a w), c. rewrite append_cons, <- E. reflexivity.
Qed.


Lemma matches_seq_star_nil p r2 s :
  starts_with p s = false -> matches r2 s = [] -> matches (RSeq (RStar p) r2) s = [].
Proof.
  intros H1 H2. cbn [matches]. rewrite (star_matches_stop p s H1).
  cbn [flat_map fst snd]. rewrite H2. reflexivity.
Qed.

Lemma ident_start_cases c :
  is_ident_start c = true ->
  is_digit c = false /\ is_dot c = false /\ is_space c = false.
Proof. by_cases_on_char c. Qed.

Lemma digit_or_dot_not_space c :
  is_digit c = true \/ is_dot c = true -> is_space c = false.
Proof.
  destruct c as [[] [] [] [] [] [] [] []]; vm_compute;
    intros [H|H]; try reflexivity; discriminate H.
Qed.

Lemma identifier_shape x :
  isIdentifier x = true ->
  exists c w, x = String c w /\ is_ident_start c = true /\ string_forall is_word w = true.
Proof.
  intros H. apply test_anchored_inv in H. unfold IDENT_RE in H.
  apply matches_seq_inv in H as (m1 & w & s1 & -> & H1 & H2).
  apply matches_class_inv in H1 as (c & -> & Hc).
  apply (star_matches_spec is_word) in H2 as [_ Hw].
  exists c, w. auto.
Qed.

Lemma number_fails_on_identifier c s :
  is_ident_start c = true -> matches NUMBER_RE (String c s) = [].
Proof.
  intros Hc. destruct (ident_start_cases c Hc) as (Hd & Hdot & _).
  change NUMBER_RE with (RSeq (RStar is_digit) NUMBER_REST_RE).
  apply matches_seq_star_nil; [exact Hd|]. apply number_rest_fails; assumption.
Qed.



Lemma head_star_spaces s :
  exists w, head (star_matches is_space s) = Some (w, drop_spaces s).
Proof.
  induction s as [|c s [w IH]]; [exists ""; reflexivity|].
  simpl. destruct (is_space c).
  - exists (String c w). apply head_app_l.
    apply (head_map (fun mr => (String c (fst mr), snd mr)) _ _ IH).
  - exists "". reflexivity.
Qed.

Lemma token_exec_head s tok s2 :
  starts_with is_space s = false ->
  head (matches TOKEN_GROUP s) = Some (tok, s2) ->
  token_exec s = Some (tok, drop_spaces s2).
Proof.
  intros Hs H. unfold token_exec, token_matches.
  change (matches (RStar is_space) s) with (star_matches is_space s).
  rewrite (star_matches_stop is_space s Hs). cbn [flat_map fst snd].
  rewrite app_nil_r. eapply head_flat_map; [exact H|]. cbn [fst snd].
  destruct (head_star_spaces s2) as [w Hw].
  change (matches (RStar is_space) s2) with (star_matches is_space s2).
  apply (head_map (fun m3 => (tok, snd m3)) _ _ Hw).
Qed.

Lemma number_token_start t k :
  isNumberToken t = true -> starts_with is_space (t +:+ k) = false.
Proof.
  intros Ht.
  destruct (number_token_shape t Ht) as (d1 & d2 & tl & Hshape & A1 & S2 & _).
  destruct Hshape as [-> | [-> ->]].
  - destruct d1 as [|c d1].
    + reflexivity.
    + simpl in A1. apply andb_true_iff in A1 as [A1 _].
      apply digit_or_dot_not_space. auto.
  - destruct d2 as [|c d2]; [discriminate|].
    apply digit_or_dot_not_space. auto.
Qed.






(** ** Printing and parsing again *)

Lemma lex_loop s toks r :
  lex s toks r ->
  strip_spaces s = join "" toks +:+ strip_spaces r
  /\ forall fuel acc, String.length s < fuel ->
       tokenize_loop fuel s acc = Some (acc ++ toks).
Proof.
  induction 1 as [s Hs|s tok rest toks r Hs _ [IHs IHl]].
  - split; [reflexivity|]. intros [|fuel] acc Hlen; [lia|].
    cbn [tokenize_loop]. rewrite Hs, app_nil_r. reflexivity.
  - pose proof (token_exec_spec _ _ _ Hs) as (pre & -> & Hstrip & _ & _ & (N & _)).
    split.
    + rewrite strip_spaces_app, Hstrip, IHs, join_cons, append_assoc. reflexivity.
    + intros [|fuel] acc Hlen; [lia|].
      cbn [tokenize_loop]. rewrite Hs, IHl, <- app_assoc; [reflexivity|].
      rewrite append_length in Hlen.
      destruct pre; [exfalso; apply N; symmetry; exact Hstrip|].
      simpl in Hlen. lia.
Qed.

Lemma lex_tokenize s toks : lex s toks "" -> tokenize s = Ok toks.
Proof.
  intros H. apply lex_loop in H as [Hstrip Hloop].
  unfold tokenize. rewrite Hloop by lia. cbn [app].
  rewrite Hstrip. simpl strip_spaces. rewrite append_empty_r, String.eqb_refl.
  reflexivity.
Qed.



Lemma drop_spaces_start s : starts_with is_space s = false -> drop_spaces s = s.
Proof. destruct s as [|c s]; [reflexivity|]. simpl. intros ->. reflexivity. Qed.










Lemma identifier_not_number x : isIdentifier x = true -> isNumberToken x = false.
Proof.
  intros H. destruct (identifier_shape x H) as (c & w & -> & Hc & _).
  unfold isNumberToken, test_anchored.
  rewrite (number_fails_on_identifier c w Hc). reflexivity.
Qed.


Lemma parse_step_open st next :
  parse_step st "(" next
  = Ok {| output := output st; ops := IStr "(" :: ops st; prev := Some "(" |}.
Proof. reflexivity. Qed.


Lemma parse_step_function name out ops0 p next :
  isIdentifier name = true -> is_token next "(" = true ->
  parse_step {| output := out; ops := ops0; prev := p |} name next
  = Ok {| output := out; ops := IFunc name :: ops0; prev := Some "id" |}.
Proof.
  intros H Hn. unfold parse_step.
  rewrite (identifier_not_number _ H), H, Hn. reflexivity.
Qed.











(** * Further properties *)

(** ** The kinds of tokens *)

(** A match does not depend on what follows it. *)
Lemma matches_rest_irrelevant r : forall s m rest,
  In (m, rest) (matches r s) -> forall rest', In (m, rest') (matches r (m +:+ rest')).
Proof.
  induction r as [p|r1 IH1 r2 IH2|r1 IH1 r2 IH2|r1 IH1|p|p]; intros s m rest H rest'.
  - apply matches_class_inv in H as (c & -> & Hc).
    rewrite append_cons, append_nil. cbn [matches]. rewrite Hc. left. reflexivity.
  - apply matches_seq_inv in H as (m1 & m2 & s1 & -> & H1 & H2).
    rewrite append_assoc.
    eapply matches_seq_intro; [apply (IH1 _ _ _ H1)|apply (IH2 _ _ _ H2)].
  - cbn [matches] in H. apply in_app_iff in H as [H|H].
    + apply matches_alt_l, (IH1 _ _ _ H).
    + apply matches_alt_r, (IH2 _ _ _ H).
  - apply matches_opt_inv in H as [H|[-> _]].
    + cbn [matches]. apply in_app_iff. left. apply (IH1 _ _ _ H).
    + rewrite append_nil. apply matches_opt_skip.
  - apply (star_matches_spec p) in H as [_ A].
    apply (star_matches_prefix p), A.
  - pose proof (matches_plus_inv _ _ _ _ H) as [S A].
    destruct m as [|c m]; [discriminate|]. simpl in S, A. rewrite S in A. simpl in A.
    rewrite append_cons. cbn [matches]. rewrite S.
    apply in_map_iff. exists (m, rest'). split; [reflexivity|].
    apply star_matches_prefix, A.
Qed.

Lemma matches_test_anchored r s m rest :
  In (m, rest) (matches r s) -> test_anchored r m = true.
Proof.
  intros H. apply (matches_rest_irrelevant r s m rest) with (rest' := "") in H.
  rewrite append_empty_r in H.
  unfold test_anchored. apply existsb_exists. exists (m, ""). auto.
Qed.

Lemma group_match_kind s tok r : In (tok, r) (matches TOKEN_GROUP s) -> token_kind tok.
Proof.
  unfold TOKEN_GROUP. intros H. cbn [matches] in H.
  apply in_app_iff in H as [H|H]; [left; eapply matches_test_anchored, H|].
  apply in_app_iff in H as [H|H]; [right; left; eapply matches_test_anchored, H|].
  right. right.
  apply in_app_iff in H as [H|H].
  - apply matches_seq_inv in H as (m1 & m2 & s1 & -> & H1 & H2).
    apply matches_class_inv in H1 as (c1 & -> & E1).
    apply matches_class_inv in H2 as (c2 & -> & E2).
    apply Ascii.eqb_eq in E1, E2. subst. simpl. auto.
  - apply in_app_iff in H as [H|H].
    + apply matches_class_inv in H as (c & -> & E).
      apply Ascii.eqb_eq in E. subst. simpl. auto.
    + apply matches_class_inv in H as (c & -> & E).
      revert E. clear. unfold symbol_tokens.
      destruct c as [[] [] [] [] [] [] [] []]; vm_compute; intros E;
        try discriminate E; tauto.
Qed.

Lemma token_exec_kind s tok rest : token_exec s = Some (tok, rest) -> token_kind tok.
Proof.
  unfold token_exec. intros H.
  assert (Hin : In (tok, rest) (token_matches s)).
  { destruct (token_matches s) as [|x l]; [discriminate|].
    injection H as ->. left. reflexivity. }
  unfold token_matches in Hin. apply in_flat_map in Hin as (m1 & _ & Hin).
  apply in_flat_map in Hin as ([tok' s2] & H2 & Hin).
  apply in_map_iff in Hin as (m3 & [= <- _] & _).
  eapply group_match_kind, H2.
Qed.

Lemma tokenize_loop_kinds fuel : forall s acc tokens,
  tokenize_loop fuel s acc = Some tokens ->
  Forall token_kind acc -> Forall token_kind tokens.
Proof.
  induction fuel as [|fuel IH]; intros s acc tokens; [discriminate|].
  cbn [tokenize_loop]. destruct (token_exec s) as [[tok rest]|] eqn:E.
  - intros H Hacc. apply (IH _ _ _ H).
    apply Forall_app. split; [exact Hacc|].
    constructor; [|constructor]. eapply token_exec_kind, E.
  - intros [= <-] Hacc. exact Hacc.
Qed.

Lemma tokenize_kinds input tokens :
  tokenize input = Ok tokens ->
  Forall token_kind tokens /\ join "" tokens = strip_spaces input.
Proof.
  unfold tokenize.
  destruct (tokenize_loop _ _ _) as [toks|] eqn:E; [|discriminate].
  destruct (String.eqb_spec (join "" toks) (strip_spaces input)) as [Hj|]; [|discriminate].
  intros [= <-]. split; [|exact Hj].
  apply (tokenize_loop_kinds _ _ _ _ E). constructor.
Qed.

(** X1. Every token that [tokenize] returns is a number token, an
    identifier, or one of the symbols [**], [^], [(], [)], [+], [-], [*],
    [/] and [,]; together the tokens are the input without its white
    space. *)
Theorem tokens_are_classified (input : string) (tokens : list string) :
  tokenize input = Ok tokens ->
  Forall token_kind tokens /\ join "" tokens = strip_spaces input.
Proof. exact (tokenize_kinds input tokens). Qed.

Lemma tokens_are_classified_witness :
  tokenize "2*(x1+.5i)" = Ok ["2"; "*"; "("; "x1"; "+"; ".5i"; ")"]
  /\ Forall token_kind ["2"; "*"; "("; "x1"; "+"; ".5i"; ")"].
Proof.
  assert (H : tokenize "2*(x1+.5i)" = Ok ["2"; "*"; "("; "x1"; "+"; ".5i"; ")"])
    by reflexivity.
  split; [exact H|].
  exact (proj1 (tokens_are_classified "2*(x1+.5i)" _ H)).
Defined.

(** ** White space in front of the input *)

Lemma group_fails_on_space c s : is_space c = true -> matches TOKEN_GROUP (String c s) = [].
Proof.
  intros Hc. destruct (matches TOKEN_GROUP (String c s)) as [|[m r] l] eqn:E; [reflexivity|].
  exfalso.
  assert (Hin : In (m, r) (matches TOKEN_GROUP (String c s))) by (rewrite E; left; reflexivity).
  apply matches_spec in Hin as (Hs & A & N).
  destruct m as [|c' m]; [apply N; reflexivity|].
  rewrite append_cons in Hs. injection Hs as <- _.
  simpl in A. apply andb_true_iff in A as [A _].
  apply token_char_allowed in A as [_ A]. congruence.
Qed.

Lemma token_exec_skip_space c s :
  is_space c = true -> token_exec (String c s) = token_exec s.
Proof.
  intros Hc. unfold token_exec, token_matches.
  change (matches (RStar is_space) (String c s)) with (star_matches is_space (String c s)).
  change (matches (RStar is_space) s) with (star_matches is_space s).
  cbn [star_matches]. rewrite Hc, flat_map_app. cbn [flat_map fst snd].
  rewrite (group_fails_on_space c s Hc). cbn [flat_map app]. rewrite app_nil_r.
  rewrite flat_map_concat_map, map_map, <- flat_map_concat_map. reflexivity.
Qed.

Lemma tokenize_loop_enough fuel : forall fuel' s acc,
  String.length s < fuel -> String.length s < fuel' ->
  tokenize_loop fuel s acc = tokenize_loop fuel' s acc.
Proof.
  induction fuel as [|fuel IH]; intros [|fuel'] s acc H H'; try lia.
  cbn [tokenize_loop]. destruct (token_exec s) as [[tok rest]|] eqn:E; [|reflexivity].
  apply token_exec_spec in E as (pre & -> & Hstrip & _ & _ & (N & _)).
  rewrite append_length in H, H'.
  destruct pre; [exfalso; apply N; symmetry; exact Hstrip|].
  simpl in H, H'. apply IH; lia.
Qed.

Lemma tokenize_loop_step fuel s acc :
  tokenize_loop (S fuel) s acc
  = match token_exec s with
    | Some (tok, rest) => tokenize_loop fuel rest (acc ++ [tok])
    | None => Some acc
    end.
Proof. reflexivity. Qed.

Lemma tokenize_skip_space c s : is_space c = true -> tokenize (String c s) = tokenize s.
Proof.
  intros Hc. unfold tokenize. cbn [strip_spaces String.length]. rewrite Hc.
  rewrite (tokenize_loop_step (S (String.length s))), (tokenize_loop_step (String.length s)).
  rewrite (token_exec_skip_space c s Hc).
  destruct (token_exec s) as [[tok rest]|] eqn:E; [|reflexivity].
  apply token_exec_spec in E as (pre & -> & Hstrip & _ & _ & (N & _)).
  rewrite (tokenize_loop_enough (S (String.length (pre +:+ rest)))
             (String.length (pre +:+ rest)) rest); [reflexivity| |];
    rewrite append_length;
    (destruct pre; [exfalso; apply N; symmetry; exact Hstrip|]); simpl; lia.
Qed.

(** X2. White space in front of the input is ignored: the tokenizer, and
    so the parser, give the same result with and without it. *)
Theorem leading_space_is_ignored (w input : string) :
  string_forall is_space w = true ->
  tokenize (w +:+ input) = tokenize input
  /\ parseToAST (w +:+ input) = parseToAST input.
Proof.
  intros Hw.
  assert (H : tokenize (w +:+ input) = tokenize input).
  { induction w as [|c w IH]; [reflexivity|].
    simpl in Hw. apply andb_true_iff in Hw as [Hc Hw].
    rewrite append_cons, (tokenize_skip_space c _ Hc). apply IH, Hw. }
  split; [exact H|]. unfold parseToAST, to_rpn. rewrite H. reflexivity.
Qed.

Lemma leading_space_is_ignored_witness :
  string_forall is_space "  " = true
  /\ parseToAST "  a+1" = parseToAST "a+1".
Proof.
  assert (H : string_forall is_space "  " = true) by reflexivity.
  split; [exact H|].
  exact (proj2 (leading_space_is_ignored "  " "a+1" H)).
Defined.

(** ** What the parser builds and what it raises *)

Lemma pop_to_lparen_ok ops0 : forall out,
  Forall stack_item_ok ops0 -> Forall item_ok out ->
  Forall item_ok (fst (pop_to_lparen ops0 out))
  /\ Forall stack_item_ok (snd (pop_to_lparen ops0 out)).
Proof.
  induction ops0 as [|top rest IH]; intros out Hops Hout; [auto|].
  cbn [pop_to_lparen]. destruct (is_lparen top) eqn:E; [auto|].
  inversion Hops as [|? ? Htop Hrest]; subst.
  apply IH; [exact Hrest|]. apply Forall_app. split; [exact Hout|].
  constructor; [|constructor]. destruct Htop as [Htop|Htop]; [congruence|exact Htop].
Qed.

Lemma pop_operators_ok o1 ops0 : forall out,
  Forall stack_item_ok ops0 -> Forall item_ok out ->
  Forall item_ok (fst (pop_operators o1 ops0 out))
  /\ Forall stack_item_ok (snd (pop_operators o1 ops0 out)).
Proof.
  induction ops0 as [|top rest IH]; intros out Hops Hout; [auto|].
  cbn [pop_operators]. destruct top as [v|x|f|s]; try (split; assumption).
  destruct (String.eqb s "("); [auto|].
  destruct (lookup_op OPERATORS s) as [o2|] eqn:E; [|auto].
  destruct (match op_assoc o1 with L => _ | R => _ end); [|auto].
  inversion Hops as [|? ? _ Hrest]; subst.
  apply IH; [exact Hrest|]. apply Forall_app. split; [exact Hout|].
  constructor; [|constructor]. unfold item_ok, in_OPERATORS. rewrite E. reflexivity.
Qed.

Lemma symbol_is_operator t :
  In t symbol_tokens -> t <> "," -> t <> "(" -> t <> ")" ->
  in_OPERATORS t = true.
Proof.
  intros H H1 H2 H3. simpl in H.
  repeat destruct H as [<-|H]; try contradiction; try reflexivity; congruence.
Qed.

Lemma resolve_op_known p t : in_OPERATORS t = true -> in_OPERATORS (resolve_op p t) = true.
Proof. intros H. unfold resolve_op. destruct (_ && _); [reflexivity|exact H]. Qed.

(** One round of the first loop keeps the invariants of the two stacks
    and raises nothing but the two errors about commas and parentheses. *)
Lemma parse_step_ok st t next :
  token_kind t ->
  Forall item_ok (output st) -> Forall stack_item_ok (ops st) ->
  match parse_step st t next with
  | Ok st' => Forall item_ok (output st') /\ Forall stack_item_ok (ops st')
  | Throw e => e = UnexpectedComma \/ e = UnbalancedParentheses
  end.
Proof.
  intros Hk Hout Hops. unfold parse_step.
  destruct (isNumberToken t) eqn:Hnum.
  { cbn [output ops]. split; [|exact Hops].
    apply Forall_app. split; [exact Hout|]. constructor; [exact Hnum|constructor]. }
  destruct (isIdentifier t) eqn:Hid.
  { destruct (is_token next "("); cbn [output ops].
    - split; [exact Hout|]. constructor; [right; exact Hid|exact Hops].
    - split; [|exact Hops].
      apply Forall_app. split; [exact Hout|]. constructor; [exact Hid|constructor]. }
  destruct Hk as [Hk|[Hk|Hk]]; try congruence.
  destruct (String.eqb_spec t ",") as [->|Hc].
  { destruct (pop_to_lparen_ok (ops st) (output st) Hops Hout) as [H1 H2].
    destruct (pop_to_lparen (ops st) (output st)) as [out ops'].
    destruct ops'; [auto|]. cbn [output ops]. auto. }
  destruct (String.eqb_spec t "(") as [->|Ho].
  { cbn [output ops]. split; [exact Hout|]. constructor; [left; reflexivity|exact Hops]. }
  destruct (String.eqb_spec t ")") as [->|Hcl].
  { destruct (pop_to_lparen_ok (ops st) (output st) Hops Hout) as [H1 H2].
    destruct (pop_to_lparen (ops st) (output st)) as [out ops'].
    cbn [fst snd] in H1, H2.
    destruct ops' as [|top ops'']; [auto|].
    inversion H2 as [|? ? _ H2']; subst.
    destruct ops'' as [|[v|x|f|s] ops3]; cbn [output ops]; try (split; assumption).
    inversion H2' as [|? ? Hf H3]; subst. split; [|exact H3].
    apply Forall_app. split; [exact H1|]. constructor; [|constructor].
    destruct Hf as [Hf|Hf]; [discriminate Hf|exact Hf]. }
  pose proof (symbol_is_operator t Hk Hc Ho Hcl) as Hop.
  rewrite Hop. cbn [orb].
  pose proof (resolve_op_known (prev st) t Hop) as Hres.
  unfold in_OPERATORS in Hres.
  destruct (lookup_op OPERATORS (resolve_op (prev st) t)) as [o1|] eqn:E; [|discriminate].
  destruct (pop_operators_ok o1 (ops st) (output st) Hops Hout) as [H1 H2].
  destruct (pop_operators o1 (ops st) (output st)) as [out ops'].
  cbn [output ops fst snd] in *. split; [exact H1|].
  constructor; [|exact H2]. right. unfold item_ok, in_OPERATORS. rewrite E. reflexivity.
Qed.

Lemma parse_tokens_ok tokens : forall st,
  Forall token_kind tokens ->
  Forall item_ok (output st) -> Forall stack_item_ok (ops st) ->
  match parse_tokens tokens st with
  | Ok st' => Forall item_ok (output st') /\ Forall stack_item_ok (ops st')
  | Throw e => e = UnexpectedComma \/ e = UnbalancedParentheses
  end.
Proof.
  induction tokens as [|t rest IH]; intros st Hk Hout Hops; [simpl; auto|].
  inversion Hk as [|? ? Ht Hrest]; subst. cbn [parse_tokens].
  pose proof (parse_step_ok st t (head rest) Ht Hout Hops) as Hstep.
  destruct (parse_step st t (head rest)) as [st'|e]; cbn [rbind]; [|exact Hstep].
  destruct Hstep as [H1 H2]. apply IH; assumption.
Qed.

Lemma drain_ops_ok ops0 : forall out,
  Forall stack_item_ok ops0 -> Forall item_ok out ->
  match drain_ops ops0 out with
  | Ok out' => Forall item_ok out'
  | Throw e => e = UnbalancedParentheses
  end.
Proof.
  induction ops0 as [|top rest IH]; intros out Hops Hout; [exact Hout|].
  inversion Hops as [|? ? Htop Hrest]; subst. cbn [drain_ops].
  assert (Hpush : item_ok top -> Forall item_ok (out ++ [top])).
  { intros H. apply Forall_app. split; [exact Hout|]. constructor; [exact H|constructor]. }
  destruct top as [v|x|f|s];
    try (apply IH; [exact Hrest|]; apply Hpush;
         destruct Htop as [Htop|Htop]; [discriminate Htop|exact Htop]).
  destruct (String.eqb_spec s "(") as [->|Hs]; [reflexivity|].
  cbn [orb]. destruct (String.eqb s ")"); [reflexivity|].
  apply IH; [exact Hrest|]. apply Hpush.
  destruct Htop as [Htop|Htop]; [|exact Htop].
  simpl in Htop. apply String.eqb_eq in Htop. congruence.
Qed.

Lemma pop_args_ok e arity : forall stack args,
  Forall (fun n => well_formed n = true) stack ->
  Forall (fun n => well_formed n = true) args ->
  match pop_args e arity stack args with
  | Ok r =>
      length (fst r) = arity + length args
      /\ Forall (fun n => well_formed n = true) (fst r)
      /\ Forall (fun n => well_formed n = true) (snd r)
  | Throw e' => e' = e
  end.
Proof.
  induction arity as [|k IH]; intros stack args Hs Ha; [simpl; auto|].
  cbn [pop_args]. destruct stack as [|x stack]; [reflexivity|].
  inversion Hs as [|? ? Hx Hs']; subst.
  specialize (IH stack (x :: args) Hs' (@List.Forall_cons _ _ x args Hx Ha)).
  destruct (pop_args e k stack (x :: args)) as [r|e']; [|exact IH].
  destruct IH as (Hl & H1 & H2). simpl in Hl. split; [lia|auto].
Qed.

Lemma forallb_well_formed args :
  Forall (fun n => well_formed n = true) args -> forallb well_formed args = true.
Proof. induction 1 as [|x l Hx _ IH]; [reflexivity|]. simpl. rewrite Hx, IH. reflexivity. Qed.

Lemma build_step_ok stack tok :
  item_ok tok -> Forall (fun n => well_formed n = true) stack ->
  match build_step stack tok with
  | Ok stack' => Forall (fun n => well_formed n = true) stack'
  | Throw e => exists f, e = InsufficientArguments f
  end.
Proof.
  intros Htok Hs. destruct tok as [v|x|f|s]; cbn [build_step].
  - constructor; assumption.
  - constructor; assumption.
  - pose proof (pop_args_ok (InsufficientArguments f) (call_arity f) stack [] Hs
                  (List.Forall_nil _)) as H.
    fold (call_arity f).
    destruct (pop_args _ _ stack []) as [r|e]; cbn [rbind]; [|eauto].
    destruct H as (Hl & H1 & H2). constructor; [|exact H2].
    cbn [well_formed]. simpl in Htok. rewrite Htok, Hl, Nat.add_0_r, Nat.eqb_refl.
    apply forallb_well_formed, H1.
  - simpl in Htok. unfold in_OPERATORS in Htok.
    destruct (lookup_op OPERATORS s) as [info|] eqn:E; [|discriminate].
    pose proof (pop_args_ok (InsufficientArguments s) (op_args info) stack [] Hs
                  (List.Forall_nil _)) as H.
    destruct (pop_args _ _ stack []) as [r|e]; cbn [rbind]; [|eauto].
    destruct H as (Hl & H1 & H2). constructor; [|exact H2].
    cbn [well_formed]. rewrite E, Hl, Nat.add_0_r, Nat.eqb_refl.
    apply forallb_well_formed, H1.
Qed.

Lemma build_ast_ok rpn : forall stack,
  Forall item_ok rpn -> Forall (fun n => well_formed n = true) stack ->
  match build_ast rpn stack with
  | Ok stack' => Forall (fun n => well_formed n = true) stack'
  | Throw e => exists f, e = InsufficientArguments f
  end.
Proof.
  induction rpn as [|tok rest IH]; intros stack Hr Hs; [exact Hs|].
  inversion Hr as [|? ? Htok Hrest]; subst. cbn [build_ast].
  pose proof (build_step_ok stack tok Htok Hs) as H.
  destruct (build_step stack tok) as [stack'|e]; cbn [rbind]; [|exact H].
  apply IH; assumption.
Qed.

Lemma parseToAST_ok input :
  match parseToAST input with
  | Ok node => well_formed node = true
  | Throw e => parse_error e
  end.
Proof.
  unfold parseToAST, to_rpn, parse_error.
  destruct (tokenize input) as [tokens|e] eqn:Et; cbn [rbind].
  2:{ left. eapply tokenize_error, Et. }
  apply tokenize_kinds in Et as [Et _].
  pose proof (parse_tokens_ok tokens {| output := []; ops := []; prev := None |} Et
                (List.Forall_nil _) (List.Forall_nil _)) as Hp.
  destruct (parse_tokens tokens _) as [st|e]; cbn [rbind].
  2:{ destruct Hp as [-> | ->]; auto. }
  destruct Hp as [H1 H2].
  pose proof (drain_ops_ok (ops st) (output st) H2 H1) as Hd.
  destruct (drain_ops (ops st) (output st)) as [rpn|e]; cbn [rbind].
  2:{ subst e. auto. }
  pose proof (build_ast_ok rpn [] Hd (List.Forall_nil _)) as Hb.
  destruct (build_ast rpn []) as [stack|e]; cbn [rbind].
  2:{ do 4 right. exact Hb. }
  destruct stack as [|node [|n2 stack]]; auto.
  inversion Hb; assumption.
Qed.

(** X3. The parser raises only LexicalError, UnexpectedComma,
    UnbalancedParentheses, InsufficientArguments and MalformedExpression:
    its branches for an invalid token, an unknown operator and an internal
    error are never reached. *)
Theorem parser_errors (input : string) (e : error) :
  parseToAST input = Throw e -> parse_error e.
Proof. intros H. pose proof (parseToAST_ok input) as Hok. rewrite H in Hok. exact Hok. Qed.

Lemma parser_errors_witness :
  parseToAST "root(a)" = Throw (InsufficientArguments "root")
  /\ parse_error (InsufficientArguments "root").
Proof.
  assert (H : parseToAST "root(a)" = Throw (InsufficientArguments "root")) by reflexivity.
  split; [exact H|]. exact (parser_errors "root(a)" _ H).
Defined.

(** X4. Every tree the parser returns is well formed: its literals are
    number tokens, its variables and call names are identifiers, every
    operator node has an operator of the table with the number of
    arguments the table gives (one for the unary minus, two for the
    others), and every call node has two arguments if its name is [root]
    and one otherwise. *)
Theorem parsed_trees_are_well_formed (input : string) (node : ast) :
  parseToAST input = Ok node -> well_formed node = true.
Proof. intros H. pose proof (parseToAST_ok input) as Hok. rewrite H in Hok. exact Hok. Qed.

Lemma parsed_trees_are_well_formed_witness :
  parseToAST "root(-a, 2)" = Ok (Call "root" [Op "u-" [Var "a"]; Literal "2"])
  /\ well_formed (Call "root" [Op "u-" [Var "a"]; Literal "2"]) = true.
Proof.
  assert (H : parseToAST "root(-a, 2)"
              = Ok (Call "root" [Op "u-" [Var "a"]; Literal "2"])) by reflexivity.
  split; [exact H|]. exact (parsed_trees_are_well_formed _ _ H).
Defined.

(** ** The errors of an evaluation *)

Lemma sequence_throw {A} (l : list (option (result A))) e :
  sequence l = Some (Throw e) -> In (Some (Throw e)) l.
Proof.
  induction l as [|c l IH]; simpl; [discriminate|].
  destruct c as [[a|e']|]; simpl; [| |discriminate].
  - destruct (sequence l) as [[r|e']|]; simpl; try discriminate.
    intros [= ->]. right. apply IH. reflexivity.
  - intros [= ->]. left. reflexivity.
Qed.

Lemma sequence_length {A} (l : list (option (result A))) : forall vals,
  sequence l = Some (Ok vals) -> length vals = length l.
Proof.
  induction l as [|c l IH]; simpl; intros vals.
  - intros [= <-]. reflexivity.
  - destruct c as [[a|e']|]; simpl; try discriminate.
    destruct (sequence l) as [[r|e']|]; simpl; try discriminate.
    intros [= <-]. simpl. f_equal. apply IH. reflexivity.
Qed.

Lemma sequence_throw_map {A B} (f : A -> option (result B)) args e :
  sequence (map f args) = Some (Throw e) ->
  exists a, In a args /\ f a = Some (Throw e).
Proof.
  intros H. apply sequence_throw in H. apply in_map_iff in H as (a & Ha & Hin). eauto.
Qed.

Lemma operators_table op info :
  lookup_op OPERATORS op = Some info ->
  (op = "u-" /\ op_args info = 1)
  \/ (In op ["+"; "-"; "*"; "/"; "**"; "^"] /\ op_args info = 2).
Proof.
  unfold OPERATORS. cbn [lookup_op].
  repeat match goal with
         | |- context [String.eqb op ?k] =>
             destruct (String.eqb_spec op k) as [->|_];
             [intros [= <-]; simpl; intuition congruence|]
         end.
  discriminate.
Qed.

Lemma parseComplexLiteral_throw t e :
  parseComplexLiteral t = Throw e -> e = InvalidLiteral t.
Proof.
  unfold parseComplexLiteral.
  destruct (ends_with_i t); destruct (PrimFloat.is_nan _); congruence.
Qed.

Lemma div_throw a b e : div a b = Throw e -> e = DivisionByZero.
Proof. unfold div. destruct (PrimFloat.eqb _ _); congruence. Qed.

Section EvaluationErrors.

Variable M : MathLib.

Lemma pow_throw fuel a b e : pow M fuel a b = Some (Throw e) -> e = DivisionByZero.
Proof.
  unfold pow, pow_int. destruct (pow_guard b); [|discriminate].
  destruct (PrimFloat.eqb (re b) fzero); [discriminate|].
  destruct (pow_loop _ _ _ _ _); [|discriminate].
  destruct (negb _); [|discriminate].
  intros [= H]. eapply div_throw, H.
Qed.

Lemma root_throw a n e : root M a n = Throw e -> e = InvalidRootDegree.
Proof. unfold root. destruct (_ || _)%bool; congruence. Qed.

Lemma sequence_ok_cons {A} (c : option (result A)) l vals :
  sequence (c :: l) = Some (Ok vals) ->
  exists v vs, vals = v :: vs /\ c = Some (Ok v) /\ sequence l = Some (Ok vs).
Proof.
  cbn [sequence]. destruct c as [[v|e]|]; cbn [obind]; try discriminate.
  destruct (sequence l) as [[vs|e]|]; cbn [obind]; try discriminate.
  intros [= <-]. eauto.
Qed.

Lemma receiver_throw v e :
  receiver v = Throw e -> e = TypeError /\ exists x, v = VInherited x.
Proof. destruct v as [c|x]; [discriminate|]. intros [= <-]. eauto. Qed.

(** The inherited names are identifiers: the parser makes variables of
    them, and never looks them up in the table of operators. *)
Lemma inherited_names_are_identifiers :
  forallb isIdentifier Object_prototype_names = true.
Proof. vm_compute. reflexivity. Qed.

(** Only a variable node gives a value that is not a complex number. *)
Lemma evaluateAST_inherited fuel (env : environment) node x :
  evaluateAST M fuel node env = Some (Ok (VInherited x)) ->
  node = Var x /\ inherited x = true /\ env !! x = None.
Proof.
  destruct node as [value|name|name args|op args]; cbn [evaluateAST].
  - destruct (parseComplexLiteral value); discriminate.
  - destruct (env !! name) eqn:E; [discriminate|].
    destruct (inherited name) eqn:I; [|discriminate]. intros [= <-]. auto.
  - destruct (sequence _) as [[vals|e]|]; cbn [obind]; try discriminate.
    destruct (String.eqb name "conj").
    { destruct vals as [|v0 vals]; [discriminate|]. destruct (receiver v0); discriminate. }
    destruct (String.eqb name "sqrt").
    { destruct vals as [|v0 vals]; [discriminate|]. destruct (receiver v0); discriminate. }
    destruct (String.eqb name "root"); [|discriminate].
    destruct args as [|a0 [|a1 args]]; try discriminate.
    destruct vals as [|v0 vals]; try discriminate.
    destruct (evaluateAST M fuel a1 env) as [[nVal|e]|]; cbn [obind]; try discriminate.
    destruct (PrimFloat.ltb _ _); [discriminate|].
    destruct (receiver v0) as [c0|e]; cbn [rbind]; [|discriminate].
    destruct (root M c0 _); discriminate.
  - destruct (String.eqb op "u-").
    { destruct args as [|a0 args]; [discriminate|].
      destruct (evaluateAST M fuel a0 env) as [[v|e]|]; cbn [obind]; try discriminate.
      destruct (receiver v); discriminate. }
    destruct args as [|a0 [|a1 args]]; try discriminate.
    { destruct (evaluateAST M fuel a0 env) as [[v|e]|]; cbn [obind]; discriminate. }
    destruct (evaluateAST M fuel a0 env) as [[a|e]|]; cbn [obind]; try discriminate.
    destruct (evaluateAST M fuel a1 env) as [[b|e]|]; cbn [obind]; try discriminate.
    destruct (receiver a) as [ca|e]; cbn [rbind];
      repeat match goal with
             | |- context [if String.eqb op ?k then _ else _] =>
                 destruct (String.eqb op k); [try discriminate|]
             end; try discriminate.
    + destruct (div ca (operand b)); discriminate.
    + destruct (pow M fuel ca (operand b)) as [[c'|e]|]; discriminate.
    + destruct (pow M fuel ca (operand b)) as [[c'|e]|]; discriminate.
Qed.

(** A method call fails on the value of an argument only when the
    argument is a variable that is inherited and not bound. *)
Lemma receiver_inherited fuel (env : environment) a v e args :
  evaluateAST M fuel a env = Some (Ok v) -> receiver v = Throw e -> In a args ->
  e = TypeError
  /\ exists x, existsb (occurs x) args = true /\ inherited x = true /\ env !! x = None.
Proof.
  intros Ha Hr Hin. apply receiver_throw in Hr as [-> [x ->]].
  apply evaluateAST_inherited in Ha as (-> & Hi & Hx).
  split; [reflexivity|]. exists x. split; [|auto].
  apply existsb_exists. exists (Var x). split; [exact Hin|]. simpl. apply String.eqb_refl.
Qed.

Lemma evaluateAST_errors fuel (env : environment) : forall node e,
  well_formed node = true ->
  evaluateAST M fuel node env = Some (Throw e) ->
  evaluation_error e \/ (e = TypeError /\ reads_inherited env node).
Proof.
  intros node.
  induction node as [value|name|name args IH|op args IH] using ast_nested_ind;
    intros e Hwf; cbn [evaluateAST]; unfold evaluation_error.
  - destruct (parseComplexLiteral value) as [c|e'] eqn:E; cbn [rmap]; [discriminate|].
    intros [= <-]. apply parseComplexLiteral_throw in E. left. eauto 10.
  - destruct (env !! name); [discriminate|]. destruct (inherited name); [discriminate|].
    intros [= <-]. left. eauto 10.
  - cbn [well_formed] in Hwf.
    apply andb_true_iff in Hwf as [Hwf Hargs]. apply andb_true_iff in Hwf as [_ Hlen].
    apply Nat.eqb_eq in Hlen. unfold call_arity in Hlen.
    assert (HIH : forall a, In a args -> forall e,
              evaluateAST M fuel a env = Some (Throw e) ->
              evaluation_error e \/ (e = TypeError /\ reads_inherited env (Call name args))).
    { intros a Ha e0 He. rewrite List.Forall_forall in IH.
      rewrite List.forallb_forall in Hargs.
      destruct (IH a Ha e0 (Hargs a Ha) He) as [H|[-> (x & Hx & Hrest)]]; [left; exact H|].
      right. split; [reflexivity|]. exists x. split; [|exact Hrest].
      cbn [occurs]. apply existsb_exists. eauto. }
    assert (Hrec : forall a v e, In a args ->
              evaluateAST M fuel a env = Some (Ok v) -> receiver v = Throw e ->
              e = TypeError /\ reads_inherited env (Call name args)).
    { intros a v e0 Hin Ha Hv. eapply receiver_inherited; eauto. }
    destruct (sequence _) as [[vals|e0]|] eqn:E; cbn [obind]; [| |discriminate].
    2:{ intros [= <-]. apply sequence_throw_map in E as (a & Ha & E). eapply HIH; eauto. }
    destruct args as [|a0 args]; [destruct (String.eqb name "root"); discriminate Hlen|].
    cbn [map] in E. apply sequence_ok_cons in E as (v0 & vs & -> & E0 & Evs).
    destruct (String.eqb_spec name "conj") as [->|Hconj].
    { destruct (receiver v0) as [c0|e0] eqn:R; cbn [rbind]; [discriminate|].
      intros [= <-]. right. apply (Hrec a0 v0); [left; reflexivity|assumption..]. }
    destruct (String.eqb_spec name "sqrt") as [->|Hsqrt].
    { destruct (receiver v0) as [c0|e0] eqn:R; cbn [rbind]; [discriminate|].
      intros [= <-]. right. apply (Hrec a0 v0); [left; reflexivity|assumption..]. }
    destruct (String.eqb_spec name "root") as [->|Hroot].
    { destruct args as [|a1 rest]; [discriminate Hlen|].
      destruct (evaluateAST M fuel a1 env) as [[nVal|e1]|] eqn:E1; cbn [obind];
        [| |discriminate].
      - destruct (PrimFloat.ltb _ _); [intros [= <-]; left; auto|].
        destruct (receiver v0) as [c0|e0] eqn:R; cbn [rbind].
        + destruct (root M c0 _) as [c'|e0] eqn:Rt; cbn [rmap]; [discriminate|].
          intros [= <-]. apply root_throw in Rt. left. auto.
        + intros [= <-]. right. apply (Hrec a0 v0); [left; reflexivity|assumption..].
      - intros [= <-]. apply (HIH a1); [simpl; auto|exact E1]. }
    intros [= <-]. left. do 5 right. exists name. split; [reflexivity|].
    simpl. intros [H|[H|[H|[]]]]; congruence.
  - cbn [well_formed] in Hwf. apply andb_true_iff in Hwf as [Hop Hargs].
    destruct (lookup_op OPERATORS op) as [info|] eqn:Einfo; [|discriminate].
    apply Nat.eqb_eq in Hop.
    assert (HIH : forall a, In a args -> forall e,
              evaluateAST M fuel a env = Some (Throw e) ->
              evaluation_error e \/ (e = TypeError /\ reads_inherited env (Op op args))).
    { intros a Ha e0 He. rewrite List.Forall_forall in IH.
      rewrite List.forallb_forall in Hargs.
      destruct (IH a Ha e0 (Hargs a Ha) He) as [H|[-> (x & Hx & Hrest)]]; [left; exact H|].
      right. split; [reflexivity|]. exists x. split; [|exact Hrest].
      cbn [occurs]. apply existsb_exists. eauto. }
    assert (Hrec : forall a v e, In a args ->
              evaluateAST M fuel a env = Some (Ok v) -> receiver v = Throw e ->
              e = TypeError /\ reads_inherited env (Op op args)).
    { intros a v e0 Hin Ha Hv. eapply receiver_inherited; eauto. }
    apply operators_table in Einfo as [[-> Hn]|[Hin Hn]]; rewrite Hn in Hop.
    + destruct args as [|a0 rest]; [discriminate|].
      change (String.eqb "u-" "u-") with true. cbv iota.
      destruct (evaluateAST M fuel a0 env) as [[v|e0]|] eqn:E0; cbn [obind];
        [| |discriminate].
      * destruct (receiver v) as [c|e0] eqn:R; cbn [rbind]; [discriminate|].
        intros [= <-]. right. apply (Hrec a0 v); [left; reflexivity|assumption..].
      * intros [= <-]. apply (HIH a0); [simpl; auto|exact E0].
    + destruct args as [|a0 [|a1 rest]]; try discriminate.
      assert (Hu : String.eqb op "u-" = false).
      { simpl in Hin. repeat destruct Hin as [<-|Hin]; try reflexivity. destruct Hin. }
      rewrite Hu.
      destruct (evaluateAST M fuel a0 env) as [[a|e0]|] eqn:E0; cbn [obind];
        [| |discriminate].
      2:{ intros [= <-]. apply (HIH a0); [simpl; auto|exact E0]. }
      destruct (evaluateAST M fuel a1 env) as [[b|e1]|] eqn:E1; cbn [obind];
        [| |discriminate].
      2:{ intros [= <-]. apply (HIH a1); [simpl; auto|exact E1]. }
      destruct (receiver a) as [ca|e0] eqn:R; cbn [rbind].
      2:{ intros H. right. apply (Hrec a0 a); [left; reflexivity|exact E0|].
          rewrite R. f_equal. simpl in Hin.
          repeat destruct Hin as [<-|Hin]; try destruct Hin; simpl in H; congruence. }
      simpl in Hin.
      repeat destruct Hin as [<-|Hin]; try destruct Hin; simpl; try discriminate.
      * destruct (div ca (operand b)) as [c'|e0] eqn:D; cbn [rmap]; [discriminate|].
        intros [= <-]. apply div_throw in D. left. auto.
      * destruct (pow M fuel ca (operand b)) as [[c'|e0]|] eqn:P; simpl; try discriminate.
        intros [= <-]. apply pow_throw in P. left. auto.
      * destruct (pow M fuel ca (operand b)) as [[c'|e0]|] eqn:P; simpl; try discriminate.
        intros [= <-]. apply pow_throw in P. left. auto.
Qed.

(** An evaluation raises UnboundVariable for a variable of the tree that
    the environment does not bind. *)
Lemma evaluateAST_unbound fuel (env : environment) x : forall node,
  evaluateAST M fuel node env = Some (Throw (UnboundVariable x)) ->
  occurs x node = true /\ env !! x = None.
Proof.
  intros node.
  induction node as [value|name|name args IH|op args IH] using ast_nested_ind;
    cbn [evaluateAST occurs].
  - destruct (parseComplexLiteral value) as [c|e'] eqn:E; cbn [rmap]; [discriminate|].
    intros [= ->]. apply parseComplexLiteral_throw in E. discriminate.
  - destruct (env !! name) eqn:E; [discriminate|].
    destruct (inherited name); [discriminate|].
    intros [= <-]. rewrite String.eqb_refl. auto.
  - assert (HIH : forall a, In a args ->
              evaluateAST M fuel a env = Some (Throw (UnboundVariable x)) ->
              existsb (occurs x) args = true /\ env !! x = None).
    { intros a Ha H. rewrite List.Forall_forall in IH.
      destruct (IH a Ha H) as [H1 H2]. split; [|exact H2].
      apply existsb_exists. eauto. }
    destruct (sequence _) as [[vals|e0]|] eqn:E; cbn [obind]; [| |discriminate].
    2:{ intros [= ->]. apply sequence_throw_map in E as (a & Ha & E). eauto. }
    destruct (String.eqb name "conj").
    { destruct vals as [|[c|y] vals]; discriminate. }
    destruct (String.eqb name "sqrt").
    { destruct vals as [|[c|y] vals]; discriminate. }
    destruct (String.eqb name "root"); [|discriminate].
    destruct args as [|a0 [|a1 rest]]; try discriminate.
    destruct vals as [|v0 vals]; [discriminate|].
    destruct (evaluateAST M fuel a1 env) as [[nVal|e1]|] eqn:E1; cbn [obind];
      [| |discriminate].
    + destruct (PrimFloat.ltb _ _); [discriminate|].
      destruct v0 as [c0|y]; cbn [receiver rbind]; [|discriminate].
      destruct (root M c0 _) as [c'|e0] eqn:Rt; cbn [rmap]; [discriminate|].
      intros [= ->]. apply root_throw in Rt. discriminate.
    + intros [= ->]. apply (HIH a1); [simpl; auto|exact E1].
  - assert (HIH : forall a, In a args ->
              evaluateAST M fuel a env = Some (Throw (UnboundVariable x)) ->
              existsb (occurs x) args = true /\ env !! x = None).
    { intros a Ha H. rewrite List.Forall_forall in IH.
      destruct (IH a Ha H) as [H1 H2]. split; [|exact H2].
      apply existsb_exists. eauto. }
    destruct (String.eqb op "u-").
    + destruct args as [|a0 rest]; [discriminate|].
      destruct (evaluateAST M fuel a0 env) as [[v|e0]|] eqn:E0; cbn [obind];
        [| |discriminate].
      * destruct v; discriminate.
      * intros [= ->]. apply (HIH a0); [simpl; auto|exact E0].
    + destruct args as [|a0 rest]; [discriminate|].
      destruct (evaluateAST M fuel a0 env) as [[a|e0]|] eqn:E0; cbn [obind];
        [| |discriminate].
      2:{ intros [= ->]. apply (HIH a0); [simpl; auto|exact E0]. }
      destruct rest as [|a1 rest]; [discriminate|].
      destruct (evaluateAST M fuel a1 env) as [[b|e1]|] eqn:E1; cbn [obind];
        [| |discriminate].
      2:{ intros [= ->]. apply (HIH a1); [simpl; auto|exact E1]. }
      destruct a as [ca|y]; cbn [receiver rbind];
        repeat (match goal with |- context [if ?c then _ else _] => destruct c end;
                try discriminate).
      * destruct (div ca (operand b)) as [c'|e0] eqn:D; cbn [rmap]; [discriminate|].
        intros [= ->]. apply div_throw in D. discriminate.
      * destruct (pow M fuel ca (operand b)) as [[c'|e0]|] eqn:P; simpl; try discriminate.
        intros [= ->]. apply pow_throw in P. discriminate.
      * destruct (pow M fuel ca (operand b)) as [[c'|e0]|] eqn:P; simpl; try discriminate.
        intros [= ->]. apply pow_throw in P. discriminate.
Qed.

(** The result of an evaluation depends on the environment through the
    variables of the tree only. *)
Lemma evaluateAST_env fuel (env1 env2 : environment) : forall node,
  (forall x, occurs x node = true -> env1 !! x = env2 !! x) ->
  evaluateAST M fuel node env1 = evaluateAST M fuel node env2.
Proof.
  intros node.
  induction node as [value|name|name args IH|op args IH] using ast_nested_ind;
    intros Henv; cbn [evaluateAST].
  - reflexivity.
  - rewrite (Henv name) by (simpl; apply String.eqb_refl). reflexivity.
  - assert (HIH : forall a, In a args ->
              evaluateAST M fuel a env1 = evaluateAST M fuel a env2).
    { intros a Ha. rewrite List.Forall_forall in IH. apply IH; [exact Ha|].
      intros x Hx. apply Henv. cbn [occurs]. apply existsb_exists. eauto. }
    rewrite (map_ext_in _ _ args HIH).
    destruct args as [|a0 [|a1 rest]]; try reflexivity.
    rewrite (HIH a1) by (simpl; auto). reflexivity.
  - assert (HIH : forall a, In a args ->
              evaluateAST M fuel a env1 = evaluateAST M fuel a env2).
    { intros a Ha. rewrite List.Forall_forall in IH. apply IH; [exact Ha|].
      intros x Hx. apply Henv. cbn [occurs]. apply existsb_exists. eauto. }
    destruct args as [|a0 rest]; [reflexivity|].
    rewrite (HIH a0) by (simpl; auto).
    destruct rest as [|a1 rest]; [reflexivity|].
    rewrite (HIH a1) by (simpl; auto). reflexivity.
Qed.

Lemma sequence_some {A B} (f : A -> option (result B)) args :
  (forall a, In a args -> exists r, f a = Some r) ->
  exists r, sequence (map f args) = Some r.
Proof.
  induction args as [|a args IH]; intros H; simpl; [eauto|].
  destruct (H a) as [[v|e] ->]; [simpl; auto| |simpl; eauto]. simpl.
  destruct IH as [[vs|e] ->]; [intros; apply H; simpl; auto| |]; simpl; eauto.
Qed.

(** Only a power loop can use up the fuel. *)
Lemma evaluateAST_power_free fuel (env : environment) : forall node,
  power_free node = true -> exists r, evaluateAST M fuel node env = Some r.
Proof.
  intros node.
  induction node as [value|name|name args IH|op args IH] using ast_nested_ind;
    intros Hpf; cbn [evaluateAST]; cbn [power_free] in Hpf.
  - eauto.
  - destruct (env !! name); [eauto|]. destruct (inherited name); eauto.
  - assert (HIH : forall a, In a args -> exists r, evaluateAST M fuel a env = Some r).
    { intros a Ha. rewrite List.Forall_forall in IH. apply IH; [exact Ha|].
      rewrite List.forallb_forall in Hpf. auto. }
    destruct (sequence_some (fun a => evaluateAST M fuel a env) args HIH) as [[vals|e] ->];
      cbn [obind]; [|eauto].
    destruct (String.eqb name "conj"); [destruct vals; eauto|].
    destruct (String.eqb name "sqrt"); [destruct vals; eauto|].
    destruct (String.eqb name "root"); [|eauto].
    destruct args as [|a0 [|a1 rest]]; eauto.
    destruct vals as [|v0 vals]; eauto.
    destruct (HIH a1) as [[nVal|e] ->]; [simpl; auto| |]; cbn [obind]; [|eauto].
    destruct (PrimFloat.ltb _ _); eauto.
  - apply andb_true_iff in Hpf as [Hop Hargs]. apply andb_true_iff in Hop as [H1 H2].
    apply negb_true_iff in H1, H2.
    assert (HIH : forall a, In a args -> exists r, evaluateAST M fuel a env = Some r).
    { intros a Ha. rewrite List.Forall_forall in IH. apply IH; [exact Ha|].
      rewrite List.forallb_forall in Hargs. auto. }
    destruct (String.eqb op "u-").
    + destruct args as [|a0 rest]; [eauto|].
      destruct (HIH a0) as [[v|e] ->]; [simpl; auto| |]; cbn [obind]; eauto.
    + destruct args as [|a0 rest]; [eauto|].
      destruct (HIH a0) as [[a|e] ->]; [simpl; auto| |]; cbn [obind]; [|eauto].
      destruct rest as [|a1 rest]; [eauto|].
      destruct (HIH a1) as [[b|e] ->]; [simpl; auto| |]; cbn [obind]; [|eauto].
      rewrite H1, H2.
      repeat (match goal with |- context [if ?c then _ else _] => destruct c end; eauto).
Qed.

(** With every variable of the tree bound, a value is a complex
    number. *)
Lemma evaluateAST_bound_complex fuel (env : environment) node v :
  (forall x, occurs x node = true -> env !! x <> None) ->
  evaluateAST M fuel node env = Some (Ok v) -> exists c, v = VComplex c.
Proof.
  intros Hb H. destruct v as [c|x]; [eauto|].
  apply evaluateAST_inherited in H as (-> & _ & Hx).
  exfalso. apply (Hb x); [simpl; apply String.eqb_refl|exact Hx].
Qed.

End EvaluationErrors.

(** X5. The evaluation of a well-formed tree, so of every tree of the
    parser, raises only DivisionByZero, InvalidRootDegree,
    NonIntegerRootDegree, InvalidLiteral, UnboundVariable, UnknownFunction
    for a name other than conj, sqrt and root, and a TypeError; and a
    TypeError only when a variable of the tree has no binding and a name
    that every object inherits ([toString], [constructor], ...): [in] then
    holds, the value read is not a complex number, and a method call on it
    fails.  A missing argument or an operator without implementation is
    never met. *)
Theorem evaluation_errors (M : MathLib) (fuel : nat) (node : ast)
    (env : environment) (e : error) :
  well_formed node = true ->
  evaluateAST M fuel node env = Some (Throw e) ->
  evaluation_error e \/ (e = TypeError /\ reads_inherited env node).
Proof. apply evaluateAST_errors. Qed.

Lemma evaluation_errors_witness :
  well_formed (Op "+" [Var "toString"; Literal "1"]) = true
  /\ evaluateAST reference_math 0 (Op "+" [Var "toString"; Literal "1"]) ∅
     = Some (Throw TypeError)
  /\ (evaluation_error TypeError
      \/ (TypeError = TypeError
          /\ reads_inherited ∅ (Op "+" [Var "toString"; Literal "1"]))).
Proof.
  assert (H1 : well_formed (Op "+" [Var "toString"; Literal "1"]) = true)
    by reflexivity.
  assert (H2 : evaluateAST reference_math 0
                 (Op "+" [Var "toString"; Literal "1"]) ∅
               = Some (Throw TypeError)) by (vm_compute; reflexivity).
  split; [exact H1|]. split; [exact H2|].
  exact (evaluation_errors reference_math 0 _ ∅ _ H1 H2).
Defined.

(** With an empty environment, the variable [toString] reads the function
    that every object inherits: as the left operand of [+] it has no method
    [add], and as the right operand it gives [NaN] components, which the
    constructor replaces by 0. *)
Lemma inherited_name_examples :
  parseToAST "toString+1" = Ok (Op "+" [Var "toString"; Literal "1"])
  /\ evaluateAST reference_math 0 (Var "toString") ∅ = Some (Ok (VInherited "toString"))
  /\ evaluates reference_math "toString+1" ∅ (Throw TypeError)
  /\ evaluates reference_math "1+toString" ∅ (Ok (mkComplex 0 0))
  /\ evaluates reference_math "tostring+1" ∅ (Throw (UnboundVariable "tostring")).
Proof.
  split; [vm_compute; reflexivity|]. split; [vm_compute; reflexivity|].
  split; [evaluates_by_computation|]. split; evaluates_by_computation.
Qed.

(** X6. An evaluation raises UnboundVariable only for a variable that
    occurs in the tree and has no binding in the environment; so with
    every variable of the tree bound, it never raises it. *)
Theorem unbound_variable_is_missing (M : MathLib) (fuel : nat) (node : ast)
    (env : environment) (x : string) :
  evaluateAST M fuel node env = Some (Throw (UnboundVariable x)) ->
  occurs x node = true /\ env !! x = None.
Proof. apply evaluateAST_unbound. Qed.

Lemma unbound_variable_is_missing_witness :
  evaluateAST reference_math 0 (Op "+" [Var "a"; Var "b"])
    (<["a" := new_Complex 1 2]> ∅) = Some (Throw (UnboundVariable "b"))
  /\ occurs "b" (Op "+" [Var "a"; Var "b"]) = true.
Proof.
  assert (H : evaluateAST reference_math 0 (Op "+" [Var "a"; Var "b"])
                (<["a" := new_Complex 1 2]> ∅) = Some (Throw (UnboundVariable "b")))
    by (vm_compute; reflexivity).
  split; [exact H|].
  exact (proj1 (unbound_variable_is_missing reference_math 0 _ _ _ H)).
Defined.

(** X7. The result of an evaluation depends on the environment only
    through the variables of the tree: two environments that agree on them
    give the same result, error or lack of fuel. *)
Theorem evaluation_reads_its_variables (M : MathLib) (fuel : nat) (node : ast)
    (env1 env2 : environment) :
  (forall x, occurs x node = true -> env1 !! x = env2 !! x) ->
  evaluateAST M fuel node env1 = evaluateAST M fuel node env2.
Proof. apply evaluateAST_env. Qed.

Lemma evaluation_reads_its_variables_witness :
  evaluateAST reference_math 0 (Op "*" [Var "a"; Literal "2"])
    (<["a" := new_Complex 1 2]> ∅)
  = evaluateAST reference_math 0 (Op "*" [Var "a"; Literal "2"])
      (<["b" := new_Complex 3 4]> (<["a" := new_Complex 1 2]> ∅)).
Proof.
  apply (evaluation_reads_its_variables reference_math 0
           (Op "*" [Var "a"; Literal "2"])).
  intros x Hx. simpl in Hx. rewrite orb_false_r in Hx.
  apply String.eqb_eq in Hx. subst x. reflexivity.
Defined.

(** X8. The evaluation of a tree without a power node finishes whatever
    the fuel, with a value or an error: only the multiplication loop of
    [pow] can fail to end. *)
Theorem evaluation_without_power_finishes (M : MathLib) (fuel : nat) (node : ast)
    (env : environment) :
  power_free node = true -> exists r, evaluateAST M fuel node env = Some r.
Proof. apply evaluateAST_power_free. Qed.

Lemma evaluation_without_power_finishes_witness :
  power_free (Op "/" [Call "sqrt" [Var "a"]; Literal "3i"]) = true
  /\ exists r, evaluateAST reference_math 0
                 (Op "/" [Call "sqrt" [Var "a"]; Literal "3i"]) ∅ = Some r.
Proof.
  split; [reflexivity|].
  apply (evaluation_without_power_finishes reference_math 0). reflexivity.
Defined.

(** ** The variables of a tree *)

Lemma set_add_in x set y : In y (set_add x set) <-> In y set \/ y = x.
Proof.
  unfold set_add. destruct (existsb (String.eqb x) set) eqn:E.
  - split; [auto|]. intros [H| ->]; [exact H|].
    apply existsb_exists in E as (z & Hz & Ez). apply String.eqb_eq in Ez. subst z. exact Hz.
  - rewrite in_app_iff. simpl. intuition.
Qed.

Lemma set_add_NoDup x set : NoDup set -> NoDup (set_add x set).
Proof.
  intros H. unfold set_add. destruct (existsb (String.eqb x) set) eqn:E; [exact H|].
  apply NoDup_app. split; [exact H|]. split; [|apply NoDup_singleton].
  intros y Hy Hx. apply list_elem_of_singleton in Hx. subst y.
  apply list_elem_of_In in Hy.
  assert (existsb (String.eqb x) set = true); [|congruence].
  apply existsb_exists. exists x. split; [exact Hy|apply String.eqb_refl].
Qed.

Lemma collectVars_fold_in (P : ast -> Prop) (args : list ast) y :
  Forall (fun a => forall set, In y (collectVars a set) <-> In y set \/ occurs y a = true) args ->
  forall set, In y (fold_left (fun s a => collectVars a s) args set)
              <-> In y set \/ existsb (occurs y) args = true.
Proof.
  induction 1 as [|a args Ha _ IH]; intros set; simpl.
  - intuition discriminate.
  - rewrite IH, Ha, orb_true_iff. tauto.
Qed.

Lemma collectVars_in y : forall node set,
  In y (collectVars node set) <-> In y set \/ occurs y node = true.
Proof.
  intros node.
  induction node as [value|name|name args IH|op args IH] using ast_nested_ind;
    intros set; cbn [collectVars occurs].
  - intuition discriminate.
  - rewrite set_add_in, String.eqb_eq. tauto.
  - apply (collectVars_fold_in (fun _ => True)), IH.
  - apply (collectVars_fold_in (fun _ => True)), IH.
Qed.

Lemma collectVars_fold_NoDup (args : list ast) :
  Forall (fun a => forall set, NoDup set -> NoDup (collectVars a set)) args ->
  forall set, NoDup set -> NoDup (fold_left (fun s a => collectVars a s) args set).
Proof. induction 1 as [|a args Ha _ IH]; intros set Hset; simpl; auto. Qed.

Lemma collectVars_NoDup : forall node set, NoDup set -> NoDup (collectVars node set).
Proof.
  intros node.
  induction node as [value|name|name args IH|op args IH] using ast_nested_ind;
    intros set Hset; cbn [collectVars].
  - exact Hset.
  - apply set_add_NoDup, Hset.
  - apply collectVars_fold_NoDup; assumption.
  - apply collectVars_fold_NoDup; assumption.
Qed.

(** X9. [collectVars] returns the variables of the tree, each once: a name
    is in the set of a tree exactly when a variable node of the tree has
    that name. *)
Theorem collected_variables (node : ast) :
  NoDup (collectVars node [])
  /\ (forall x, In x (collectVars node []) <-> occurs x node = true).
Proof.
  split; [apply collectVars_NoDup; constructor|].
  intros x. rewrite collectVars_in. simpl. tauto.
Qed.

(** ** The equality check *)

Lemma fold_set_add_in y (l : list string) : forall acc,
  In y (fold_left (fun s x => set_add x s) l acc) <-> In y acc \/ In y l.
Proof.
  induction l as [|x l IH]; intros acc; simpl; [tauto|].
  rewrite IH, set_add_in. intuition.
Qed.

Lemma all_vars_in ast1 ast2 y :
  In y (all_vars ast1 ast2) <-> occurs y ast1 = true \/ occurs y ast2 = true.
Proof.
  unfold all_vars. rewrite fold_set_add_in, in_app_iff, !collectVars_in. simpl. tauto.
Qed.

Section Check.

Variable M : MathLib.
Variable rand : nat -> float.

Lemma random_env_binds (vars : list string) x : forall k (env : environment),
  In x vars \/ is_Some (env !! x) ->
  is_Some (fst (random_env rand vars k env) !! x).
Proof.
  induction vars as [|v vars IH]; intros k env H; cbn [random_env].
  - destruct H as [[]|H]. exact H.
  - apply IH. destruct H as [[->|H]|H]; [right|left; exact H|right].
    + rewrite lookup_insert_eq. eauto.
    + apply lookup_insert_is_Some'. right. exact H.
Qed.

Lemma run_round_caught fuel ast1 ast2 tol (env : environment) e :
  run_round M fuel ast1 ast2 tol env = Some (Caught e) ->
  evaluateAST M fuel ast1 env = Some (Throw e)
  \/ evaluateAST M fuel ast2 env = Some (Throw e)
  \/ exists x, evaluateAST M fuel ast1 env = Some (Ok (VInherited x)).
Proof.
  unfold run_round.
  destruct (evaluateAST M fuel ast1 env) as [[r1|e1]|]; [| |discriminate].
  - destruct (evaluateAST M fuel ast2 env) as [[r2|e2]|]; [| |discriminate].
    + destruct r1 as [c1|x]; cbn [receiver]; [destruct (negb _); discriminate|].
      intros _. right. right. eauto.
    + intros [= ->]. auto.
  - intros [= ->]. auto.
Qed.

Lemma run_round_compared fuel ast1 ast2 tol (env : environment) (b : bool) :
  run_round M fuel ast1 ast2 tol env = Some (if b then Agree else Mismatch) ->
  exists c1 r2,
    evaluateAST M fuel ast1 env = Some (Ok (VComplex c1))
    /\ evaluateAST M fuel ast2 env = Some (Ok r2)
    /\ eq_tol c1 (operand r2) tol = b.
Proof.
  unfold run_round.
  destruct (evaluateAST M fuel ast1 env) as [[r1|e1]|]; [| |discriminate].
  - destruct (evaluateAST M fuel ast2 env) as [[r2|e2]|]; [| |discriminate].
    + destruct r1 as [c1|x]; cbn [receiver]; [|destruct b; discriminate].
      intros H. exists c1, r2. split; [reflexivity|]. split; [reflexivity|].
      destruct (eq_tol c1 (operand r2) tol), b; simpl in H; congruence.
    + destruct b; discriminate.
  - destruct b; discriminate.
Qed.

(** The environment of a round binds the variables of both trees. *)
Lemma round_env_binds ast1 ast2 k x :
  occurs x ast1 = true \/ occurs x ast2 = true ->
  fst (random_env rand (all_vars ast1 ast2) k ∅) !! x <> None.
Proof.
  intros Hx. apply all_vars_in in Hx.
  pose proof (random_env_binds (all_vars ast1 ast2) x k ∅ (or_introl Hx)) as [v Hv].
  congruence.
Qed.

(** So the values of a round are complex numbers. *)
Lemma round_compared fuel ast1 ast2 tol k (b : bool) :
  run_round M fuel ast1 ast2 tol (fst (random_env rand (all_vars ast1 ast2) k ∅))
  = Some (if b then Agree else Mismatch) ->
  exists c1 c2,
    evaluateAST M fuel ast1 (fst (random_env rand (all_vars ast1 ast2) k ∅))
    = Some (Ok (VComplex c1))
    /\ evaluateAST M fuel ast2 (fst (random_env rand (all_vars ast1 ast2) k ∅))
       = Some (Ok (VComplex c2))
    /\ eq_tol c1 c2 tol = b.
Proof.
  intros H. apply run_round_compared in H as (c1 & r2 & H1 & H2 & H).
  assert (Hc : exists c2, r2 = VComplex c2).
  { apply (evaluateAST_bound_complex M fuel _ ast2 r2) in H2; [exact H2|].
    intros x Hx. apply round_env_binds. auto. }
  destruct Hc as [c2 ->]. eauto.
Qed.

(** Every error of the loop comes from a round. *)
Lemma trials_error fuel ast1 ast2 vars tries tol e : forall rounds t k,
  trials M rand fuel rounds ast1 ast2 vars tries tol t k = Some (Throw e) ->
  exists k',
    run_round M fuel ast1 ast2 tol (fst (random_env rand vars k' ∅)) = Some (Caught e).
Proof.
  induction rounds as [|rounds IH]; intros t k; cbn [trials];
    destruct (t <? tries)%Z; try discriminate.
  destruct (random_env rand vars k ∅) as [env k'] eqn:Eenv.
  assert (Henv : env = fst (random_env rand vars k ∅)) by (rewrite Eenv; reflexivity).
  destruct (run_round M fuel ast1 ast2 tol env) as [[| |e']|] eqn:Er; try discriminate.
  - apply IH.
  - destruct (t - 1 <? 0)%Z; [|apply IH].
    intros [= <-]. exists k. rewrite <- Henv. exact Er.
Qed.

(** Every answer of the loop comes from a round that the loop reached. *)
Lemma trials_answer fuel ast1 ast2 vars tries tol (b : bool) : forall rounds t k,
  round_reached M rand fuel ast1 ast2 vars tries tol t k ->
  loop_invariant M rand fuel ast1 ast2 vars tries tol t ->
  (0 < tries)%Z ->
  trials M rand fuel rounds ast1 ast2 vars tries tol t k = Some (Ok b) ->
  exists t' k',
    round_reached M rand fuel ast1 ast2 vars tries tol t' k'
    /\ (t' < tries)%Z
    /\ (b = true -> t' = (tries - 1)%Z)
    /\ run_round M fuel ast1 ast2 tol (fst (random_env rand vars k' ∅))
       = Some (if b then Agree else Mismatch).
Proof.
  induction rounds as [|rounds IH]; intros t k Hr [Ht Hinv] Hpos; cbn [trials];
    destruct (Z.ltb_spec t tries) as [Hlt|Hge]; try discriminate.
  1,3: intros [= <-]; destruct Hinv as [->|(k0 & Hk0 & Hagree)]; [lia|];
       exists (t - 1)%Z, k0; (split; [exact Hk0|]); (split; [lia|]);
       (split; [intros _; lia|exact Hagree]).
  destruct (random_env rand vars k ∅) as [env k'] eqn:Eenv.
  assert (Henv : env = fst (random_env rand vars k ∅)) by (rewrite Eenv; reflexivity).
  assert (Hk' : k' = snd (random_env rand vars k ∅)) by (rewrite Eenv; reflexivity).
  destruct (run_round M fuel ast1 ast2 tol env) as [[| |e]|] eqn:Er; [| | |discriminate].
  - intros [= <-]. exists t, k. rewrite <- Henv. split; [exact Hr|].
    split; [exact Hlt|]. split; [discriminate|exact Er].
  - apply IH; [| |exact Hpos].
    + rewrite Hk'. apply reached_agree; [exact Hr|exact Hlt|]. rewrite <- Henv. exact Er.
    + split; [lia|]. right. exists k. replace (t + 1 - 1)%Z with t by lia.
      split; [exact Hr|]. rewrite <- Henv. exact Er.
  - destruct (Z.ltb_spec (t - 1) 0) as [Hneg|Hnn]; [discriminate|].
    replace (t - 1 + 1)%Z with t by lia. apply IH; [| |exact Hpos].
    + rewrite Hk'. apply (reached_caught _ _ _ _ _ _ _ _ _ _ e); [exact Hr|exact Hlt| |lia].
      rewrite <- Henv. exact Er.
    + split; [exact Ht|exact Hinv].
Qed.

Lemma expressionsEqual_answer fuel ast1 ast2 tries tol (b : bool) :
  (0 < tries)%Z ->
  expressionsEqual M rand fuel ast1 ast2 tries tol = Some (Ok b) ->
  exists t k,
    round_reached M rand fuel ast1 ast2 (all_vars ast1 ast2) tries tol t k
    /\ (t < tries)%Z
    /\ (b = true -> t = (tries - 1)%Z)
    /\ run_round M fuel ast1 ast2 tol (fst (random_env rand (all_vars ast1 ast2) k ∅))
       = Some (if b then Agree else Mismatch).
Proof.
  intros Ht. unfold expressionsEqual. apply trials_answer; [apply reached_first| |exact Ht].
  split; [lia|left; reflexivity].
Qed.

Lemma expressionsEqual_errors fuel ast1 ast2 tries tol e :
  well_formed ast1 = true -> well_formed ast2 = true ->
  expressionsEqual M rand fuel ast1 ast2 tries tol = Some (Throw e) ->
  check_error e.
Proof.
  intros W1 W2 H. unfold expressionsEqual in H. apply trials_error in H as [k H].
  set (env := fst (random_env rand (all_vars ast1 ast2) k ∅)) in *.
  assert (Hbound : forall x, occurs x ast1 = true \/ occurs x ast2 = true ->
                             env !! x <> None).
  { intros x Hx. apply round_env_binds. exact Hx. }
  assert (Heval : forall node, well_formed node = true ->
            (forall x, occurs x node = true -> env !! x <> None) ->
            evaluateAST M fuel node env = Some (Throw e) -> check_error e).
  { intros node W Hb He.
    destruct (evaluateAST_errors M fuel env node e W He) as [Hev|[_ (x & Hx & _ & Hn)]].
    - unfold check_error.
      destruct Hev as [Hev|[Hev|[Hev|[Hev|[[x Hev]|Hev]]]]]; auto 6.
      exfalso. rewrite Hev in He. apply evaluateAST_unbound in He as [H1 H2].
      apply (Hb x); auto.
    - exfalso. apply (Hb x); auto. }
  apply run_round_caught in H as [H|[H|[x H]]].
  - apply (Heval ast1 W1); [auto|exact H].
  - apply (Heval ast2 W2); [auto|exact H].
  - exfalso. apply evaluateAST_inherited in H as (-> & _ & Hx).
    apply (Hbound x); [left; simpl; apply String.eqb_refl|exact Hx].
Qed.

End Check.

(** X10. The equality check of two well-formed trees, so of two trees of
    the parser, never raises UnboundVariable: every environment it draws
    binds the variables of both trees.  It raises only DivisionByZero,
    InvalidRootDegree, NonIntegerRootDegree, InvalidLiteral and
    UnknownFunction. *)
Theorem check_never_misses_a_variable (M : MathLib) (rand : nat -> float) (fuel : nat)
    (ast1 ast2 : ast) (tries : Z) (tol : float) (e : error) :
  well_formed ast1 = true -> well_formed ast2 = true ->
  expressionsEqual M rand fuel ast1 ast2 tries tol = Some (Throw e) ->
  check_error e.
Proof. apply expressionsEqual_errors. Qed.

Lemma check_never_misses_a_variable_witness :
  expressionsEqual reference_math always_half 1
    (Op "/" [Var "a"; Op "-" [Var "b"; Var "b"]]) (Var "a") 6 lit_1e_7
  = Some (Throw DivisionByZero)
  /\ check_error DivisionByZero.
Proof.
  assert (H : expressionsEqual reference_math always_half 1
                (Op "/" [Var "a"; Op "-" [Var "b"; Var "b"]]) (Var "a") 6 lit_1e_7
              = Some (Throw DivisionByZero)) by (vm_compute; reflexivity).
  split; [exact H|].
  apply (check_never_misses_a_variable reference_math always_half 1
           (Op "/" [Var "a"; Op "-" [Var "b"; Var "b"]]) (Var "a") 6 lit_1e_7);
    [reflexivity|reflexivity|exact H].
Defined.

(** X11. With a positive number of tries, every answer of the equality
    check is backed by a round that the run went through: for the answer
    [b] there is a round, with a counter [t] below [tries] and after [k]
    random draws, that the loop reaches from its first round, for the
    answer true the round with the last counter [tries - 1]; in the
    environment drawn in that round both trees evaluate to complex
    numbers [c1] and [c2], and the comparison of [c1] and [c2] within the
    tolerance is [b]. *)
Theorem check_answer_has_a_round (M : MathLib) (rand : nat -> float) (fuel : nat)
    (ast1 ast2 : ast) (tries : Z) (tol : float) (b : bool) :
  (0 < tries)%Z ->
  expressionsEqual M rand fuel ast1 ast2 tries tol = Some (Ok b) ->
  exists t k c1 c2,
    round_reached M rand fuel ast1 ast2 (all_vars ast1 ast2) tries tol t k
    /\ (t < tries)%Z
    /\ (b = true -> t = (tries - 1)%Z)
    /\ evaluateAST M fuel ast1 (fst (random_env rand (all_vars ast1 ast2) k ∅))
       = Some (Ok (VComplex c1))
    /\ evaluateAST M fuel ast2 (fst (random_env rand (all_vars ast1 ast2) k ∅))
       = Some (Ok (VComplex c2))
    /\ eq_tol c1 c2 tol = b.
Proof.
  intros Ht H. apply expressionsEqual_answer in H as (t & k & Hr & Hlt & Hb & H); [|exact Ht].
  apply round_compared in H as (c1 & c2 & H1 & H2 & H). eauto 10.
Qed.

Lemma check_answer_has_a_round_witness :
  (0 < 6)%Z
  /\ expressionsEqual reference_math zero_after_first_round 6
       (Op "+" [Var "a"; Var "a"]) (Op "*" [Literal "3"; Var "a"]) 6 lit_1e_7
     = Some (Ok false)
  /\ exists t k c1 c2,
       round_reached reference_math zero_after_first_round 6
         (Op "+" [Var "a"; Var "a"]) (Op "*" [Literal "3"; Var "a"])
         (all_vars (Op "+" [Var "a"; Var "a"]) (Op "*" [Literal "3"; Var "a"]))
         6 lit_1e_7 t k
       /\ (t < 6)%Z
       /\ (false = true -> t = (6 - 1)%Z)
       /\ evaluateAST reference_math 6 (Op "+" [Var "a"; Var "a"])
            (fst (random_env zero_after_first_round
                    (all_vars (Op "+" [Var "a"; Var "a"]) (Op "*" [Literal "3"; Var "a"]))
                    k ∅)) = Some (Ok (VComplex c1))
       /\ evaluateAST reference_math 6 (Op "*" [Literal "3"; Var "a"])
            (fst (random_env zero_after_first_round
                    (all_vars (Op "+" [Var "a"; Var "a"]) (Op "*" [Literal "3"; Var "a"]))
                    k ∅)) = Some (Ok (VComplex c2))
       /\ eq_tol c1 c2 lit_1e_7 = false.
Proof.
  assert (Ht : (0 < 6)%Z) by lia.
  assert (H : expressionsEqual reference_math zero_after_first_round 6
                (Op "+" [Var "a"; Var "a"]) (Op "*" [Literal "3"; Var "a"]) 6 lit_1e_7
              = Some (Ok false)) by (vm_compute; reflexivity).
  split; [exact Ht|]. split; [exact H|].
  exact (check_answer_has_a_round reference_math zero_after_first_round 6 _ _ 6 lit_1e_7 false Ht H).
Defined.

(** ** Arithmetic on the components *)

Lemma SFcompare_finite_refl s m e :
  SFcompare (S754_finite s m e) (S754_finite s m e) = Some Eq.
Proof.
  unfold SFcompare. rewrite Z.compare_refl.
  change (Pos.compare_cont Eq m m) with (Pos.compare m m). rewrite Pos.compare_refl.
  destruct s; reflexivity.
Qed.

Lemma is_nan_spec x :
  PrimFloat.is_nan x = match Prim2SF x with S754_nan => true | _ => false end.
Proof.
  unfold PrimFloat.is_nan. rewrite FloatAxioms.eqb_spec. unfold SFeqb.
  destruct (Prim2SF x) as [s|s| |s m e].
  - reflexivity.
  - destruct s; reflexivity.
  - reflexivity.
  - rewrite SFcompare_finite_refl. reflexivity.
Qed.

Lemma is_infinity_spec x :
  PrimFloat.is_infinity x = match Prim2SF x with S754_infinity _ => true | _ => false end.
Proof.
  unfold PrimFloat.is_infinity. rewrite FloatAxioms.eqb_spec, FloatAxioms.abs_spec.
  change (Prim2SF infinity) with (S754_infinity false).
  destruct (Prim2SF x) as [s|s| |s m e]; reflexivity.
Qed.

Lemma is_zero_spec x :
  PrimFloat.eqb x fzero = match Prim2SF x with S754_zero _ => true | _ => false end.
Proof.
  rewrite FloatAxioms.eqb_spec. change (Prim2SF fzero) with (S754_zero false).
  destruct (Prim2SF x) as [s|s| |s m e]; try reflexivity; destruct s; reflexivity.
Qed.

(** The distance of a number to itself is below a positive tolerance
    exactly when the number is finite: [Infinity - Infinity] is [NaN]. *)
Lemma self_distance x tol :
  PrimFloat.ltb fzero tol = true ->
  PrimFloat.ltb (abs (x - x)) tol
  = negb (PrimFloat.is_nan x) && negb (PrimFloat.is_infinity x).
Proof.
  intros Htol. rewrite FloatAxioms.ltb_spec in Htol.
  change (Prim2SF fzero) with (S754_zero false) in Htol.
  rewrite is_nan_spec, is_infinity_spec.
  rewrite FloatAxioms.ltb_spec, FloatAxioms.abs_spec, FloatAxioms.sub_spec.
  unfold FloatAxioms.SF64sub.
  destruct (Prim2SF x) as [s|s| |s m e].
  - destruct s; exact Htol.
  - destruct s; reflexivity.
  - reflexivity.
  - unfold SFsub. rewrite Z.sub_diag. exact Htol.
Qed.

Lemma SFadd_comm x y : SFadd FloatOps.prec FloatOps.emax x y = SFadd FloatOps.prec FloatOps.emax y x.
Proof.
  destruct x as [sx|sx| |sx mx ex], y as [sy|sy| |sy my ey];
    try reflexivity; try (destruct sx, sy; reflexivity).
  unfold SFadd. rewrite (Z.min_comm ex ey), Z.add_comm. reflexivity.
Qed.

Lemma SFmul_comm x y : SFmul FloatOps.prec FloatOps.emax x y = SFmul FloatOps.prec FloatOps.emax y x.
Proof.
  destruct x as [sx|sx| |sx mx ex], y as [sy|sy| |sy my ey];
    try reflexivity; try (destruct sx, sy; reflexivity).
  unfold SFmul. rewrite (xorb_comm sx sy), (Pos.mul_comm mx my), (Z.add_comm ex ey).
  reflexivity.
Qed.

Lemma float_add_comm (x y : float) : (x + y = y + x)%float.
Proof.
  apply FloatAxioms.Prim2SF_inj. rewrite !FloatAxioms.add_spec. apply SFadd_comm.
Qed.

Lemma float_mul_comm (x y : float) : (x * y = y * x)%float.
Proof.
  apply FloatAxioms.Prim2SF_inj. rewrite !FloatAxioms.mul_spec. apply SFmul_comm.
Qed.

Lemma float_opp_involutive (x : float) : (- - x = x)%float.
Proof.
  apply FloatAxioms.Prim2SF_inj. rewrite !FloatAxioms.opp_spec.
  destruct (Prim2SF x) as [s|s| |s m e]; simpl; rewrite ?negb_involutive; reflexivity.
Qed.

Lemma or_zero_spec x :
  or_zero x = match Prim2SF x with
              | S754_zero _ | S754_nan => fzero
              | _ => x
              end.
Proof.
  unfold or_zero. rewrite is_zero_spec, is_nan_spec.
  destruct (Prim2SF x); reflexivity.
Qed.

Lemma or_zero_idempotent x : or_zero (or_zero x) = or_zero x.
Proof.
  rewrite (or_zero_spec x).
  destruct (Prim2SF x) as [s|s| |s m e] eqn:E; try reflexivity;
    rewrite or_zero_spec, E; reflexivity.
Qed.

Lemma or_zero_opp_opp x : or_zero (- or_zero (- or_zero x)) = or_zero x.
Proof.
  rewrite (or_zero_spec x).
  destruct (Prim2SF x) as [s|s| |s m e] eqn:E; try reflexivity.
  - rewrite (or_zero_spec (- x)), FloatAxioms.opp_spec, E. cbn [SFopp].
    rewrite float_opp_involutive, or_zero_spec, E. reflexivity.
  - rewrite (or_zero_spec (- x)), FloatAxioms.opp_spec, E. cbn [SFopp].
    rewrite float_opp_involutive, or_zero_spec, E. reflexivity.
Qed.

(** X12. A complex number is equal to itself, within a positive
    tolerance, exactly when its two components are finite: a value with an
    infinite component is not equal to itself, the difference of two
    infinities being [NaN]. *)
Theorem value_equals_itself_iff_finite (a : Complex) (tol : float) :
  PrimFloat.ltb 0 tol = true ->
  (eq_tol a a tol = true <-> finite_components a).
Proof.
  intros Htol. unfold eq_tol, finite_components, nan_free.
  rewrite !(self_distance _ tol Htol).
  destruct (PrimFloat.is_nan (re a)), (PrimFloat.is_nan (im a)),
    (PrimFloat.is_infinity (re a)), (PrimFloat.is_infinity (im a));
    simpl; intuition congruence.
Qed.

Lemma value_equals_itself_iff_finite_witness :
  PrimFloat.ltb 0 lit_1e_7 = true
  /\ (eq_tol (mkComplex infinity 0) (mkComplex infinity 0) lit_1e_7 = true
      <-> finite_components (mkComplex infinity 0)).
Proof.
  split; [reflexivity|].
  apply (value_equals_itself_iff_finite (mkComplex infinity 0) lit_1e_7). reflexivity.
Defined.

(** X13. Addition and multiplication of complex numbers are commutative,
    bit for bit. *)
Theorem add_and_mul_commute (a b : Complex) :
  add a b = add b a /\ mul a b = mul b a.
Proof.
  unfold add, mul. split.
  - rewrite (float_add_comm (re a)), (float_add_comm (im a)). reflexivity.
  - rewrite (float_mul_comm (re a) (re b)), (float_mul_comm (im a) (im b)).
    rewrite (float_mul_comm (re a) (im b)), (float_mul_comm (im a) (re b)).
    rewrite (float_add_comm (im b * re a)). reflexivity.
Qed.

(** X14. On a complex number made by the constructor, the conjugate of
    the conjugate and the negation of the negation give the number back. *)
Theorem conj_and_neg_are_involutions (r i : float) :
  conj (conj (new_Complex r i)) = new_Complex r i
  /\ neg (neg (new_Complex r i)) = new_Complex r i.
Proof.
  unfold conj, neg, new_Complex. cbn [re im].
  rewrite !or_zero_opp_opp, !or_zero_idempotent. split; reflexivity.
Qed.

(** ** Operands, binary operators and the unary minus *)

Lemma leaf_prev_cases t : leaf_prev t = "number" \/ leaf_prev t = "id".
Proof. unfold leaf_prev. destruct (isNumberToken t); auto. Qed.

Lemma parse_step_leaf st t next :
  is_leaf t = true -> is_token next "(" = false ->
  parse_step st t next
  = Ok {| output := output st ++ [leaf_item t]; ops := ops st;
          prev := Some (leaf_prev t) |}.
Proof.
  unfold is_leaf, parse_step, leaf_item, leaf_prev. intros Ht Hn.
  destruct (isNumberToken t); [reflexivity|].
  simpl in Ht. rewrite Ht, Hn. reflexivity.
Qed.

Lemma build_step_leaf stack t : build_step stack (leaf_item t) = Ok (leaf_node t :: stack).
Proof. unfold leaf_item, leaf_node. destruct (isNumberToken t); reflexivity. Qed.

Lemma binary_op_info op :
  In op binary_ops -> exists info, lookup_op OPERATORS op = Some info /\ op_args info = 2.
Proof.
  intros H. simpl in H.
  repeat destruct H as [<-|H]; try contradiction; eexists; split; reflexivity.
Qed.

(** A binary operator after an operand is not taken for the unary minus. *)
Lemma parse_step_binary out ops0 t op next info :
  In op binary_ops -> lookup_op OPERATORS op = Some info ->
  parse_step {| output := out; ops := ops0; prev := Some (leaf_prev t) |} op next
  = let '(out', ops') := pop_operators info ops0 out in
    Ok {| output := out'; ops := IStr op :: ops'; prev := Some op |}.
Proof.
  intros H Hinfo. simpl in H.
  destruct (leaf_prev_cases t) as [-> | ->];
    repeat destruct H as [<-|H]; try contradiction;
    injection Hinfo as <-; reflexivity.
Qed.

(** The unary minus, where an operand is expected. *)
Lemma parse_step_unary out ops0 p next :
  unary_context p = true ->
  parse_step {| output := out; ops := ops0; prev := p |} "-" next
  = Ok {| output := out; ops := IStr "u-" :: ops0; prev := Some "u-" |}.
Proof.
  intros Hp. unfold parse_step.
  change (isNumberToken "-") with false. change (isIdentifier "-") with false.
  cbn [String.eqb Ascii.eqb Bool.eqb andb orb].
  change (in_OPERATORS "-") with true. cbn [orb output ops prev].
  unfold resolve_op. rewrite Hp, String.eqb_refl. cbn [andb].
  change (lookup_op OPERATORS "u-")
    with (Some {| prec := 6; op_assoc := R; op_args := 1 |}).
  cbv iota.
  assert (E : forall l o, pop_operators {| prec := 6; op_assoc := R; op_args := 1 |} l o
                          = (o, l)).
  { intros l o. destruct l as [|[v|x|f|s] l]; try reflexivity.
    cbn [pop_operators]. destruct (String.eqb s "("); [reflexivity|].
    destruct (lookup_op OPERATORS s) as [o2|] eqn:E2; [|reflexivity].
    unfold OPERATORS in E2. cbn [lookup_op] in E2.
    repeat match type of E2 with
           | context [String.eqb s ?k] =>
               destruct (String.eqb s k); [injection E2 as <-; reflexivity|]
           end.
    discriminate E2. }
  rewrite E. reflexivity.
Qed.

(** X15. Two binary operators between three operands: in [x op1 y op2 z]
    the first operator is applied first exactly when its precedence is
    higher than that of the second, or the same and the operators associate
    to the left; otherwise the second one is. *)
Theorem binary_operators_grouping (input x y z op1 op2 : string) :
  tokenize input = Ok [x; op1; y; op2; z] ->
  is_leaf x = true -> is_leaf y = true -> is_leaf z = true ->
  In op1 binary_ops -> In op2 binary_ops ->
  parseToAST input
  = Ok (if applied_first op1 op2
        then Op op2 [Op op1 [leaf_node x; leaf_node y]; leaf_node z]
        else Op op1 [leaf_node x; Op op2 [leaf_node y; leaf_node z]]).
Proof.
  intros Htok Hx Hy Hz H1 H2. unfold parseToAST, to_rpn. rewrite Htok.
  destruct (binary_op_info op1 H1) as (i1 & E1 & _).
  destruct (binary_op_info op2 H2) as (i2 & E2 & _).
  assert (N1 : is_token (Some op1) "(" = false).
  { simpl in H1. repeat destruct H1 as [<-|H1]; try contradiction; reflexivity. }
  assert (N2 : is_token (Some op2) "(" = false).
  { simpl in H2. repeat destruct H2 as [<-|H2]; try contradiction; reflexivity. }
  cbn [rbind parse_tokens head].
  rewrite (parse_step_leaf _ x _ Hx N1). cbn [rbind output ops app].
  rewrite (parse_step_binary _ _ x op1 _ i1 H1 E1). cbn [pop_operators rbind].
  rewrite (parse_step_leaf _ y _ Hy N2). cbn [rbind output ops app].
  rewrite (parse_step_binary _ _ y op2 _ i2 H2 E2).
  simpl in H1, H2.
  repeat destruct H1 as [<-|H1]; try contradiction;
    repeat destruct H2 as [<-|H2]; try contradiction;
    injection E1 as <-; injection E2 as <-;
    cbn [pop_operators String.eqb Ascii.eqb Bool.eqb lookup_op OPERATORS prec op_assoc
         Nat.leb Nat.ltb rbind app];
    rewrite (parse_step_leaf _ z None Hz eq_refl);
    cbn [rbind output ops app drain_ops String.eqb Ascii.eqb Bool.eqb orb build_ast];
    repeat first
      [ rewrite build_step_leaf
      | progress cbn [rbind build_step build_ast lookup_op OPERATORS String.eqb Ascii.eqb
                      Bool.eqb op_args pop_args fst snd] ];
    reflexivity.
Qed.

Lemma binary_operators_grouping_witness :
  tokenize "2-x1**y" = Ok ["2"; "-"; "x1"; "**"; "y"]
  /\ parseToAST "2-x1**y" = Ok (Op "-" [Literal "2"; Op "**" [Var "x1"; Var "y"]]).
Proof.
  assert (H : tokenize "2-x1**y" = Ok ["2"; "-"; "x1"; "**"; "y"]) by reflexivity.
  split; [exact H|].
  apply (binary_operators_grouping "2-x1**y" "2" "x1" "y" "-" "**" H);
    try reflexivity; simpl; auto 10.
Defined.

(** X16. The unary minus binds tighter than every binary operator, the
    power operators included: [-x op y] is [(-x) op y], so [-x**y] is the
    power of [-x], and [x op -y] is [x op (-y)]. *)
Theorem unary_minus_binds_tightest (x y op : string) :
  is_leaf x = true -> is_leaf y = true -> In op binary_ops ->
  (forall input, tokenize input = Ok ["-"; x; op; y] ->
     parseToAST input = Ok (Op op [Op "u-" [leaf_node x]; leaf_node y]))
  /\ (forall input, tokenize input = Ok [x; op; "-"; y] ->
        parseToAST input = Ok (Op op [leaf_node x; Op "u-" [leaf_node y]])).
Proof.
  intros Hx Hy Hop.
  destruct (binary_op_info op Hop) as (info & Einfo & _).
  assert (Nop : is_token (Some op) "(" = false).
  { simpl in Hop. repeat destruct Hop as [<-|Hop]; try contradiction; reflexivity. }
  split; intros input Htok; unfold parseToAST, to_rpn; rewrite Htok;
    cbn [rbind parse_tokens head].
  - rewrite (parse_step_unary [] [] None (Some x) eq_refl). cbn [rbind].
    rewrite (parse_step_leaf _ x _ Hx Nop). cbn [rbind output ops app].
    rewrite (parse_step_binary _ _ x op _ info Hop Einfo).
    simpl in Hop.
    repeat destruct Hop as [<-|Hop]; try contradiction;
      injection Einfo as <-;
      cbn [pop_operators String.eqb Ascii.eqb Bool.eqb lookup_op OPERATORS prec op_assoc
           Nat.leb Nat.ltb rbind app];
      rewrite (parse_step_leaf _ y None Hy eq_refl);
      cbn [rbind output ops app drain_ops String.eqb Ascii.eqb Bool.eqb orb build_ast];
      repeat first
        [ rewrite build_step_leaf
        | progress cbn [rbind build_step build_ast lookup_op OPERATORS String.eqb
                        Ascii.eqb Bool.eqb op_args pop_args fst snd] ];
      reflexivity.
  - rewrite (parse_step_leaf _ x _ Hx Nop). cbn [rbind output ops app].
    rewrite (parse_step_binary _ _ x op _ info Hop Einfo). cbn [pop_operators rbind].
    rewrite parse_step_unary.
    2:{ simpl in Hop. repeat destruct Hop as [<-|Hop]; try contradiction; reflexivity. }
    cbn [rbind].
    rewrite (parse_step_leaf _ y None Hy eq_refl).
    simpl in Hop.
    repeat destruct Hop as [<-|Hop]; try contradiction;
      injection Einfo as <-;
      cbn [rbind output ops app drain_ops String.eqb Ascii.eqb Bool.eqb orb build_ast];
      repeat first
        [ rewrite build_step_leaf
        | progress cbn [rbind build_step build_ast lookup_op OPERATORS String.eqb
                        Ascii.eqb Bool.eqb op_args pop_args fst snd] ];
      reflexivity.
Qed.

Lemma unary_minus_binds_tightest_witness :
  (tokenize "-a**2" = Ok ["-"; "a"; "**"; "2"]
   /\ parseToAST "-a**2" = Ok (Op "**" [Op "u-" [Var "a"]; Literal "2"]))
  /\ (tokenize "a**-2" = Ok ["a"; "**"; "-"; "2"]
      /\ parseToAST "a**-2" = Ok (Op "**" [Var "a"; Op "u-" [Literal "2"]])).
Proof.
  assert (H1 : tokenize "-a**2" = Ok ["-"; "a"; "**"; "2"]) by reflexivity.
  assert (H2 : tokenize "a**-2" = Ok ["a"; "**"; "-"; "2"]) by reflexivity.
  assert (Hop : In "**" binary_ops) by (simpl; auto 10).
  destruct (unary_minus_binds_tightest "a" "2" "**" eq_refl eq_refl Hop) as [A B].
  split; split; [exact H1|exact (A _ H1)|exact H2|exact (B _ H2)].
Defined.

(** ** An expression between parentheses

    What the parser makes of an expression does not change when the
    expression stands between parentheses: the operator stack below the
    opening parenthesis and the output before it are not touched. *)

Lemma pop_to_lparen_frame l : forall out o r pre extra,
  pop_to_lparen l out = (o, r) -> r <> [] ->
  pop_to_lparen (l ++ extra) (pre ++ out) = (pre ++ o, r ++ extra).
Proof.
  induction l as [|top rest IH]; intros out o r pre extra H Hr; cbn [pop_to_lparen] in H.
  - injection H as <- <-. congruence.
  - cbn [app pop_to_lparen]. destruct (is_lparen top).
    + injection H as <- <-. reflexivity.
    + rewrite <- app_assoc. apply IH; assumption.
Qed.

Lemma pop_to_lparen_all l : forall out base,
  Forall (fun x => is_lparen x = false) l ->
  pop_to_lparen (l ++ IStr "(" :: base) out = (out ++ l, IStr "(" :: base).
Proof.
  induction l as [|top rest IH]; intros out base H.
  - rewrite app_nil_r. reflexivity.
  - inversion H as [|? ? Htop Hrest]; subst. cbn [app pop_to_lparen]. rewrite Htop.
    rewrite IH by assumption. rewrite <- app_assoc. reflexivity.
Qed.

Lemma pop_operators_frame o1 l : forall out o r pre base,
  pop_operators o1 l out = (o, r) ->
  pop_operators o1 (l ++ IStr "(" :: base) (pre ++ out) = (pre ++ o, r ++ IStr "(" :: base).
Proof.
  induction l as [|top rest IH]; intros out o r pre base H; cbn [pop_operators] in H.
  - injection H as <- <-. reflexivity.
  - cbn [app pop_operators].
    destruct top as [v|x|f|s]; try (injection H as <- <-; reflexivity).
    destruct (String.eqb s "("); [injection H as <- <-; reflexivity|].
    destruct (lookup_op OPERATORS s) as [o2|]; [|injection H as <- <-; reflexivity].
    destruct (match op_assoc o1 with L => _ | R => _ end).
    + rewrite <- app_assoc. apply IH, H.
    + injection H as <- <-. reflexivity.
Qed.

Lemma parse_step_frame out ops0 p p' t next next' st1 pre base :
  unary_context p' = unary_context p ->
  is_token next' "(" = is_token next "(" ->
  parse_step {| output := out; ops := ops0; prev := p |} t next = Ok st1 ->
  parse_step {| output := pre ++ out; ops := ops0 ++ IStr "(" :: base; prev := p' |} t next'
  = Ok {| output := pre ++ output st1; ops := ops st1 ++ IStr "(" :: base;
          prev := prev st1 |}.
Proof.
  intros Hp Hn. unfold parse_step. cbn [output ops prev].
  destruct (isNumberToken t).
  { intros [= <-]. cbn [output ops prev]. rewrite app_assoc. reflexivity. }
  destruct (isIdentifier t).
  { rewrite Hn. destruct (is_token next "("); intros [= <-]; cbn [output ops prev].
    - reflexivity.
    - rewrite app_assoc. reflexivity. }
  destruct (String.eqb t ",").
  { destruct (pop_to_lparen ops0 out) as [o r] eqn:E.
    destruct r as [|top r]; [discriminate|].
    rewrite (pop_to_lparen_frame _ _ _ _ pre (IStr "(" :: base) E) by discriminate.
    intros [= <-]. reflexivity. }
  destruct (String.eqb t "(").
  { intros [= <-]. reflexivity. }
  destruct (String.eqb t ")").
  { destruct (pop_to_lparen ops0 out) as [o r] eqn:E.
    destruct r as [|top r]; [discriminate|].
    rewrite (pop_to_lparen_frame _ _ _ _ pre (IStr "(" :: base) E) by discriminate.
    cbn [app].
    destruct r as [|[v|x|f|s] r]; intros [= <-]; cbn [app output ops prev];
      rewrite ?app_assoc; reflexivity. }
  destruct (in_OPERATORS t || String.eqb t "^" || String.eqb t "**"); [|discriminate].
  unfold resolve_op. rewrite Hp.
  destruct (match lookup_op OPERATORS _ with Some o => Some o | None => _ end) as [o1|];
    [|discriminate].
  destruct (pop_operators o1 ops0 out) as [o r] eqn:E.
  rewrite (pop_operators_frame _ _ _ _ _ pre base E).
  intros [= <-]. reflexivity.
Qed.

Lemma parse_tokens_frame tokens k pre base : forall out ops0 p p' st1,
  unary_context p' = unary_context p ->
  is_token (head k) "(" = false ->
  parse_tokens tokens {| output := out; ops := ops0; prev := p |} = Ok st1 ->
  exists p1,
    parse_tokens (tokens ++ k)
      {| output := pre ++ out; ops := ops0 ++ IStr "(" :: base; prev := p' |}
    = parse_tokens k
        {| output := pre ++ output st1; ops := ops st1 ++ IStr "(" :: base; prev := p1 |}.
Proof.
  induction tokens as [|t rest IH]; intros out ops0 p p' st1 Hp Hk H.
  - injection H as <-. exists p'. reflexivity.
  - cbn [parse_tokens] in H.
    destruct (parse_step _ t (head rest)) as [[out2 ops2 p2]|e] eqn:E; [|discriminate].
    cbn [rbind] in H. change ((t :: rest) ++ k) with (t :: (rest ++ k)).
    cbn [parse_tokens].
    assert (Hn : is_token (head (rest ++ k)) "(" = is_token (head rest) "(").
    { destruct rest; [exact Hk|reflexivity]. }
    rewrite (parse_step_frame out ops0 p p' t (head rest) (head (rest ++ k)) _ pre base
               Hp Hn E).
    cbn [rbind output ops prev].
    apply (IH out2 ops2 p2 p2 st1 eq_refl Hk H).
Qed.

Lemma drain_ops_spec l : forall out rpn,
  drain_ops l out = Ok rpn ->
  rpn = out ++ l /\ Forall (fun x => is_lparen x = false) l.
Proof.
  induction l as [|top rest IH]; intros out rpn H; cbn [drain_ops] in H.
  - injection H as <-. rewrite app_nil_r. auto.
  - assert (Hgo : drain_ops rest (out ++ [top]) = Ok rpn /\ is_lparen top = false).
    { destruct top as [v|x|f|s]; auto.
      cbn [is_lparen]. destruct (String.eqb s "("); [discriminate|].
      cbn [orb] in H. destruct (String.eqb s ")"); [discriminate|auto]. }
    destruct Hgo as [Hgo Htop]. apply IH in Hgo as [-> Hrest].
    rewrite <- app_assoc. auto.
Qed.

(** The closing parenthesis and the comma after an expression. *)
Lemma parse_step_close out ops1 base p next :
  Forall (fun x => is_lparen x = false) ops1 ->
  parse_step {| output := out; ops := ops1 ++ IStr "(" :: base; prev := p |} ")" next
  = Ok match base with
       | IFunc f :: ops3 =>
           {| output := (out ++ ops1) ++ [IFunc f]; ops := ops3; prev := Some ")" |}
       | _ => {| output := out ++ ops1; ops := base; prev := Some ")" |}
       end.
Proof.
  intros H. unfold parse_step.
  change (isNumberToken ")") with false. change (isIdentifier ")") with false.
  cbn [String.eqb Ascii.eqb Bool.eqb output ops prev].
  rewrite (pop_to_lparen_all _ _ _ H).
  destruct base as [|[v|x|f|s] ops3]; reflexivity.
Qed.

Lemma parse_step_comma out ops1 base p next :
  Forall (fun x => is_lparen x = false) ops1 ->
  parse_step {| output := out; ops := ops1 ++ IStr "(" :: base; prev := p |} "," next
  = Ok {| output := out ++ ops1; ops := IStr "(" :: base; prev := Some "," |}.
Proof.
  intros H. unfold parse_step.
  change (isNumberToken ",") with false. change (isIdentifier ",") with false.
  cbn [String.eqb Ascii.eqb Bool.eqb output ops prev].
  rewrite (pop_to_lparen_all _ _ _ H). reflexivity.
Qed.

Lemma build_ast_app l1 : forall l2 stack,
  build_ast (l1 ++ l2) stack = let! s1 := build_ast l1 stack in build_ast l2 s1.
Proof.
  induction l1 as [|tok l1 IH]; intros l2 stack; [reflexivity|].
  cbn [app build_ast]. destruct (build_step stack tok); cbn [rbind]; [apply IH|reflexivity].
Qed.

Lemma pop_args_frame e arity : forall stack args r base,
  pop_args e arity stack args = Ok r ->
  pop_args e arity (stack ++ base) args = Ok (fst r, snd r ++ base).
Proof.
  induction arity as [|n IH]; intros stack args r base H; cbn [pop_args] in *.
  - injection H as <-. reflexivity.
  - destruct stack as [|x stack]; [discriminate|]. apply IH, H.
Qed.

Lemma build_step_frame stack tok stack' base :
  build_step stack tok = Ok stack' ->
  build_step (stack ++ base) tok = Ok (stack' ++ base).
Proof.
  destruct tok as [v|x|f|s]; cbn [build_step].
  - intros [= <-]. reflexivity.
  - intros [= <-]. reflexivity.
  - destruct (pop_args _ _ stack []) as [r|e] eqn:E; [|discriminate].
    rewrite (pop_args_frame _ _ _ _ _ base E). cbn [rbind fst snd].
    intros [= <-]. reflexivity.
  - destruct (lookup_op OPERATORS s) as [info|]; [|discriminate].
    destruct (pop_args _ _ stack []) as [r|e] eqn:E; [|discriminate].
    rewrite (pop_args_frame _ _ _ _ _ base E). cbn [rbind fst snd].
    intros [= <-]. reflexivity.
Qed.

Lemma build_ast_frame rpn base : forall stack stack',
  build_ast rpn stack = Ok stack' ->
  build_ast rpn (stack ++ base) = Ok (stack' ++ base).
Proof.
  induction rpn as [|tok rpn IH]; intros stack stack' H; cbn [build_ast] in *.
  - injection H as <-. reflexivity.
  - destruct (build_step stack tok) as [s1|e] eqn:E; [|discriminate].
    rewrite (build_step_frame _ _ _ base E). cbn [rbind] in *. apply IH, H.
Qed.

(** The three stages of a successful parse. *)
Lemma parseToAST_stages input tokens node :
  tokenize input = Ok tokens -> parseToAST input = Ok node ->
  exists st rpn,
    parse_tokens tokens initial_state = Ok st
    /\ drain_ops (ops st) (output st) = Ok rpn
    /\ build_ast rpn [] = Ok [node].
Proof.
  intros Htok. unfold parseToAST, to_rpn. rewrite Htok. cbn [rbind].
  fold initial_state.
  destruct (parse_tokens tokens initial_state) as [st|e]; [|discriminate]. cbn [rbind].
  destruct (drain_ops (ops st) (output st)) as [rpn|e] eqn:Ed; [|discriminate].
  cbn [rbind].
  destruct (build_ast rpn []) as [[|n [|n2 stack]]|e] eqn:Eb; cbn [rbind];
    try discriminate.
  intros [= <-]. exists st, rpn. auto.
Qed.

(** An expression after an opening parenthesis: its tokens leave its
    postfix form, not yet drained, above the parenthesis. *)
Lemma parse_tokens_inside tokens st k pre base p' :
  parse_tokens tokens initial_state = Ok st ->
  unary_context p' = true ->
  is_token (head k) "(" = false ->
  exists p1,
    parse_tokens (tokens ++ k)
      {| output := pre; ops := IStr "(" :: base; prev := p' |}
    = parse_tokens k
        {| output := pre ++ output st; ops := ops st ++ IStr "(" :: base; prev := p1 |}.
Proof.
  intros Hparse Hp Hk.
  destruct (parse_tokens_frame tokens k pre base [] [] None p' st Hp Hk Hparse)
    as [p1 E].
  rewrite app_nil_r in E. exists p1. exact E.
Qed.

(** X17. Parentheses around a whole expression do not change its tree:
    if an input parses to a tree, the input whose tokens are those of the
    first between ["("] and [")"] parses to the same tree. *)
Theorem parentheses_keep_the_tree (input input' : string) (tokens : list string)
    (node : ast) :
  tokenize input = Ok tokens -> parseToAST input = Ok node ->
  tokenize input' = Ok ("(" :: tokens ++ [")"]) ->
  parseToAST input' = Ok node.
Proof.
  intros Htok Hparse Htok'.
  destruct (parseToAST_stages _ _ _ Htok Hparse) as (st & rpn & Hst & Hdrain & Hbuild).
  apply drain_ops_spec in Hdrain as [-> Hops].
  unfold parseToAST, to_rpn. rewrite Htok'. cbn [rbind parse_tokens].
  rewrite parse_step_open. cbn [rbind output ops].
  destruct (parse_tokens_inside tokens st [")"] [] [] (Some "(") Hst eq_refl eq_refl)
    as [p1 E].
  rewrite E. cbn [parse_tokens app head].
  rewrite (parse_step_close _ _ [] _ _ Hops). cbn [rbind output ops drain_ops].
  rewrite Hbuild. reflexivity.
Qed.

Lemma parentheses_keep_the_tree_witness :
  parseToAST "a - b*2" = Ok (Op "-" [Var "a"; Op "*" [Var "b"; Literal "2"]])
  /\ parseToAST "(a - b*2)" = Ok (Op "-" [Var "a"; Op "*" [Var "b"; Literal "2"]]).
Proof.
  assert (H : parseToAST "a - b*2" = Ok (Op "-" [Var "a"; Op "*" [Var "b"; Literal "2"]]))
    by reflexivity.
  split; [exact H|].
  apply (parentheses_keep_the_tree "a - b*2" "(a - b*2)" ["a"; "-"; "b"; "*"; "2"]);
    [reflexivity|exact H|reflexivity].
Defined.

(** X18. Calls: an identifier followed by ["("] is a function name,
    whatever the identifier.  With one expression between the parentheses
    the tree is the call node of that expression's tree, except for [root],
    which lacks an argument; with two expressions separated by a comma the
    tree is the call node of the two trees for [root], and any other name
    makes the expression malformed. *)
Theorem call_of_expressions (f input1 input2 : string) (tokens1 tokens2 : list string)
    (node1 node2 : ast) :
  isIdentifier f = true ->
  tokenize input1 = Ok tokens1 -> parseToAST input1 = Ok node1 ->
  tokenize input2 = Ok tokens2 -> parseToAST input2 = Ok node2 ->
  (forall input, tokenize input = Ok (f :: "(" :: tokens1 ++ [")"]) ->
     parseToAST input
     = if String.eqb f "root" then Throw (InsufficientArguments "root")
       else Ok (Call f [node1]))
  /\ (forall input,
        tokenize input = Ok (f :: "(" :: tokens1 ++ "," :: tokens2 ++ [")"]) ->
        parseToAST input
        = if String.eqb f "root" then Ok (Call "root" [node1; node2])
          else Throw MalformedExpression).
Proof.
  intros Hf Htok1 Hparse1 Htok2 Hparse2.
  destruct (parseToAST_stages _ _ _ Htok1 Hparse1) as (st1 & rpn1 & Hst1 & Hd1 & Hb1).
  destruct (parseToAST_stages _ _ _ Htok2 Hparse2) as (st2 & rpn2 & Hst2 & Hd2 & Hb2).
  apply drain_ops_spec in Hd1 as [E1 Hops1]. apply drain_ops_spec in Hd2 as [E2 Hops2].
  split; intros input Htok; unfold parseToAST, to_rpn; rewrite Htok;
    cbn [rbind parse_tokens head];
    rewrite (parse_step_function f [] [] None (Some "(") Hf eq_refl); cbn [rbind];
    rewrite parse_step_open; cbn [rbind output ops].
  - destruct (parse_tokens_inside tokens1 st1 [")"] [] [IFunc f] (Some "(")
                Hst1 eq_refl eq_refl) as [p1 E].
    rewrite E. cbn [parse_tokens app head].
    rewrite (parse_step_close _ _ [IFunc f] _ _ Hops1).
    cbn [rbind output ops drain_ops]. rewrite <- E1.
    rewrite build_ast_app, Hb1. cbn [rbind build_ast build_step].
    destruct (String.eqb_spec f "root") as [->|_]; reflexivity.
  - destruct (parse_tokens_inside tokens1 st1 ("," :: tokens2 ++ [")"]) [] [IFunc f]
                (Some "(") Hst1 eq_refl eq_refl) as [p1 E].
    rewrite E. cbn [parse_tokens app].
    rewrite (parse_step_comma _ _ [IFunc f] _ _ Hops1). cbn [rbind]. rewrite <- E1.
    destruct (parse_tokens_inside tokens2 st2 [")"] rpn1 [IFunc f] (Some ",")
                Hst2 eq_refl eq_refl) as [p2 E'].
    rewrite E'. cbn [parse_tokens head].
    rewrite (parse_step_close _ _ [IFunc f] _ _ Hops2).
    cbn [rbind output ops drain_ops].
    replace (((rpn1 ++ output st2) ++ ops st2) ++ [IFunc f])
      with (rpn1 ++ rpn2 ++ [IFunc f]) by (rewrite E2, <- !app_assoc; reflexivity).
    rewrite build_ast_app, Hb1. cbn [rbind].
    rewrite build_ast_app.
    pose proof (build_ast_frame rpn2 [node1] [] [node2] Hb2) as Hb2'.
    cbn [app] in Hb2'. rewrite Hb2'. cbn [rbind build_ast build_step].
    destruct (String.eqb_spec f "root") as [->|_]; reflexivity.
Qed.

Lemma call_of_expressions_witness :
  parseToAST "root(a+1, -2)"
  = Ok (Call "root" [Op "+" [Var "a"; Literal "1"]; Op "u-" [Literal "2"]]).
Proof.
  apply (call_of_expressions "root" "a+1" "-2" ["a"; "+"; "1"] ["-"; "2"]
           (Op "+" [Var "a"; Literal "1"]) (Op "u-" [Literal "2"])); reflexivity.
Defined.

(** ** Reading the value of a variable *)

Lemma ends_with_i_has_letter t : ends_with_i t = true -> has_letter t = true.
Proof.
  induction t as [|c t IH]; [discriminate|]. cbn [ends_with_i has_letter].
  destruct t as [|c' t].
  - intros H. apply Ascii.eqb_eq in H. subst c. reflexivity.
  - intros H. rewrite (IH H). apply orb_true_r.
Qed.

(** X19. [isImagToken] answers false on every string: a string that ends
    in [i] holds a letter. *)
Theorem isImagToken_is_never_true (t : string) : isImagToken t = false.
Proof.
  unfold isImagToken. destruct (ends_with_i t) eqn:E; [|reflexivity].
  rewrite (ends_with_i_has_letter t E). reflexivity.
Qed.

Lemma head_In {A} (l : list A) x : head l = Some x -> In x l.
Proof. destruct l; [discriminate|]. intros [= ->]. left. reflexivity. Qed.

Lemma matches_opt_take r s x : In x (matches r s) -> In x (matches (ROpt r) s).
Proof. intros H. cbn [matches]. apply in_app_iff. auto. Qed.

Lemma imaginary_is_signed s x : In x (matches IMAGINARY_RE s) -> In x (matches SIGNED_RE s).
Proof.
  destruct x as [m r]. unfold IMAGINARY_RE, SIGNED_RE. intros H.
  apply matches_seq_inv in H as (m1 & m2 & s1 & -> & H1 & H2).
  eapply matches_seq_intro; [apply matches_opt_take, H1|exact H2].
Qed.

(** What the second regular expression matches, the first one matches. *)
Lemma alt_match_accepted str g :
  alt_match str = Some g -> test_anchored COMPLEX_RE str = true.
Proof.
  unfold alt_match. intros H. apply head_In in H.
  apply in_flat_map in H as ([m1 s1] & H1 & H).
  apply in_flat_map in H as ([m2 s2] & H2 & H).
  apply in_flat_map in H as ([m3 s3] & H3 & H). cbn [fst snd] in *.
  destruct (String.eqb_spec s3 "") as [->|_]; [clear H|destruct H].
  unfold test_anchored. apply existsb_exists.
  exists (m1 +:+ m2 +:+ m3, ""). split; [|reflexivity].
  unfold COMPLEX_RE.
  eapply matches_seq_intro; [apply matches_opt_take, H1|].
  eapply matches_seq_intro; [apply matches_opt_take, imaginary_is_signed, H2|].
  apply matches_opt_take, H3.
Qed.

Lemma parseComplexInput_nan_free input c :
  parseComplexInput input = Returns c -> nan_free c.
Proof.
  unfold parseComplexInput.
  repeat match goal with
         | |- context [if ?b then _ else _] => destruct b
         | |- context [match ?o with Some _ => _ | None => _ end] => destruct o as [[? ?]|]
         end;
    try discriminate; intros [= <-]; apply new_Complex_nan_free.
Qed.

(** X20. The second regular expression of [parseComplexInput] never
    decides: whatever it matches, the first one matches.  So the input is
    rejected as uninterpretable exactly when, white space removed, it is
    neither [i] nor [-i] and the first regular expression does not match
    it; and it is rejected for its format exactly when the first one
    matches, the input has no lower-case [i], and [Number] makes [NaN] of
    it. *)
Theorem second_regex_never_decides (input : string) :
  (forall g, alt_match (strip_spaces input) = Some g ->
             test_anchored COMPLEX_RE (strip_spaces input) = true)
  /\ (parseComplexInput input = Raises UninterpretableComplex
      <-> strip_spaces input <> "i" /\ strip_spaces input <> "-i"
          /\ test_anchored COMPLEX_RE (strip_spaces input) = false)
  /\ (parseComplexInput input = Raises InvalidComplexFormat
      <-> test_anchored COMPLEX_RE (strip_spaces input) = true
          /\ includes "i" (strip_spaces input) = false
          /\ PrimFloat.is_nan (Number (strip_spaces input)) = true).
Proof.
  split; [apply alt_match_accepted|].
  unfold parseComplexInput.
  destruct (String.eqb_spec (strip_spaces input) "i") as [E|N1].
  { rewrite E. split; split; try discriminate; intros (H1 & H2 & H3);
      try congruence; discriminate. }
  destruct (String.eqb_spec (strip_spaces input) "-i") as [E|N2].
  { rewrite E. split; split; try discriminate; intros (H1 & H2 & H3);
      try congruence; discriminate. }
  destruct (test_anchored COMPLEX_RE (strip_spaces input)) eqn:Et.
  - destruct (includes "i" (strip_spaces input)) eqn:Ei.
    + destruct (0 <? _)%Z; split; split; try discriminate;
        intros (H1 & H2 & H3); discriminate.
    + destruct (PrimFloat.is_nan (Number (strip_spaces input))) eqn:En;
        split; split; try discriminate; auto;
        intros (H1 & H2 & H3); discriminate.
  - destruct (alt_match (strip_spaces input)) as [[g1 g2]|] eqn:Ea.
    + apply alt_match_accepted in Ea. congruence.
    + split; split; try discriminate; auto. intros (H1 & _). discriminate.
Qed.

(** ** The environment typed at the prompts *)

Lemma ask_nan_free answers : forall c rest,
  ask answers = Some (c, rest) -> nan_free c.
Proof.
  induction answers as [|ans answers IH]; intros c rest; cbn [ask]; [discriminate|].
  destruct (parseComplexInput (trim ans)) as [c'|e] eqn:E; [|apply IH].
  intros [= <- _]. eapply parseComplexInput_nan_free, E.
Qed.

Lemma prompt_vars_binds vars : forall answers (env env' : environment) rest,
  prompt_vars vars answers env = Some (env', rest) ->
  (forall x, is_Some (env' !! x) <-> In x vars \/ is_Some (env !! x))
  /\ (map_Forall (fun _ v => nan_free v) env -> map_Forall (fun _ v => nan_free v) env').
Proof.
  induction vars as [|v vars IH]; intros answers env env' rest; cbn [prompt_vars].
  - intros [= <- _]. split; [|auto]. intros x. simpl. tauto.
  - destruct (ask answers) as [[c rest1]|] eqn:E; [|discriminate].
    intros H. apply IH in H as [H1 H2]. split.
    + intros x. rewrite H1, lookup_insert_is_Some. simpl.
      destruct (String.eqb_spec v x); intuition.
    + intros Henv. apply H2. apply map_Forall_insert_2; [|exact Henv].
      eapply ask_nan_free, E.
Qed.

(** X21. When [promptForEnv] returns, the environment binds exactly the
    variables of the tree, to complex numbers without [NaN] component; so
    the evaluation that follows never raises UnboundVariable, and its
    value has no [NaN] component. *)
Theorem prompted_environment (node : ast) (answers rest : list string)
    (env : environment) :
  promptForEnv node answers = Some (env, rest) ->
  (forall x, is_Some (env !! x) <-> occurs x node = true)
  /\ map_Forall (fun _ v => nan_free v) env
  /\ (forall M fuel e, evaluateAST M fuel node env = Some (Throw e) ->
        forall x, e <> UnboundVariable x)
  /\ (forall M fuel v, evaluateAST M fuel node env = Some (Ok v) ->
        exists c, v = VComplex c /\ nan_free c).
Proof.
  unfold promptForEnv. intros H. apply prompt_vars_binds in H as [H1 H2].
  assert (Hdom : forall x, is_Some (env !! x) <-> occurs x node = true).
  { intros x. rewrite H1, collectVars_in, lookup_empty. simpl.
    split; [intros [[[]|H]|H]; [exact H|destruct H; discriminate]|auto]. }
  assert (Hnan : map_Forall (fun _ v => nan_free v) env).
  { apply H2. apply map_Forall_empty. }
  split; [exact Hdom|]. split; [exact Hnan|]. split.
  - intros M fuel e He x Hx. rewrite Hx in He.
    apply evaluateAST_unbound in He as [Hocc Hnone].
    apply Hdom in Hocc. rewrite Hnone in Hocc. destruct Hocc; discriminate.
  - intros M fuel v Hv.
    destruct (evaluateAST_bound_complex M fuel env node v) as [c ->]; [|exact Hv|].
    + intros x Hx. apply Hdom in Hx. destruct Hx as [c Hc]. congruence.
    + exists c. split; [reflexivity|]. exact (evaluateAST_nan_free M fuel node env c Hnan Hv).
Qed.

Lemma prompted_environment_witness :
  promptForEnv (Op "+" [Var "a"; Var "b"]) ["3+4i"; "a lot"; " 2 "]
  = Some (<["b" := new_Complex 2 0]> (<["a" := new_Complex 3 4]> ∅), [])
  /\ (forall x, is_Some ((<["b" := new_Complex 2 0]> (<["a" := new_Complex 3 4]> ∅)
                          : environment) !! x)
                <-> occurs x (Op "+" [Var "a"; Var "b"]) = true).
Proof.
  assert (H : promptForEnv (Op "+" [Var "a"; Var "b"]) ["3+4i"; "a lot"; " 2 "]
              = Some (<["b" := new_Complex 2 0]> (<["a" := new_Complex 3 4]> ∅), []))
    by (vm_compute; reflexivity).
  split; [exact H|].
  exact (proj1 (prompted_environment _ _ _ _ H)).
Defined.

(** ** Where [parseComplexInput] splits its input *)

Lemma eqb_length_neq (x y : string) :
  String.length x <> String.length y -> String.eqb x y = false.
Proof. intros H. apply String.eqb_neq. intros ->. apply H. reflexivity. Qed.

Lemma includes_app c (x y : string) : includes c (x +:+ y) = includes c x || includes c y.
Proof.
  induction x as [|a x IH]; [reflexivity|].
  rewrite append_cons. cbn [includes]. rewrite IH. apply orb_assoc.
Qed.

Lemma index_from_app c (x y : string) : forall i from found,
  index_from c (x +:+ y) i from found
  = index_from c y (i + Z.of_nat (String.length x)) from (index_from c x i from found).
Proof.
  induction x as [|a x IH]; intros i from found.
  - rewrite append_nil. cbn [index_from String.length]. f_equal. lia.
  - rewrite append_cons. cbn [index_from String.length]. rewrite IH. f_equal. lia.
Qed.

Lemma index_from_bound c (x : string) : forall i from found,
  (found < i)%Z -> (index_from c x i from found < i + Z.of_nat (String.length x))%Z.
Proof.
  induction x as [|a x IH]; intros i from found H; cbn [index_from String.length]; [lia|].
  specialize (IH (i + 1)%Z from
                (if ((i <=? from)%Z && Ascii.eqb a c)%bool then i else found)).
  destruct ((i <=? from)%Z && Ascii.eqb a c)%bool; lia.
Qed.

Lemma index_from_absent c (x : string) : forall i from found,
  string_forall (fun a => negb (Ascii.eqb a c)) x = true ->
  index_from c x i from found = found.
Proof.
  induction x as [|a x IH]; intros i from found H; [reflexivity|].
  cbn [string_forall] in H. apply andb_true_iff in H as [Ha Hx].
  cbn [index_from]. apply negb_true_iff in Ha. rewrite Ha, andb_false_r. apply IH, Hx.
Qed.

Lemma sign_free_absent c (b : string) :
  is_sign c = true -> sign_free b = true ->
  string_forall (fun a => negb (Ascii.eqb a c)) (b +:+ "i") = true.
Proof.
  intros Hc Hb. rewrite string_forall_app. apply andb_true_iff. split.
  - revert Hb. unfold sign_free. apply string_forall_impl. intros a Ha.
    apply negb_true_iff. apply negb_true_iff in Ha.
    destruct (Ascii.eqb_spec a c) as [->|]; [congruence|reflexivity].
  - cbn [string_forall]. rewrite andb_true_r. apply negb_true_iff.
    destruct (Ascii.eqb_spec "i"%char c) as [<-|]; [discriminate Hc|reflexivity].
Qed.

(** The last sign of [a s b i], up to the character before the [i]. *)
Lemma lastIndexOf_sign c (a b : string) (s : ascii) :
  is_sign c = true -> sign_free b = true ->
  lastIndexOf c (a +:+ String s (b +:+ "i"))
    (Z.of_nat (String.length a) + Z.of_nat (String.length b))
  = if Ascii.eqb s c then Z.of_nat (String.length a)
    else index_from c a 0 (Z.of_nat (String.length a) + Z.of_nat (String.length b)) (-1).
Proof.
  intros Hc Hb. unfold lastIndexOf.
  rewrite Z.max_l by lia. rewrite index_from_app. cbn [index_from].
  rewrite (index_from_absent c (b +:+ "i")) by (apply sign_free_absent; assumption).
  replace (0 + Z.of_nat (String.length a) <=?
           Z.of_nat (String.length a) + Z.of_nat (String.length b))%Z with true
    by (symmetry; apply Z.leb_le; lia).
  cbn [andb]. destruct (Ascii.eqb s c); [lia|reflexivity].
Qed.

Lemma substring_prefix (a r : string) : substring 0 (String.length a) (a +:+ r) = a.
Proof.
  induction a as [|c a IH]; [destruct r; reflexivity|].
  rewrite append_cons. cbn [String.length substring]. rewrite IH. reflexivity.
Qed.

Lemma substring_skip (a r : string) n :
  substring (String.length a) n (a +:+ r) = substring 0 n r.
Proof.
  induction a as [|c a IH]; [rewrite append_nil; reflexivity|].
  rewrite append_cons. cbn [String.length substring]. exact IH.
Qed.

Lemma snoc_inj (w w' : string) (c c' : ascii) :
  w +:+ String c "" = w' +:+ String c' "" -> w = w' /\ c = c'.
Proof.
  revert w'. induction w as [|a w IH]; intros [|a' w'];
    rewrite ?append_nil, ?append_cons; intros H.
  - injection H as ->. auto.
  - injection H as -> H. destruct w'; discriminate H.
  - injection H as -> H. destruct w; discriminate H.
  - injection H as -> H. apply IH in H as [-> ->]. auto.
Qed.

(** A match of [DECIMAL_RE] ends with a digit. *)
Lemma decimal_ends_with_digit s m r :
  In (m, r) (matches DECIMAL_RE s) ->
  exists w c, m = w +:+ String c "" /\ is_digit c = true.
Proof.
  unfold DECIMAL_RE. intros H.
  apply matches_seq_inv in H as (m1 & m' & s1 & -> & _ & H).
  apply matches_seq_inv in H as (m2 & m'' & s2 & -> & _ & H).
  apply matches_seq_inv in H as (m3 & m4 & s3 & -> & H3 & H4).
  assert (Hplus : forall s m r, In (m, r) (matches (RPlus is_digit) s) ->
                    exists w c, m = w +:+ String c "" /\ is_digit c = true).
  { clear. intros s m r H. apply matches_plus_inv in H as [S A].
    destruct (string_last_split m) as (w & c & ->).
    { destruct m; [discriminate|congruence]. }
    rewrite string_forall_app in A. apply andb_true_iff in A as [_ A].
    simpl in A. rewrite andb_true_r in A. eauto. }
  apply matches_opt_inv in H4 as [H4|[-> _]].
  - apply matches_seq_inv in H4 as (e & m5 & s4 & -> & _ & H4).
    apply matches_seq_inv in H4 as (sg & d3 & s5 & -> & _ & H4).
    apply Hplus in H4 as (w & c & -> & Hc).
    exists (m1 +:+ m2 +:+ m3 +:+ e +:+ sg +:+ w), c.
    rewrite !append_assoc. auto.
  - apply Hplus in H3 as (w & c & -> & Hc).
    exists (m1 +:+ m2 +:+ w), c. rewrite append_empty_r, !append_assoc. auto.
Qed.

Lemma optional_signed_end s m r :
  In (m, r) (matches (ROpt SIGNED_RE) s) ->
  m = "" \/ exists w c, m = w +:+ String c "" /\ is_digit c = true.
Proof.
  intros H. apply matches_opt_inv in H as [H|[-> _]]; [right|left; reflexivity].
  unfold SIGNED_RE in H. apply matches_seq_inv in H as (sg & d & s1 & -> & _ & H).
  apply decimal_ends_with_digit in H as (w & c & -> & Hc).
  exists (sg +:+ w), c. rewrite append_assoc. auto.
Qed.

(** In an input the first regular expression matches, no sign stands
    just before the final [i]. *)
Lemma no_sign_before_i (a : string) (s : ascii) :
  is_sign s = true -> test_anchored COMPLEX_RE (a +:+ String s "i") = false.
Proof.
  intros Hs. destruct (test_anchored COMPLEX_RE _) eqn:E; [exfalso|reflexivity].
  apply test_anchored_inv in E. unfold COMPLEX_RE in E.
  apply matches_seq_inv in E as (m1 & m' & s1 & E & H1 & H).
  apply matches_seq_inv in H as (m2 & m3 & s2 & -> & H2 & H3).
  apply optional_signed_end in H1, H2.
  assert (Hx : m1 +:+ m2 = ""
               \/ exists w c, m1 +:+ m2 = w +:+ String c "" /\ is_digit c = true).
  { destruct H2 as [-> | (w & c & -> & Hc)].
    - rewrite append_empty_r. exact H1.
    - right. exists (m1 +:+ w), c. rewrite append_assoc. auto. }
  rewrite <- append_assoc in E.
  change (String s "i") with (String s "" +:+ "i") in E.
  rewrite <- (append_assoc a) in E.
  apply matches_opt_inv in H3 as [H3|[-> _]].
  - apply matches_class_inv in H3 as (c & -> & _).
    apply snoc_inj in E as [E _].
    destruct Hx as [Hx | (w & d & Hx & Hd)]; rewrite Hx in E.
    + destruct a; discriminate E.
    + apply snoc_inj in E as [_ <-].
      rewrite (digit_not_sign _ Hd) in Hs. discriminate Hs.
  - rewrite append_empty_r in E.
    destruct Hx as [Hx | (w & d & Hx & Hd)]; rewrite Hx in E.
    + destruct a; discriminate E.
    + apply snoc_inj in E as [_ <-]. discriminate Hd.
Qed.

(** X22. An input with an imaginary unit is split at its last sign: when
    the input, white space removed, is [a s b i] with [s] a sign and [b]
    without sign, and the first regular expression matches it, the real
    part is what [Number] makes of [a] and the imaginary part what it
    makes of [s b]; the tests for an imaginary part that is a bare sign
    are never met.  This holds also when the sign [s] belongs to an
    exponent, as in [1e-5i], which is read as [-5i], [Number] making [NaN]
    of [1e] and the constructor 0 of that. *)
Theorem complex_input_splits_at_last_sign (input a b : string) (s : ascii) :
  strip_spaces input = a +:+ String s (b +:+ "i") ->
  is_sign s = true -> sign_free b = true ->
  test_anchored COMPLEX_RE (strip_spaces input) = true ->
  b <> ""
  /\ parseComplexInput input = Returns (new_Complex (Number a) (Number (String s b))).
Proof.
  intros Hstr Hs Hfree Hacc.
  assert (Hb : b <> "").
  { intros ->. rewrite Hstr, append_nil, (no_sign_before_i a s Hs) in Hacc.
    discriminate. }
  split; [exact Hb|].
  unfold parseComplexInput. rewrite Hacc.
  rewrite Hstr. clear Hstr Hacc.
  assert (Lb : 0 < String.length b) by (destruct b; [congruence|simpl; lia]).
  assert (Hlen : String.length (a +:+ String s (b +:+ "i"))
                 = String.length a + String.length b + 2).
  { rewrite append_length. cbn [String.length]. rewrite append_length. simpl. lia. }
  rewrite (eqb_length_neq _ "i") by (rewrite Hlen; simpl; lia).
  rewrite (eqb_length_neq _ "-i") by (rewrite Hlen; simpl; lia).
  replace (includes "i" (a +:+ String s (b +:+ "i"))) with true.
  2:{ rewrite includes_app. cbn [includes]. rewrite includes_app. simpl.
      rewrite !orb_true_r. reflexivity. }
  rewrite Hlen.
  replace (Z.of_nat (String.length a + String.length b + 2) - 2)%Z
    with (Z.of_nat (String.length a) + Z.of_nat (String.length b))%Z by lia.
  rewrite !lastIndexOf_sign by (assumption || reflexivity).
  assert (Hidx : Z.max
            (if Ascii.eqb s "+" then Z.of_nat (String.length a)
             else index_from "+" a 0
                    (Z.of_nat (String.length a) + Z.of_nat (String.length b)) (-1))
            (if Ascii.eqb s "-" then Z.of_nat (String.length a)
             else index_from "-" a 0
                    (Z.of_nat (String.length a) + Z.of_nat (String.length b)) (-1))
          = Z.of_nat (String.length a)).
  { pose proof (index_from_bound "+" a 0
                  (Z.of_nat (String.length a) + Z.of_nat (String.length b)) (-1)).
    pose proof (index_from_bound "-" a 0
                  (Z.of_nat (String.length a) + Z.of_nat (String.length b)) (-1)).
    unfold is_sign in Hs. apply orb_true_iff in Hs as [Hs|Hs]; rewrite Hs.
    - destruct (Ascii.eqb s "-"); lia.
    - destruct (Ascii.eqb s "+"); lia. }
  rewrite Hidx. clear Hidx.
  unfold slice, slice_index. rewrite Hlen.
  replace (Z.of_nat (String.length a + String.length b + 2) - 1 <? 0)%Z with false
    by (symmetry; apply Z.ltb_ge; lia).
  rewrite (Z.min_l (_ - 1)) by lia.
  destruct a as [|c a].
  - (* the sign is the first character: the real part is 0 *)
    change (Z.of_nat (String.length "")) with 0%Z.
    change (0 <? 0)%Z with false. cbv iota.
    rewrite append_nil.
    rewrite (Z.min_l 0) by lia. rewrite Z.sub_0_r. cbn [Z.to_nat].
    replace (Z.to_nat (Z.of_nat (String.length "" + String.length b + 2) - 1))
      with (String.length (String s b)) by (simpl; lia).
    change (String s (b +:+ "i")) with (String s b +:+ "i").
    rewrite substring_prefix. reflexivity.
  - replace (0 <? Z.of_nat (String.length (String c a)))%Z with true
      by (symmetry; apply Z.ltb_lt; simpl; lia).
    cbn [Z.ltb Z.compare].
    replace (Z.of_nat (String.length (String c a)) <? 0)%Z with false
      by (symmetry; apply Z.ltb_ge; lia).
    rewrite Z.min_l by lia. rewrite (Z.min_l (Z.of_nat (String.length (String c a)))) by lia.
    rewrite Z.sub_0_r. cbn [Z.to_nat]. rewrite Nat2Z.id.
    replace (Z.to_nat (Z.of_nat (String.length (String c a) + String.length b + 2) - 1
                       - Z.of_nat (String.length (String c a))))
      with (String.length (String s b)) by (simpl; lia).
    rewrite substring_prefix, substring_skip.
    change (String s (b +:+ "i")) with (String s b +:+ "i").
    rewrite !substring_prefix.
    rewrite (eqb_length_neq (String s b) "+") by (simpl; lia).
    rewrite (eqb_length_neq (String s b) "-") by (simpl; lia).
    reflexivity.
Qed.

Lemma complex_input_splits_at_last_sign_witness :
  parseComplexInput "1e-5i" = Returns (new_Complex (Number "1e") (Number "-5"))
  /\ Number "1e" = nan /\ Number "-5" = (-5)%float.
Proof.
  split; [|split; reflexivity].
  apply (complex_input_splits_at_last_sign "1e-5i" "1e" "5" "-"); reflexivity.
Defined.

(** X23. An input with an imaginary unit and no sign is imaginary: when
    the input, white space removed, is [b i] with [b] not empty and
    without sign, and the first regular expression matches it, the real
    part is 0 and the imaginary part what [Number] makes of [b]. *)
Theorem complex_input_without_sign (input b : string) :
  strip_spaces input = b +:+ "i" ->
  b <> "" -> sign_free b = true ->
  test_anchored COMPLEX_RE (strip_spaces input) = true ->
  parseComplexInput input = Returns (new_Complex fzero (Number b)).
Proof.
  intros Hstr Hb Hfree Hacc. unfold parseComplexInput. rewrite Hacc, Hstr.
  clear Hstr Hacc.
  assert (Lb : 0 < String.length b) by (destruct b; [congruence|simpl; lia]).
  assert (Hlen : String.length (b +:+ "i") = String.length b + 1).
  { rewrite append_length. reflexivity. }
  assert (Hnot : String.eqb (b +:+ "i") "i" = false)
    by (apply eqb_length_neq; rewrite Hlen; simpl; lia).
  rewrite Hnot.
  assert (Hminus : String.eqb (b +:+ "i") "-i" = false).
  { apply String.eqb_neq. intros E.
    change "-i" with ("-" +:+ "i") in E.
    change (b +:+ "i") with (b +:+ String "i" "") in E.
    apply snoc_inj in E as [-> _]. discriminate Hfree. }
  rewrite Hminus.
  replace (includes "i" (b +:+ "i")) with true
    by (rewrite includes_app; simpl; rewrite orb_true_r; reflexivity).
  unfold lastIndexOf.
  rewrite !index_from_absent by (apply sign_free_absent; [reflexivity|exact Hfree]).
  change (Z.max (-1) (-1)) with (-1)%Z. change (0 <? -1)%Z with false. cbv iota.
  unfold slice, slice_index. rewrite Hlen. change (0 <? 0)%Z with false. cbv iota.
  replace (Z.of_nat (String.length b + 1) - 1 <? 0)%Z with false
    by (symmetry; apply Z.ltb_ge; lia).
  rewrite Z.min_l by lia. rewrite Z.min_l by lia.
  rewrite Z.sub_0_r. cbn [Z.to_nat].
  replace (Z.to_nat (Z.of_nat (String.length b + 1) - 1)) with (String.length b) by lia.
  rewrite substring_prefix. reflexivity.
Qed.

Lemma complex_input_without_sign_witness :
  parseComplexInput " 2.5e3i " = Returns (new_Complex fzero (Number "2.5e3")).
Proof.
  apply (complex_input_without_sign " 2.5e3i " "2.5e3"); try reflexivity. discriminate.
Defined.

(** ** From tokens to the input and back *)

Lemma open_end_cases k :
  open_end k = true ->
  starts_with is_digit k = false /\ starts_with is_word k = false
  /\ starts_with is_dot k = false
  /\ starts_with (Ascii.eqb "e") k = false /\ starts_with (Ascii.eqb "i") k = false.
Proof.
  destruct k as [|c k]; [repeat split|]. unfold open_end. simpl. revert c. clear k.
  intros c. by_cases_on_char c.
Qed.

Lemma tail_text_start_open tl k :
  tail_text tl -> open_end k = true ->
  starts_with is_digit (tl +:+ k) = false /\ starts_with is_dot (tl +:+ k) = false.
Proof.
  intros (e & i & -> & He & Hi) Hk.
  destruct (open_end_cases k Hk) as (K1 & _ & K4 & _).
  destruct He as [-> | (sg & d3 & -> & _)].
  - destruct Hi as [-> | ->]; [auto|]. split; reflexivity.
  - split; reflexivity.
Qed.

Lemma head_number_tail_open tl k :
  tail_text tl -> open_end k = true ->
  head (matches NUMBER_TAIL_RE (tl +:+ k)) = Some (tl, k).
Proof.
  intros (e & i & -> & He & Hi) Hk.
  destruct (open_end_cases k Hk) as (K1 & _ & _ & K5 & K6).
  rewrite append_assoc. unfold NUMBER_TAIL_RE.
  assert (Hik : starts_with is_digit (i +:+ k) = false
                /\ starts_with (Ascii.eqb "e") (i +:+ k) = false).
  { destruct Hi as [-> | ->]; [auto|]. split; reflexivity. }
  apply head_seq with (s1 := i +:+ k).
  - destruct He as [-> | He].
    + apply head_opt_skip, exponent_fails, Hik.
    + apply head_opt_take, head_exponent; [exact He|apply Hik].
  - destruct Hi as [-> | ->].
    + apply head_opt_skip, matches_class_fails, K6.
    + apply head_opt_take, (head_class (Ascii.eqb "i")). reflexivity.
Qed.

Lemma head_number_rest_open d2 tl k dot :
  dot = "" \/ dot = "." ->
  starts_with is_digit d2 = true -> string_forall is_digit d2 = true ->
  tail_text tl -> open_end k = true ->
  head (matches NUMBER_REST_RE (dot +:+ d2 +:+ tl +:+ k)) = Some (dot +:+ d2 +:+ tl, k).
Proof.
  intros Hdot S2 A2 Htl Hk. unfold NUMBER_REST_RE.
  assert (Hrest : head (matches (RSeq (RPlus is_digit) NUMBER_TAIL_RE) (d2 +:+ tl +:+ k))
                  = Some (d2 +:+ tl, k)).
  { apply head_seq with (s1 := tl +:+ k).
    - apply head_plus; [assumption..|]. apply (tail_text_start_open tl k Htl Hk).
    - apply head_number_tail_open; assumption. }
  destruct Hdot as [-> | ->].
  - apply head_seq with (s1 := d2 +:+ tl +:+ k); [|exact Hrest].
    rewrite append_nil. apply head_opt_skip, matches_class_fails.
    destruct d2 as [|c d2]; [discriminate|]. apply digit_not_dot, S2.
  - apply head_seq with (s1 := d2 +:+ tl +:+ k); [|exact Hrest].
    apply head_opt_take, (head_class (Ascii.eqb ".")). reflexivity.
Qed.

(** The first match of the number regex in front of an open end is the
    whole number token. *)
Lemma head_number_open t k :
  isNumberToken t = true -> open_end k = true ->
  head (matches NUMBER_RE (t +:+ k)) = Some (t, k).
Proof.
  intros Ht Hk.
  destruct (number_token_shape t Ht) as (d1 & d2 & tl & Hshape & A1 & S2 & A2 & Htl).
  change NUMBER_RE with (RSeq (RStar is_digit) NUMBER_REST_RE).
  destruct Hshape as [-> | [-> ->]].
  - rewrite !append_assoc.
    apply head_seq with (s1 := "." +:+ d2 +:+ tl +:+ k).
    + apply (head_star is_digit); [exact A1|reflexivity].
    + apply (head_number_rest_open d2 tl k "."); auto.
  - destruct (string_last_split d2) as (w & c & ->).
    { destruct d2; [discriminate|congruence]. }
    rewrite string_forall_app in A2. apply andb_true_iff in A2 as [Aw Ac].
    simpl in Ac. rewrite andb_true_r in Ac.
    destruct (tail_text_start_open tl k Htl Hk) as [T1 T2].
    cbn [matches].
    replace (((w +:+ String c "") +:+ tl) +:+ k) with (w +:+ String c (tl +:+ k))
      by (rewrite !append_assoc; reflexivity).
    apply (star_backtrack is_digit c (tl +:+ k)); try assumption.
    + cbn [fst snd]. rewrite number_rest_fails by assumption. reflexivity.
    + cbn [fst snd].
      rewrite (head_map (fun m2 => (w +:+ fst m2, snd m2)) _ (String c "" +:+ tl, k)).
      * cbn [fst snd]. rewrite !append_assoc. reflexivity.
      * apply (head_number_rest_open (String c "") tl k ""); auto.
        simpl. rewrite Ac. reflexivity.
Qed.

Lemma token_exec_leaf t k :
  is_leaf t = true -> open_end k = true ->
  token_exec (t +:+ k) = Some (t, drop_spaces k).
Proof.
  unfold is_leaf. intros Ht Hk. destruct (isNumberToken t) eqn:Hn.
  - apply token_exec_head; [apply number_token_start, Hn|].
    apply head_alt_l, head_number_open; assumption.
  - simpl in Ht. destruct (identifier_shape t Ht) as (c & w & -> & Hc & Hw).
    destruct (open_end_cases k Hk) as (_ & K2 & _).
    apply token_exec_head; [apply (ident_start_cases c Hc)|].
    unfold TOKEN_GROUP. rewrite append_cons.
    rewrite head_alt_r by (apply number_fails_on_identifier, Hc).
    apply head_alt_l. unfold IDENT_RE.
    apply (head_seq _ _ _ (String c "") (w +:+ k) w k).
    + apply head_class, Hc.
    + apply (head_star is_word); assumption.
Qed.

Lemma token_exec_star k :
  starts_with (Ascii.eqb "*") k = false -> token_exec ("*" +:+ k) = Some ("*", drop_spaces k).
Proof.
  intros Hk. apply token_exec_head; [reflexivity|].
  unfold TOKEN_GROUP.
  rewrite head_alt_r by reflexivity. rewrite head_alt_r by reflexivity.
  rewrite head_alt_r.
  - reflexivity.
  - change ("*" +:+ k) with (String "*" k). unfold RChar.
    cbn [matches]. change (Ascii.eqb "*" "*") with true. cbn [flat_map map app fst snd].
    destruct k as [|c k]; [reflexivity|]. cbn [starts_with] in Hk. rewrite Hk. reflexivity.
Qed.

Lemma token_exec_symbol t k :
  In t symbol_tokens -> separate t k = true ->
  token_exec (t +:+ k) = Some (t, drop_spaces k).
Proof.
  intros Ht. simpl in Ht.
  repeat destruct Ht as [<-|Ht]; try contradiction; intros Hk;
    try (apply token_exec_head; reflexivity).
  apply token_exec_star. apply negb_true_iff. exact Hk.
Qed.

Lemma token_kind_start t :
  token_kind t -> t <> "" /\ starts_with is_space t = false.
Proof.
  intros [H|[H|H]].
  - pose proof (number_token_start t "" H) as Hs. rewrite append_empty_r in Hs.
    split; [|exact Hs]. intros ->. discriminate H.
  - destruct (identifier_shape t H) as (c & w & -> & Hc & _).
    split; [discriminate|]. apply (ident_start_cases c Hc).
  - simpl in H. repeat destruct H as [<-|H]; try contradiction; split;
      (discriminate || reflexivity).
Qed.

Lemma join_start (p : ascii -> bool) t rest :
  t <> "" -> starts_with p (join "" (t :: rest)) = starts_with p t.
Proof. intros H. rewrite join_cons. apply starts_with_app, H. Qed.

Lemma lex_join tokens :
  Forall token_kind tokens -> separable tokens = true -> lex (join "" tokens) tokens "".
Proof.
  induction 1 as [|t rest Ht Hrest IH]; intros Hsep.
  - apply lex_stop. reflexivity.
  - cbn [separable] in Hsep. apply andb_true_iff in Hsep as [Hnext Hsep].
    rewrite join_cons.
    assert (Hspace : starts_with is_space (join "" rest) = false).
    { destruct Hrest as [|t2 rest' Ht2 _]; [reflexivity|].
      destruct (token_kind_start t2 Ht2) as [N2 S2]. rewrite join_start; assumption. }
    assert (Hsepk : separate t (join "" rest) = true).
    { destruct Hrest as [|t2 rest' Ht2 _].
      - unfold separate. destruct (is_leaf t); [reflexivity|].
        destruct (String.eqb t "*"); reflexivity.
      - destruct (token_kind_start t2 Ht2) as [N2 _].
        unfold separate, open_end in *. rewrite !join_start by exact N2. exact Hnext. }
    apply lex_step with (rest := join "" rest); [|apply IH, Hsep].
    rewrite <- (drop_spaces_start _ Hspace) at 2.
    destruct (is_leaf t) eqn:Hleaf.
    + apply token_exec_leaf; [exact Hleaf|].
      unfold separate in Hsepk. rewrite Hleaf in Hsepk. exact Hsepk.
    + apply token_exec_symbol; [|exact Hsepk].
      unfold is_leaf in Hleaf. apply orb_false_iff in Hleaf as [Hn Hi].
      destruct Ht as [Ht|[Ht|Ht]]; [congruence|congruence|exact Ht].
Qed.

(** X24. Tokens written one after the other lex back to themselves: for a
    list of tokens (number tokens, identifiers and the nine symbols) in
    which no operand is followed by a token that starts with a word
    character or a dot, and no ["*"] by a token that starts with ["*"],
    [tokenize] applied to the tokens joined together returns the list. *)
Theorem joined_tokens_lex_back (tokens : list string) :
  Forall token_kind tokens -> separable tokens = true ->
  tokenize (join "" tokens) = Ok tokens.
Proof. intros Hk Hs. apply lex_tokenize, lex_join; assumption. Qed.

Lemma joined_tokens_lex_back_witness :
  separable ["2"; "**"; "-"; "x1"; "*"; "("; ".5i"; ")"] = true
  /\ tokenize "2**-x1*(.5i)" = Ok ["2"; "**"; "-"; "x1"; "*"; "("; ".5i"; ")"].
Proof.
  split; [reflexivity|].
  apply (joined_tokens_lex_back ["2"; "**"; "-"; "x1"; "*"; "("; ".5i"; ")"]);
    [|reflexivity].
  repeat apply List.Forall_cons; try apply List.Forall_nil; unfold token_kind;
    first [left; reflexivity | right; left; reflexivity | right; right; simpl; tauto].
Defined.

(** ** An expression checked against itself *)

Lemma random_env_nan_free (rand : nat -> float) vars : forall k (env : environment),
  map_Forall (fun _ v => nan_free v) env ->
  map_Forall (fun _ v => nan_free v) (fst (random_env rand vars k env)).
Proof.
  induction vars as [|v vars IH]; intros k env H; cbn [random_env]; [exact H|].
  apply IH. apply map_Forall_insert_2; [apply new_Complex_nan_free|exact H].
Qed.

(** X25. The equality check of an expression against itself answers
    false only at values of the variables where the value of the
    expression has an infinite component: there the value is not equal to
    itself. *)
Theorem check_against_itself (M : MathLib) (rand : nat -> float) (fuel : nat)
    (node : ast) (tries : Z) (tol : float) :
  PrimFloat.ltb 0 tol = true ->
  expressionsEqual M rand fuel node node tries tol = Some (Ok false) ->
  exists k r,
    evaluateAST M fuel node (fst (random_env rand (all_vars node node) k ∅))
    = Some (Ok (VComplex r))
    /\ (PrimFloat.is_infinity (re r) = true \/ PrimFloat.is_infinity (im r) = true).
Proof.
  intros Htol H.
  destruct (Z.ltb_spec 0 tries) as [Ht|Ht].
  2:{ unfold expressionsEqual in H. destruct fuel; cbn [trials] in H;
        replace (0 <? tries)%Z with false in H by (symmetry; apply Z.ltb_ge; lia);
        discriminate. }
  apply (expressionsEqual_answer M rand fuel node node tries tol false) in H
    as (t & k & _ & _ & _ & H); [|exact Ht].
  apply (round_compared M rand fuel node node tol k false) in H
    as (r1 & r2 & E1 & E2 & Heq).
  rewrite E1 in E2. injection E2 as <-.
  exists k, r1. split; [exact E1|].
  assert (Hnan : nan_free r1).
  { eapply evaluateAST_nan_free; [|exact E1].
    apply random_env_nan_free, map_Forall_empty. }
  destruct Hnan as [N1 N2]. unfold eq_tol in Heq.
  rewrite !(self_distance _ tol Htol), N1, N2 in Heq. cbn [negb andb] in Heq.
  destruct (PrimFloat.is_infinity (re r1)); [auto|].
  destruct (PrimFloat.is_infinity (im r1)); [auto|discriminate].
Qed.

Lemma check_against_itself_witness :
  PrimFloat.ltb 0 lit_1e_7 = true
  /\ expressionsEqual reference_math zero_after_first_round 1
       (Op "*" [Var "a"; Literal "1e999"]) (Op "*" [Var "a"; Literal "1e999"]) 6 lit_1e_7
     = Some (Ok false)
  /\ exists k r,
       evaluateAST reference_math 1 (Op "*" [Var "a"; Literal "1e999"])
         (fst (random_env zero_after_first_round
                 (all_vars (Op "*" [Var "a"; Literal "1e999"])
                           (Op "*" [Var "a"; Literal "1e999"])) k ∅))
       = Some (Ok (VComplex r))
       /\ (PrimFloat.is_infinity (re r) = true \/ PrimFloat.is_infinity (im r) = true).
Proof.
  assert (Htol : PrimFloat.ltb 0 lit_1e_7 = true) by reflexivity.
  assert (H : expressionsEqual reference_math zero_after_first_round 1
                (Op "*" [Var "a"; Literal "1e999"]) (Op "*" [Var "a"; Literal "1e999"])
                6 lit_1e_7 = Some (Ok false)) by (vm_compute; reflexivity).
  split; [exact Htol|]. split; [exact H|].
  exact (check_against_itself reference_math zero_after_first_round 1 _ 6 lit_1e_7 Htol H).
Defined.

(** ** Inputs that are not infix expressions *)

Lemma leaf_not_paren t : is_leaf t = true -> is_token (Some t) "(" = false.
Proof.
  intros H. cbn [is_token].
  destruct (String.eqb_spec t "(") as [->|_]; [|reflexivity].
  vm_compute in H. discriminate H.
Qed.

(** An operator other than ["-"] is binary wherever it stands. *)
Lemma parse_step_operator_anywhere out ops0 p op next info :
  In op binary_ops -> op <> "-" -> lookup_op OPERATORS op = Some info ->
  parse_step {| output := out; ops := ops0; prev := p |} op next
  = let '(out', ops') := pop_operators info ops0 out in
    Ok {| output := out'; ops := IStr op :: ops'; prev := Some op |}.
Proof.
  intros H Hminus Hinfo. simpl in H.
  repeat destruct H as [<-|H]; try contradiction; try congruence;
    injection Hinfo as <-; reflexivity.
Qed.

(** X26. The parser does not require operands and operators to
    alternate: for operands [x], [y] and a binary operator [op], the
    postfix input [x y op] parses to the tree of [x op y], and so does the
    prefix input [op x y] when [op] is not ["-"]. *)
Theorem postfix_and_prefix_inputs_parse (x y op : string) :
  is_leaf x = true -> is_leaf y = true -> In op binary_ops ->
  (forall input, tokenize input = Ok [x; y; op] ->
     parseToAST input = Ok (Op op [leaf_node x; leaf_node y]))
  /\ (op <> "-" ->
      forall input, tokenize input = Ok [op; x; y] ->
        parseToAST input = Ok (Op op [leaf_node x; leaf_node y])).
Proof.
  intros Hx Hy Hop.
  destruct (binary_op_info op Hop) as (info & Einfo & Hargs).
  assert (Hbuild :
    (let! stack := build_ast [leaf_item x; leaf_item y; IStr op] [] in
     match stack with
     | [node] => Ok node
     | _ => Throw MalformedExpression
     end) = Ok (Op op [leaf_node x; leaf_node y])).
  { cbn [build_ast]. rewrite !build_step_leaf. cbn [rbind].
    rewrite build_step_leaf. cbn [rbind build_step]. rewrite Einfo, Hargs.
    reflexivity. }
  split; [|intros Hminus]; intros input Htok; unfold parseToAST, to_rpn; rewrite Htok;
    cbn [rbind parse_tokens head].
  - rewrite (parse_step_leaf _ x _ Hx (leaf_not_paren y Hy)). cbn [rbind output ops app].
    assert (Nop : is_token (Some op) "(" = false).
    { simpl in Hop. repeat destruct Hop as [<-|Hop]; try contradiction; reflexivity. }
    rewrite (parse_step_leaf _ y _ Hy Nop). cbn [rbind output ops app].
    rewrite (parse_step_binary _ _ y op _ info Hop Einfo).
    cbn [pop_operators rbind output ops].
    assert (Hdrain : drain_ops [IStr op] [leaf_item x; leaf_item y]
                     = Ok [leaf_item x; leaf_item y; IStr op]).
    { simpl in Hop. repeat destruct Hop as [<-|Hop]; try contradiction; reflexivity. }
    rewrite Hdrain. cbn [rbind]. exact Hbuild.
  - rewrite (parse_step_operator_anywhere _ _ _ op _ info Hop Hminus Einfo).
    cbn [pop_operators rbind].
    rewrite (parse_step_leaf _ x _ Hx (leaf_not_paren y Hy)). cbn [rbind output ops app].
    rewrite (parse_step_leaf _ y None Hy eq_refl). cbn [rbind output ops app].
    assert (Hdrain : drain_ops [IStr op] [leaf_item x; leaf_item y]
                     = Ok [leaf_item x; leaf_item y; IStr op]).
    { simpl in Hop. repeat destruct Hop as [<-|Hop]; try contradiction; reflexivity. }
    rewrite Hdrain. cbn [rbind]. exact Hbuild.
Qed.

Lemma postfix_and_prefix_inputs_parse_witness :
  parseToAST "2 x *" = Ok (Op "*" [Literal "2"; Var "x"])
  /\ parseToAST "* 2 x" = Ok (Op "*" [Literal "2"; Var "x"]).
Proof.
  assert (Hop : In "*" binary_ops) by (simpl; auto 10).
  destruct (postfix_and_prefix_inputs_parse "2" "x" "*" eq_refl eq_refl Hop) as [A B].
  split; [apply A; reflexivity|apply B; [discriminate|reflexivity]].
Defined.

(** ** A parenthesis without its partner *)

Lemma parse_step_next st t n1 n2 :
  is_token n1 "(" = is_token n2 "(" -> parse_step st t n1 = parse_step st t n2.
Proof. intros H. unfold parse_step. rewrite H. reflexivity. Qed.

Lemma parse_tokens_then tokens k : forall st0 st,
  is_token (head k) "(" = false ->
  parse_tokens tokens st0 = Ok st ->
  parse_tokens (tokens ++ k) st0 = parse_tokens k st.
Proof.
  induction tokens as [|t rest IH]; intros st0 st Hk H.
  - injection H as <-. reflexivity.
  - cbn [parse_tokens] in H. change ((t :: rest) ++ k) with (t :: (rest ++ k)).
    cbn [parse_tokens].
    rewrite (parse_step_next st0 t (head (rest ++ k)) (head rest))
      by (destruct rest; [exact Hk|reflexivity]).
    destruct (parse_step st0 t (head rest)) as [st1|e]; [|discriminate].
    cbn [rbind] in *. apply IH; assumption.
Qed.

Lemma pop_to_lparen_none l : forall out,
  Forall (fun x => is_lparen x = false) l -> pop_to_lparen l out = (out ++ l, []).
Proof.
  induction l as [|top rest IH]; intros out H.
  - rewrite app_nil_r. reflexivity.
  - inversion H as [|? ? Htop Hrest]; subst. cbn [pop_to_lparen]. rewrite Htop.
    rewrite IH by assumption. rewrite <- app_assoc. reflexivity.
Qed.

Lemma drain_ops_lparen l : forall out base,
  drain_ops (l ++ IStr "(" :: base) out = Throw UnbalancedParentheses.
Proof.
  induction l as [|top rest IH]; intros out base; [reflexivity|].
  cbn [app drain_ops]. destruct top as [v|x|f|s]; try apply IH.
  destruct (String.eqb s "(" || String.eqb s ")"); [reflexivity|apply IH].
Qed.

(** X27. A parenthesis without its partner is an error: when an input
    parses to a tree, the input with one more ["("] in front and the input
    with one more [")"] at the end raise UnbalancedParentheses. *)
Theorem lone_parenthesis_is_an_error (input : string) (tokens : list string)
    (node : ast) :
  tokenize input = Ok tokens -> parseToAST input = Ok node ->
  (forall input', tokenize input' = Ok ("(" :: tokens) ->
     parseToAST input' = Throw UnbalancedParentheses)
  /\ (forall input', tokenize input' = Ok (tokens ++ [")"]) ->
        parseToAST input' = Throw UnbalancedParentheses).
Proof.
  intros Htok Hparse.
  destruct (parseToAST_stages _ _ _ Htok Hparse) as (st & rpn & Hst & Hdrain & _).
  apply drain_ops_spec in Hdrain as [_ Hops].
  split; intros input' Htok'; unfold parseToAST, to_rpn; rewrite Htok'; cbn [rbind].
  - cbn [parse_tokens]. rewrite parse_step_open. cbn [rbind output ops].
    destruct (parse_tokens_inside tokens st [] [] [] (Some "(") Hst eq_refl eq_refl)
      as [p1 E].
    rewrite app_nil_r in E. rewrite E. cbn [parse_tokens rbind output ops].
    rewrite drain_ops_lparen. reflexivity.
  - fold initial_state. rewrite (parse_tokens_then tokens [")"] _ st eq_refl Hst).
    cbn [parse_tokens]. unfold parse_step.
    change (isNumberToken ")") with false. change (isIdentifier ")") with false.
    cbn [String.eqb Ascii.eqb Bool.eqb].
    rewrite (pop_to_lparen_none _ _ Hops). reflexivity.
Qed.

Lemma lone_parenthesis_is_an_error_witness :
  parseToAST "(a+1" = Throw UnbalancedParentheses
  /\ parseToAST "a+1)" = Throw UnbalancedParentheses.
Proof.
  assert (Htok : tokenize "a+1" = Ok ["a"; "+"; "1"]) by reflexivity.
  assert (Hparse : parseToAST "a+1" = Ok (Op "+" [Var "a"; Literal "1"])) by reflexivity.
  destruct (lone_parenthesis_is_an_error "a+1" _ _ Htok Hparse) as [A B].
  split; [apply A; reflexivity|apply B; reflexivity].
Defined.

(** ** The token before a minus sign *)

Lemma opens_operand_symbols t :
  opens_operand t = true -> In t ["("; ","; "+"; "-"; "*"; "/"; "**"; "^"].
Proof.
  unfold opens_operand, binary_ops. cbn [existsb].
  repeat match goal with
         | |- context [String.eqb t ?k] =>
             destruct (String.eqb_spec t k) as [->|_]; [intros _; simpl; tauto|]
         end.
  discriminate.
Qed.

(** An operand is none of these tokens. *)
Lemma operand_does_not_open t :
  isNumberToken t = true \/ isIdentifier t = true -> opens_operand t = false.
Proof.
  intros H. destruct (opens_operand t) eqn:E; [|reflexivity].
  apply opens_operand_symbols in E. simpl in E.
  repeat destruct E as [<-|E]; try destruct E;
    destruct H as [H|H]; vm_compute in H; discriminate H.
Qed.

(** What [prev] says after a token: the unary-minus test succeeds on it
    exactly when the token was an opening parenthesis, a comma or an
    operator. *)
Lemma parse_step_prev st t next st' :
  token_kind t -> parse_step st t next = Ok st' ->
  unary_context (prev st') = opens_operand t.
Proof.
  intros Hk H.
  destruct (isNumberToken t) eqn:En.
  { unfold parse_step in H. rewrite En in H. injection H as <-.
    rewrite operand_does_not_open by auto. reflexivity. }
  destruct (isIdentifier t) eqn:Ei.
  { unfold parse_step in H. rewrite En, Ei in H.
    rewrite operand_does_not_open by auto.
    destruct (is_token next "("); injection H as <-; reflexivity. }
  destruct Hk as [Hk|[Hk|Hk]]; [congruence|congruence|].
  destruct st as [out ops0 p].
  assert (Hop : forall op info, In op binary_ops -> op <> "-" ->
            lookup_op OPERATORS op = Some info ->
            parse_step {| output := out; ops := ops0; prev := p |} op next = Ok st' ->
            unary_context (prev st') = opens_operand op).
  { intros op info Hin Hne Hinfo Hstep.
    rewrite (parse_step_operator_anywhere out ops0 p op next info Hin Hne Hinfo) in Hstep.
    destruct (pop_operators info ops0 out). injection Hstep as <-. cbn [prev].
    simpl in Hin. repeat destruct Hin as [<-|Hin]; try destruct Hin; reflexivity. }
  simpl in Hk. repeat destruct Hk as [<-|Hk]; try destruct Hk.
  - eapply Hop; [simpl; tauto|discriminate|reflexivity|exact H].
  - eapply Hop; [simpl; tauto|discriminate|reflexivity|exact H].
  - unfold parse_step in H. rewrite En, Ei in H.
    cbn [String.eqb Ascii.eqb Bool.eqb] in H. injection H as <-. reflexivity.
  - unfold parse_step in H. rewrite En, Ei in H.
    cbn [String.eqb Ascii.eqb Bool.eqb output ops] in H.
    destruct (pop_to_lparen ops0 out) as [o [|top [|[| |f|] r]]]; try discriminate;
      injection H as <-; reflexivity.
  - eapply Hop; [simpl; tauto|discriminate|reflexivity|exact H].
  - destruct (parse_step_minus {| output := out; ops := ops0; prev := p |} next)
      as (out' & ops' & E).
    rewrite E in H. injection H as <-. cbn [prev]. unfold resolve_op.
    destruct (unary_context p); reflexivity.
  - eapply Hop; [simpl; tauto|discriminate|reflexivity|exact H].
  - eapply Hop; [simpl; tauto|discriminate|reflexivity|exact H].
  - unfold parse_step in H. rewrite En, Ei in H.
    cbn [String.eqb Ascii.eqb Bool.eqb output ops] in H.
    destruct (pop_to_lparen ops0 out) as [o [|top r]]; [discriminate|].
    injection H as <-. reflexivity.
Qed.

(** So after some tokens the test looks at the last of them. *)
Lemma parse_tokens_prev : forall before st0 st,
  Forall token_kind before -> parse_tokens before st0 = Ok st ->
  unary_context (prev st)
  = match last before with
    | None => unary_context (prev st0)
    | Some p => opens_operand p
    end.
Proof.
  induction before as [|t rest IH]; intros st0 st Hk H.
  - injection H as <-. reflexivity.
  - inversion Hk as [|? ? Ht Hrest]; subst. cbn [parse_tokens] in H.
    destruct (parse_step st0 t (head rest)) as [st1|e] eqn:E; [|discriminate].
    cbn [rbind] in H. destruct rest as [|t2 rest].
    + injection H as <-. cbn [last]. apply (parse_step_prev st0 t _ st1 Ht E).
    + rewrite (IH st1 st Hrest H).
      change (last (t :: t2 :: rest)) with (last (t2 :: rest)).
      destruct (last (t2 :: rest)) eqn:EL; [reflexivity|].
      apply last_None in EL. discriminate EL.
Qed.

(** The step of the parser at a ['-'] after the tokens [before]. *)
Lemma parse_tokens_minus before after st :
  Forall token_kind before ->
  parse_tokens before initial_state = Ok st ->
  exists out ops',
    parse_tokens (before ++ "-" :: after) initial_state
    = parse_tokens after
        {| output := out;
           ops := IStr (if minus_is_unary_after before then "u-" else "-") :: ops';
           prev := Some (if minus_is_unary_after before then "u-" else "-") |}.
Proof.
  intros Hk H.
  rewrite (parse_tokens_then before ("-" :: after) initial_state st eq_refl H).
  cbn [parse_tokens].
  destruct (parse_step_minus st (head after)) as (out & ops' & E).
  rewrite E. cbn [rbind]. exists out, ops'.
  assert (Hu : unary_context (prev st) = minus_is_unary_after before).
  { rewrite (parse_tokens_prev before initial_state st Hk H).
    unfold minus_is_unary_after. destruct (last before); reflexivity. }
  unfold resolve_op. rewrite Hu. cbn [String.eqb Ascii.eqb Bool.eqb andb].
  destruct (minus_is_unary_after before); reflexivity.
Qed.

(** C7. Unary-minus disambiguation: when the parser comes to a ['-']
    token, it takes it for the unary operator exactly when no token comes
    before it or the token before it is an opening parenthesis, a comma or
    an operator, and for the binary subtraction otherwise, so after a
    number, an identifier or a closing parenthesis.  The parser decides
    this on [prev], which after each token passes the test exactly when
    the token was an opening parenthesis, a comma or an operator.  So
    "-2+3" evaluates to 1 and "2*-3" to -6, and "5-3" and "(5)-3" to 2. *)
Theorem unary_minus_disambiguation (M : MathLib) :
  (forall input before after st,
      tokenize input = Ok (before ++ "-" :: after) ->
      parse_tokens before initial_state = Ok st ->
      exists out ops',
        parse_tokens (before ++ "-" :: after) initial_state
        = parse_tokens after
            {| output := out;
               ops := IStr (if minus_is_unary_after before then "u-" else "-") :: ops';
               prev := Some (if minus_is_unary_after before then "u-" else "-") |})
  /\ (forall st t next st',
        token_kind t -> parse_step st t next = Ok st' ->
        unary_context (prev st') = opens_operand t)
  /\ (forall st next, exists out ops',
        parse_step st "-" next =
        Ok {| output := out;
              ops := IStr (if unary_context (prev st) then "u-" else "-") :: ops';
              prev := Some (if unary_context (prev st) then "u-" else "-") |})
  /\ (forall p, unary_context p = true <->
        p = None \/ p = Some "(" \/ p = Some ","
        \/ exists o, p = Some o /\ In o ["+"; "-"; "*"; "/"; "**"; "^"; "u-"])
  /\ evaluates M "-2+3" ∅ (Ok (mkComplex 1 0))
  /\ evaluates M "2*-3" ∅ (Ok (mkComplex (-6) 0))
  /\ evaluates M "5-3" ∅ (Ok (mkComplex 2 0))
  /\ evaluates M "(5)-3" ∅ (Ok (mkComplex 2 0))
  /\ parseToAST "a-b" = Ok (Op "-" [Var "a"; Var "b"])
  /\ parseToAST "a--b" = Ok (Op "-" [Var "a"; Op "u-" [Var "b"]])
  /\ parseToAST "(-a)" = Ok (Op "u-" [Var "a"])
  /\ parseToAST "root(a,-b)" = Ok (Call "root" [Var "a"; Op "u-" [Var "b"]]).
Proof.
  split; [|split; [|split; [|split]]].
  - intros input before after st Htok H.
    apply tokenize_kinds in Htok as [Hk _]. apply Forall_app in Hk as [Hk _].
    apply (parse_tokens_minus before after st Hk H).
  - apply parse_step_prev.
  - intros st next. destruct (parse_step_minus st next) as (out & ops' & H).
    exists out, ops'. rewrite H. unfold resolve_op. simpl.
    destruct (unary_context (prev st)); reflexivity.
  - intros [p|]; simpl; [|tauto].
    unfold in_OPERATORS, OPERATORS, lookup_op.
    split.
    + intros H. right.
      destruct (String.eqb p "(") eqn:E1; [apply String.eqb_eq in E1; subst; tauto|].
      destruct (String.eqb p ",") eqn:E2; [apply String.eqb_eq in E2; subst; tauto|].
      right. right. exists p. split; [reflexivity|].
      simpl in H.
      repeat match type of H with
             | context [String.eqb p ?k] =>
                 let E := fresh "E" in
                 destruct (String.eqb p k) eqn:E;
                 [apply String.eqb_eq in E; rewrite E; simpl; tauto|]
             end.
      discriminate H.
    + intros [H|[H|[H|(o & H & Hin)]]]; try discriminate H.
      * injection H as ->. reflexivity.
      * injection H as ->. reflexivity.
      * injection H as ->.
        simpl in Hin.
        repeat destruct Hin as [<-|Hin]; try reflexivity. contradiction.
  - split; [evaluates_by_computation|]. split; [evaluates_by_computation|].
    split; [evaluates_by_computation|]. split; [evaluates_by_computation|].
    split; [vm_compute; reflexivity|]. split; [vm_compute; reflexivity|].
    split; vm_compute; reflexivity.
Qed.

(** ** Sums of squares in binary64 *)










(** ** The denominator of a division *)



